(** * ORBIT notification bell: alert-text interpreter and alert reconciliation

    A shallow embedding of the pure core of
    [client/src/components/Header.tsx]: the JSON-block extractor, the token
    mapper, the status classifier, the alert parser, the display sanitizer
    and the alert reconciler, with the properties stated about them; then
    the rest of the bell (the unread badge, the read mark and its rollback,
    the hidden alerts and their storage, the visible list, the lead-in of an
    alert) and the inline search.

    Conventions.
    - Strings are JavaScript strings: finite sequences of UTF-16 code units,
      here [list N].  [None] stands for the [-1] of [indexOf] and
      [lastIndexOf], and for [null] and [undefined].
    - The regular expressions of the source are kept as syntax trees and run
      by a backtracking matcher that follows the ECMAScript rules.
    - Values produced by [JSON.parse] are the inductive [JValue]; an object is
      the list of its own properties in the order [Object.keys] gives them.
    - A computation that may raise is in the monad [exc]; [catch] is a
      [try] block whose handler returns a value. *)

From Stdlib Require Import String Ascii.
From Stdlib Require Import List NArith ZArith Bool Arith Lia.
From Stdlib Require Import Permutation Sorted.
Import ListNotations.

Set Warnings "-register-all".

(* ================================================================= *)
(** * Part I: definitions                                              *)
(* ================================================================= *)

(** ** JavaScript strings *)

Definition jsstr := list N.

Definition cu_of_ascii (a : ascii) : N := N_of_ascii a.

(** [U s]: the string literal [s]; an apostrophe in the literal is written
    as it is, a double quote is obtained with [J] below. *)
Fixpoint U (s : string) : jsstr :=
  match s with
  | EmptyString => []
  | String a s' => cu_of_ascii a :: U s'
  end.

Definition DQ : N := 34.       (* the double quote *)
Definition LBRACE : N := 123.  (* { *)
Definition RBRACE : N := 125.  (* } *)

(** [J s]: the literal [s] in which every apostrophe stands for a double
    quote, so that JSON texts stay readable. *)
Definition J (s : string) : jsstr :=
  map (fun c => if N.eqb c 39 then DQ else c) (U s).

Fixpoint str_eqb (a b : jsstr) : bool :=
  match a, b with
  | [], [] => true
  | x :: a', y :: b' => N.eqb x y && str_eqb a' b'
  | _, _ => false
  end.

(** [startsWith p s]: [p] is a prefix of [s]. *)
Fixpoint startsWith (p s : jsstr) : bool :=
  match p, s with
  | [], _ => true
  | x :: p', y :: s' => N.eqb x y && startsWith p' s'
  | _ :: _, [] => false
  end.

(** [slice s a b] is [s.slice(a, b)] for [0 <= a], [0 <= b]. *)
Definition slice (s : jsstr) (a b : nat) : jsstr := firstn (b - a) (skipn a s).

Fixpoint indexOf_aux (key s : jsstr) (pos : nat) : option nat :=
  if startsWith key s then Some pos
  else match s with
       | [] => None
       | _ :: s' => indexOf_aux key s' (S pos)
       end.

(** [indexOf key text from] is [text.indexOf(key, from)]. *)
Definition indexOf (key text : jsstr) (from : nat) : option nat :=
  let start := Nat.min from (length text) in
  indexOf_aux key (skipn start text) start.

Fixpoint lastIndexOf_aux (ch : N) (s : jsstr) (pos : nat) (acc : option nat)
  : option nat :=
  match s with
  | [] => acc
  | c :: s' => lastIndexOf_aux ch s' (S pos) (if N.eqb c ch then Some pos else acc)
  end.

(** [lastIndexOf_ch ch text from] is [text.lastIndexOf(ch, from)] for a one
    unit string [ch]: the last index [<= from] holding [ch]. *)
Definition lastIndexOf_ch (ch : N) (text : jsstr) (from : nat) : option nat :=
  lastIndexOf_aux ch (firstn (S from) text) 0 None.

Definition includes (needle hay : jsstr) : bool :=
  match indexOf needle hay 0 with Some _ => true | None => false end.

(** ** The JSON-block extractor (Header.tsx, lines 55-76) *)

(** The [for] loop of lines 64-74: [s] is the text from index [i] on,
    [depth] the running depth. *)
Fixpoint scanClose (s : jsstr) (i : nat) (depth : Z) : option nat :=
  match s with
  | [] => None
  | ch :: s' =>
      if N.eqb ch LBRACE then scanClose s' (S i) (depth + 1)
      else if N.eqb ch RBRACE then
             let depth' := (depth - 1)%Z in
             if Z.eqb depth' 0 then Some i else scanClose s' (S i) depth'
           else scanClose s' (S i) depth
  end.

Definition chooseOpen (text : jsstr) (idx : nat) : option nat :=
  match indexOf [LBRACE] text idx with
  | Some o => Some o
  | None => lastIndexOf_ch LBRACE text idx
  end.

Definition extractJsonAroundKey (text key : jsstr) : option jsstr :=
  match indexOf key text 0 with
  | None => None
  | Some idx =>
      match chooseOpen text idx with
      | None => None
      | Some open =>
          match scanClose (skipn open text) open 0 with
          | Some i => Some (slice text open (i + 1))
          | None => None
          end
      end
  end.

(** *** The extractor's contract, in the words of the specification *)

(** [key] occurs in [text] at index [i]. *)
Definition occursAt (key text : jsstr) (i : nat) : Prop :=
  i <= length text /\ firstn (length key) (skipn i text) = key.

Definition firstOccurrence (key text : jsstr) (idx : nat) : Prop :=
  occursAt key text idx /\ forall j, j < idx -> ~ occursAt key text j.

Definition braceAt (text : jsstr) (i : nat) : Prop :=
  nth_error text i = Some LBRACE.

(** The nearest [{] at or after [idx]; when none follows, the nearest one
    before [idx]. *)
Definition chosenOpen (text : jsstr) (idx o : nat) : Prop :=
  braceAt text o /\
  ((idx <= o /\ forall j, idx <= j < o -> ~ braceAt text j)
   \/ (o < idx /\ forall j, o < j -> ~ braceAt text j)).

(** Brace depth of a piece of text: opening minus closing braces. *)
Fixpoint depthOf (s : jsstr) : Z :=
  match s with
  | [] => 0
  | ch :: s' =>
      ((if N.eqb ch LBRACE then 1 else if N.eqb ch RBRACE then -1 else 0)
       + depthOf s')%Z
  end.

(** [i] is the index of the brace closing the one at [o]: an opening brace
    stands at [o] and the depth of [text[o..i]] is back to 0 for the first
    time; [text[o..i]] is then a balanced block. *)
Definition matchingClose (text : jsstr) (o i : nat) : Prop :=
  braceAt text o /\
  o <= i < length text /\
  depthOf (slice text o (S i)) = 0%Z /\
  forall j, o <= j < i -> (0 < depthOf (slice text o (S j)))%Z.

(** ** Regular expressions

    The patterns of the source are kept as syntax trees and run by a
    backtracking matcher that follows the ECMAScript matching rules
    (continuation passing, leftmost alternative first, greedy and lazy
    repetition, captures, back references).  None of the patterns uses the
    [m], [s], [u] or [y] flag. *)

(** A character class: ranges of code units, possibly complemented. *)
Record charset : Type := mkcs { cs_neg : bool; cs_ranges : list (N * N) }.

Definition one (c : N) : charset := mkcs false [(c, c)].
Definition cls (rs : list (N * N)) : charset := mkcs false rs.
Definition ncls (rs : list (N * N)) : charset := mkcs true rs.

Definition in_ranges (rs : list (N * N)) (c : N) : bool :=
  existsb (fun r => N.leb (fst r) c && N.leb c (snd r)) rs.

(** ASCII case swap: with the [i] flag two units match when their
    canonical forms agree; canonicalisation never sends a unit outside ASCII
    to one inside, and every letter written in an [i] pattern of the source
    is ASCII. *)
Definition swap_case (c : N) : N :=
  if N.leb 65 c && N.leb c 90 then (c + 32)%N
  else if N.leb 97 c && N.leb c 122 then (c - 32)%N
  else c.

Definition cs_match (ci : bool) (cs : charset) (c : N) : bool :=
  xorb (cs_neg cs)
       (in_ranges (cs_ranges cs) c
        || (ci && in_ranges (cs_ranges cs) (swap_case c))).

(** [\s]: WhiteSpace and LineTerminator. *)
Definition ws_ranges : list (N * N) :=
  [(9, 13); (32, 32); (160, 160); (5760, 5760); (8192, 8202); (8232, 8233);
   (8239, 8239); (8287, 8287); (12288, 12288); (65279, 65279)]%N.
Definition is_ws (c : N) : bool := in_ranges ws_ranges c.

(** [\w] *)
Definition word_ranges : list (N * N) := [(97, 122); (65, 90); (48, 57); (95, 95)]%N.
Definition is_word (c : N) : bool := in_ranges word_ranges c.

(** [.]: anything but a line terminator. *)
Definition dot : charset := ncls [(10, 10); (13, 13); (8232, 8233)]%N.
(** [[\s\S]] *)
Definition anychar : charset := ncls [].

Inductive regex : Type :=
| REmpty
| RChar (cs : charset)
| RSeq (r1 r2 : regex)
| RAlt (r1 r2 : regex)
| RRep (greedy : bool) (min : nat) (max : option nat) (r : regex)
| RGroup (n : nat) (r : regex)
| RBackref (n : nat)
| RStart
| REnd
| RWordB.

(** The capture numbers bound inside a pattern. *)
Fixpoint groups_of (r : regex) : list nat :=
  match r with
  | RSeq r1 r2 | RAlt r1 r2 => groups_of r1 ++ groups_of r2
  | RRep _ _ _ r1 => groups_of r1
  | RGroup n r1 => n :: groups_of r1
  | _ => []
  end.

(** Matcher state: the input still to read, the unit just before it, and its
    index. *)
Record mstate : Type := mkst { st_rest : jsstr; st_prev : option N; st_pos : nat }.

Definition caps := list (nat * jsstr).

Fixpoint cap_get (n : nat) (cp : caps) : option jsstr :=
  match cp with
  | [] => None
  | (m, s) :: cp' => if Nat.eqb m n then Some s else cap_get n cp'
  end.

Definition cap_clear (ns : list nat) (cp : caps) : caps :=
  filter (fun e => negb (existsb (Nat.eqb (fst e)) ns)) cp.

Definition cap_set (n : nat) (s : jsstr) (cp : caps) : caps :=
  (n, s) :: cap_clear [n] cp.

Definition mresult := option (mstate * caps).
Definition kont := mstate -> caps -> mresult.

Fixpoint advance (n : nat) (st : mstate) : mstate :=
  match n with
  | 0 => st
  | S n' =>
      match st_rest st with
      | [] => st
      | c :: rest => advance n' (mkst rest (Some c) (S (st_pos st)))
      end
  end.

Definition word_before (st : mstate) : bool :=
  match st_prev st with Some c => is_word c | None => false end.
Definition word_after (st : mstate) : bool :=
  match st_rest st with c :: _ => is_word c | [] => false end.

Fixpoint eq_ci (ci : bool) (a b : jsstr) : bool :=
  match a, b with
  | [], [] => true
  | x :: a', y :: b' =>
      (N.eqb x y || (ci && N.eqb (swap_case x) y)) && eq_ci ci a' b'
  | _, _ => false
  end.

(** RepeatMatcher: [m] matches the body once, [gs] are the captures of the
    body, which every iteration resets.  An iteration that reads nothing is
    refused once the minimum is reached, so [fuel] iterations suffice when
    [fuel] exceeds the minimum plus the length of the input. *)
Fixpoint rep_loop (m : mstate -> caps -> kont -> mresult) (gs : list nat)
         (greedy : bool) (fuel min : nat) (max : option nat)
         (st : mstate) (cp : caps) (k : kont) {struct fuel} : mresult :=
  match fuel with
  | 0 => None
  | S fuel' =>
      match max with
      | Some 0 => k st cp
      | _ =>
          let d : kont := fun st' cp' =>
            if Nat.eqb min 0 && Nat.eqb (st_pos st') (st_pos st) then None
            else rep_loop m gs greedy fuel' (Nat.pred min)
                          (option_map Nat.pred max) st' cp' k in
          let cpr := cap_clear gs cp in
          if negb (Nat.eqb min 0) then m st cpr d
          else if greedy then
                 match m st cpr d with
                 | Some z => Some z
                 | None => k st cp
                 end
               else
                 match k st cp with
                 | Some z => Some z
                 | None => m st cpr d
                 end
      end
  end.

Fixpoint rmatch (ci : bool) (r : regex) : mstate -> caps -> kont -> mresult :=
  match r with
  | REmpty => fun st cp k => k st cp
  | RChar cs => fun st cp k =>
      match st_rest st with
      | c :: rest =>
          if cs_match ci cs c then k (mkst rest (Some c) (S (st_pos st))) cp
          else None
      | [] => None
      end
  | RSeq r1 r2 => fun st cp k =>
      rmatch ci r1 st cp (fun st' cp' => rmatch ci r2 st' cp' k)
  | RAlt r1 r2 => fun st cp k =>
      match rmatch ci r1 st cp k with
      | Some z => Some z
      | None => rmatch ci r2 st cp k
      end
  | RRep greedy min max r1 => fun st cp k =>
      rep_loop (rmatch ci r1) (groups_of r1) greedy
               (min + length (st_rest st) + 1) min max st cp k
  | RGroup n r1 => fun st cp k =>
      rmatch ci r1 st cp
             (fun st' cp' =>
                k st' (cap_set n (firstn (st_pos st' - st_pos st) (st_rest st)) cp'))
  | RBackref n => fun st cp k =>
      match cap_get n cp with
      | None => k st cp
      | Some s =>
          if eq_ci ci s (firstn (length s) (st_rest st))
          then k (advance (length s) st) cp
          else None
      end
  | RStart => fun st cp k =>
      match st_prev st with None => k st cp | Some _ => None end
  | REnd => fun st cp k =>
      match st_rest st with [] => k st cp | _ :: _ => None end
  | RWordB => fun st cp k =>
      if xorb (word_before st) (word_after st) then k st cp else None
  end.

Definition accept : kont := fun st cp => Some (st, cp).

(** A match: where it starts, where it ends, the matched text, the captures. *)
Record rematch : Type :=
  mkmatch { m_start : nat; m_end : nat; m_text : jsstr; m_caps : caps }.

(** The pattern matched at the current position only. *)
Definition match_here (ci : bool) (r : regex) (st : mstate) : option rematch :=
  match rmatch ci r st [] accept with
  | Some (st', cp) =>
      Some (mkmatch (st_pos st) (st_pos st')
                    (firstn (st_pos st' - st_pos st) (st_rest st)) cp)
  | None => None
  end.

(** [exec] of a pattern without the [g] flag: the leftmost match. *)
Fixpoint search (ci : bool) (r : regex) (prev : option N) (rest : jsstr)
         (pos : nat) : option rematch :=
  match match_here ci r (mkst rest prev pos) with
  | Some m => Some m
  | None =>
      match rest with
      | [] => None
      | c :: rest' => search ci r (Some c) rest' (S pos)
      end
  end.

Definition exec (ci : bool) (r : regex) (s : jsstr) : option rematch :=
  search ci r None s 0.

Definition test (ci : bool) (r : regex) (s : jsstr) : bool :=
  match exec ci r s with Some _ => true | None => false end.

Definition group (n : nat) (m : rematch) : jsstr :=
  match cap_get n (m_caps m) with Some s => s | None => [] end.

(** All matches of a [g] pattern, left to right: after a match the scan goes
    on at its end, one unit further when the match is empty.  [skip] counts
    the units still covered by the last match. *)
Fixpoint matches_from (ci : bool) (r : regex) (prev : option N) (rest : jsstr)
         (pos skip : nat) {struct rest} : list rematch :=
  match skip with
  | S k =>
      match rest with
      | [] => []
      | c :: rest' => matches_from ci r (Some c) rest' (S pos) k
      end
  | 0 =>
      match match_here ci r (mkst rest prev pos) with
      | Some m =>
          m :: match rest with
               | [] => []
               | c :: rest' =>
                   matches_from ci r (Some c) rest' (S pos) (m_end m - pos - 1)
               end
      | None =>
          match rest with
          | [] => []
          | c :: rest' => matches_from ci r (Some c) rest' (S pos) 0
          end
      end
  end.

Definition matchAll (ci : bool) (r : regex) (s : jsstr) : list rematch :=
  matches_from ci r None s 0 0.

(** [s.replace(/r/g, f)] *)
Fixpoint replace_from (ci : bool) (r : regex) (f : rematch -> jsstr)
         (prev : option N) (rest : jsstr) (pos skip : nat) {struct rest} : jsstr :=
  match skip with
  | S k =>
      match rest with
      | [] => []
      | c :: rest' => replace_from ci r f (Some c) rest' (S pos) k
      end
  | 0 =>
      match match_here ci r (mkst rest prev pos) with
      | Some m =>
          f m ++ match rest with
                 | [] => []
                 | c :: rest' =>
                     if Nat.eqb (m_end m) pos
                     then c :: replace_from ci r f (Some c) rest' (S pos) 0
                     else replace_from ci r f (Some c) rest' (S pos)
                                       (m_end m - pos - 1)
                 end
      | None =>
          match rest with
          | [] => []
          | c :: rest' => c :: replace_from ci r f (Some c) rest' (S pos) 0
          end
      end
  end.

Definition replaceAll (ci : bool) (r : regex) (f : rematch -> jsstr) (s : jsstr) : jsstr :=
  replace_from ci r f None s 0 0.

(** [s.replace(/r/, f)]: the leftmost match only. *)
Definition replaceFirst (ci : bool) (r : regex) (f : rematch -> jsstr) (s : jsstr) : jsstr :=
  match exec ci r s with
  | Some m => firstn (m_start m) s ++ f m ++ skipn (m_end m) s
  | None => s
  end.

(** [s.replace(pat, '')] for a string [pat]: the first occurrence goes. *)
Definition removeFirst (pat s : jsstr) : jsstr :=
  match indexOf pat s 0 with
  | Some i => firstn i s ++ skipn (i + length pat) s
  | None => s
  end.

Definition const_repl (t : jsstr) : rematch -> jsstr := fun _ => t.

(** [s.trim()] *)
Fixpoint trimStart (s : jsstr) : jsstr :=
  match s with
  | c :: s' => if is_ws c then trimStart s' else s
  | [] => []
  end.
Definition trim (s : jsstr) : jsstr := rev (trimStart (rev (trimStart s))).

(** [s.toLowerCase()], exact on ASCII text.  A unit outside ASCII is left
    as it is.  Its Unicode lower-casing yields no ASCII letter but [k] (from
    the Kelvin sign), which none of the words the parser compares with
    holds, or an [i] followed by a combining mark, which keeps the text
    apart from every ASCII word just as the unit left in place does: the
    comparisons of the parser with its ASCII words come out the same.
    Where two arbitrary texts are compared (the viewer's address and an
    alert text, the search term and a name), the lower-casing function is
    left open instead: see [relevantToOwnerBy] and the inline search. *)
Definition lower_cu (c : N) : N :=
  if N.leb 65 c && N.leb c 90 then (c + 32)%N else c.
Definition toLowerCase (s : jsstr) : jsstr := map lower_cu s.

(** [s.split(/r/)] for a pattern without captures. *)
Fixpoint split_from (ci : bool) (r : regex) (prev : option N) (rest : jsstr)
         (pos p skip : nat) (cur : jsstr) {struct rest} : list jsstr :=
  match rest with
  | [] => [rev cur]
  | c :: rest' =>
      match skip with
      | S k => split_from ci r (Some c) rest' (S pos) p k cur
      | 0 =>
          match match_here ci r (mkst rest prev pos) with
          | Some m =>
              if Nat.eqb (m_end m) p
              then split_from ci r (Some c) rest' (S pos) p 0 (c :: cur)
              else if Nat.eqb (m_end m) pos
                   then rev cur :: split_from ci r (Some c) rest' (S pos) pos 0 [c]
                   else rev cur :: split_from ci r (Some c) rest' (S pos) (m_end m)
                                              (m_end m - pos - 1) []
          | None => split_from ci r (Some c) rest' (S pos) p 0 (c :: cur)
          end
      end
  end.

Definition splitRe (ci : bool) (r : regex) (s : jsstr) : list jsstr :=
  match s with
  | [] => match match_here ci r (mkst [] None 0) with Some _ => [] | None => [[]] end
  | _ => split_from ci r None s 0 0 0 []
  end.

(** [parts.join(sep)] *)
Fixpoint join (sep : jsstr) (parts : list jsstr) : jsstr :=
  match parts with
  | [] => []
  | [p] => p
  | p :: ps => p ++ sep ++ join sep ps
  end.

(** Pattern notation helpers. *)
Fixpoint rseq (rs : list regex) : regex :=
  match rs with
  | [] => REmpty
  | [r] => r
  | r :: rs' => RSeq r (rseq rs')
  end.
Fixpoint ralt (rs : list regex) : regex :=
  match rs with
  | [] => REmpty
  | [r] => r
  | r :: rs' => RAlt r (ralt rs')
  end.
Definition lit (s : jsstr) : regex := rseq (map (fun c => RChar (one c)) s).
Definition star (r : regex) : regex := RRep true 0 None r.
Definition plus (r : regex) : regex := RRep true 1 None r.
Definition lazy_star (r : regex) : regex := RRep false 0 None r.
Definition lazy_plus (r : regex) : regex := RRep false 1 None r.
Definition opt (r : regex) : regex := RRep true 0 (Some 1) r.
Definition ws : regex := RChar (cls ws_ranges).

(** ** JavaScript values, as [JSON.parse] builds them *)

(** A number is kept as the literal read, the exact decimal
    [mant * 10^exp]; the double it stands for is computed where the number
    is used ([to_double] below). *)
Inductive JValue : Type :=
| JNull
| JBool (b : bool)
| JNum (mant exp : Z)
| JStr (s : jsstr)
| JArr (elems : list JValue)
| JObj (props : list (jsstr * JValue)).

(** A computation that may raise (a [TypeError] here). *)
Inductive exc (A : Type) : Type :=
| Ok (a : A)
| Throw.
Arguments Ok {A} a.
Arguments Throw {A}.

Definition bind {A B : Type} (c : exc A) (f : A -> exc B) : exc B :=
  match c with
  | Ok a => f a
  | Throw => Throw
  end.

Notation "x <- c ;; k" := (bind c (fun x => k))
  (at level 61, c at next level, right associativity).

(** [try { c } catch (e) { h }] *)
Definition catch {A : Type} (c : exc A) (h : A) : A :=
  match c with
  | Ok a => a
  | Throw => h
  end.

Fixpoint mapM {A B : Type} (f : A -> exc B) (l : list A) : exc (list B) :=
  match l with
  | [] => Ok []
  | a :: l' => b <- f a ;; bs <- mapM f l' ;; Ok (b :: bs)
  end.

(** ** Numbers

    A number literal [mant * 10^exp] is read by [JSON.parse] as the nearest
    double, ties going to the even significand; beyond the largest double it
    is an infinity, below half the smallest one it is zero. *)

(** A double that [JSON.parse] can produce.  A finite one other than zero
    is [sig * 2^ex] with [2^52 <= sig < 2^53] and [-1074 <= ex <= 971], or
    [0 < sig < 2^52] and [ex = -1074]. *)
Inductive double : Type :=
| DZero
| DInf (neg : bool)
| DFin (neg : bool) (sig ex : Z).

Definition round_half_even (num den : Z) : Z :=
  let d := (num / den)%Z in
  match (2 * (num mod den) ?= den)%Z with
  | Lt => d
  | Gt => (d + 1)%Z
  | Eq => if Z.even d then d else (d + 1)%Z
  end.

(** [floor (log2 (p / q))] for positive [p] and [q]. *)
Definition log2_ratio (p q : Z) : Z :=
  let k := (Z.log2 p - Z.log2 q)%Z in
  if (if Z.leb 0 k then Z.leb (q * 2 ^ k) p else Z.leb q (p * 2 ^ (- k)))%Z
  then k else (k - 1)%Z.

(** The double nearest to [p / q], for positive [p] and [q]: its
    significand and exponent, [None] for the infinity. *)
Definition round_ratio (p q : Z) : option (Z * Z) :=
  let ex := (Z.max (log2_ratio p q) (-1022) - 52)%Z in
  let sig := if Z.leb 0 ex then round_half_even p (q * 2 ^ ex)
             else round_half_even (p * 2 ^ (- ex)) q in
  let '(sig, ex) := if Z.eqb sig (2 ^ 53) then (2 ^ 52, ex + 1)%Z else (sig, ex) in
  if Z.ltb 971 ex then None else Some (sig, ex).

(** [p / q * 10^n] as a fraction. *)
Definition times_pow10 (p q n : Z) : Z * Z :=
  if Z.leb 0 n then (p * 10 ^ n, q)%Z else (p, q * 10 ^ (- n))%Z.

(** The double of the decimal [m * 10^e] with [0 < m].  A literal whose
    exponent puts it beyond every double, or below every double but zero,
    is settled without computing the power. *)
Definition round_decimal (m e : Z) : option (Z * Z) :=
  if Z.leb 309 (e + (3 * Z.log2 m) / 10) then None
  else if Z.leb (e + Z.log2 m / 3 + 2) (-325) then Some (0, -1074)%Z
  else let '(p, q) := times_pow10 m 1 e in round_ratio p q.

Definition to_double (mant exp : Z) : double :=
  if Z.eqb mant 0 then DZero
  else match round_decimal (Z.abs mant) exp with
       | None => DInf (Z.ltb mant 0)
       | Some (sig, ex) =>
           if Z.eqb sig 0 then DZero else DFin (Z.ltb mant 0) sig ex
       end.

Definition double_eqb (x y : double) : bool :=
  match x, y with
  | DZero, DZero => true
  | DInf a, DInf b => Bool.eqb a b
  | DFin a s e, DFin b s' e' => Bool.eqb a b && Z.eqb s s' && Z.eqb e e'
  | _, _ => false
  end.

Fixpoint dec_digits (fuel : nat) (n : N) (acc : jsstr) : jsstr :=
  match fuel with
  | 0 => acc
  | S f =>
      let acc' := (48 + n mod 10)%N :: acc in
      if N.eqb (n / 10) 0 then acc' else dec_digits f (n / 10)%N acc'
  end.

Definition N_to_str (n : N) : jsstr := dec_digits (S (N.size_nat n)) n [].

Definition nat_to_str (n : nat) : jsstr := N_to_str (N.of_nat n).

(** The least [n' >= n] with [p / q < 10^n']. *)
Fixpoint dec_exp_from (fuel : nat) (p q n : Z) : Z :=
  match fuel with
  | 0 => n
  | S f =>
      let '(a, b) := times_pow10 p q (- n) in
      if Z.leb b a then dec_exp_from f p q (n + 1) else n
  end.

(** The [n] with [10^(n-1) <= p / q < 10^n], for positive [p] and [q]. *)
Definition dec_exp (p q : Z) : Z :=
  dec_exp_from 8 p q (((Z.log2 p - Z.log2 q) * 30103) / 100000 - 2).

(** The decimals [s * 10^(n - k)] with [k] digits that read back as the
    double [sig * 2^ex = p / q], [n] being [n0] or [n0 + 1]: each with its
    distance to the double, counted in units of [10^(n0 - k) / b]. *)
Definition digit_candidates (sig ex p q k n0 : Z) : list (Z * Z * Z) :=
  let '(a, b) := times_pow10 p q (k - n0) in
  let lo := (10 ^ (k - 1))%Z in
  let hi := (10 ^ k)%Z in
  let ok (s n : Z) :=
      Z.leb lo s && Z.ltb s hi
      && match (let '(p', q') := times_pow10 s 1 (n - k) in round_ratio p' q') with
         | Some (sig', ex') => Z.eqb sig' sig && Z.eqb ex' ex
         | None => false
         end in
  let f := (a / b)%Z in
  let g := (a / (10 * b))%Z in
  filter (fun c => ok (fst (fst c)) (snd (fst c)))
         [(f, n0, Z.abs (f * b - a)); (f + 1, n0, Z.abs ((f + 1) * b - a));
          (g, n0 + 1, Z.abs (10 * g * b - a));
          (g + 1, n0 + 1, Z.abs (10 * (g + 1) * b - a))]%Z.

(** The nearest candidate; of two equally near, the even one. *)
Fixpoint nearest (best : Z * Z * Z) (cs : list (Z * Z * Z)) : Z * Z * Z :=
  match cs with
  | [] => best
  | c :: cs' =>
      nearest (if Z.ltb (snd c) (snd best)
                  || (Z.eqb (snd c) (snd best) && Z.even (fst (fst c)))
               then c else best) cs'
  end.

(** The shortest digits: the least [k] for which a candidate exists. *)
Fixpoint shortest_digits (fuel : nat) (sig ex p q k n0 : Z) : Z * Z * Z :=
  match fuel with
  | 0 => (0, 0, 0)%Z
  | S f =>
      match digit_candidates sig ex p q k n0 with
      | c :: cs => let '(s, n, _) := nearest c cs in (k, s, n)
      | [] => shortest_digits f sig ex p q (k + 1) n0
      end
  end.

(** [Number::toString] of a positive finite double, from the digits [s]
    (there are [k] of them) and the exponent [n]. *)
Definition format_number (k s n : Z) : jsstr :=
  let ds := N_to_str (Z.to_N s) in
  if Z.leb k n && Z.leb n 21 then ds ++ repeat 48%N (Z.to_nat (n - k))
  else if Z.ltb 0 n && Z.leb n 21
       then firstn (Z.to_nat n) ds ++ U "." ++ skipn (Z.to_nat n) ds
  else if Z.ltb (-6) n && Z.leb n 0
       then U "0." ++ repeat 48%N (Z.to_nat (- n)) ++ ds
  else
    let e := (n - 1)%Z in
    let es := (if Z.ltb e 0 then U "-" else U "+") ++ N_to_str (Z.abs_N e) in
    match ds with
    | [d] => [d] ++ U "e" ++ es
    | d :: rest => [d] ++ U "." ++ rest ++ U "e" ++ es
    | [] => []
    end.

(** [String(x)] for a double: the shortest decimal that reads back as [x],
    the nearest to [x] when several do, which is how the engines print. *)
Definition double_to_str (x : double) : jsstr :=
  match x with
  | DZero => U "0"
  | DInf neg => (if neg then U "-" else []) ++ U "Infinity"
  | DFin neg sig ex =>
      let '(p, q) := if Z.leb 0 ex then (sig * 2 ^ ex, 1)%Z else (sig, 2 ^ (- ex))%Z in
      let '(k, s, n) := shortest_digits 17 sig ex p q 1 (dec_exp p q) in
      (if neg then U "-" else []) ++ format_number k s n
  end.

(** [String(n)] for the number read from the literal [mant * 10^exp]. *)
Definition num_to_str (mant exp : Z) : jsstr := double_to_str (to_double mant exp).

(** Truthiness ([!!v]); a number is falsy when it is zero as a double. *)
Definition truthy (v : JValue) : bool :=
  match v with
  | JNull => false
  | JBool b => b
  | JNum m e => match to_double m e with DZero => false | _ => true end
  | JStr s => match s with [] => false | _ => true end
  | JArr _ | JObj _ => true
  end.

Definition truthy_opt (v : option JValue) : bool :=
  match v with Some v => truthy v | None => false end.

(** The value of an own property. *)
Fixpoint assoc {V : Type} (k : jsstr) (props : list (jsstr * V)) : option V :=
  match props with
  | [] => None
  | (k', v) :: props' => if str_eqb k' k then Some v else assoc k props'
  end.

(** [String(v)].  An object is converted through its [toString] property:
    a parsed object that owns a property of that name holds a value there,
    not a function, and [Object.prototype.valueOf] then returns the object
    itself, so the conversion raises a [TypeError]; every other object
    prints as [[object Object]].  An array joins the strings of its elements
    with commas, [null] printing as the empty string. *)
Fixpoint js_String (v : JValue) : exc jsstr :=
  match v with
  | JNull => Ok (U "null")
  | JBool true => Ok (U "true")
  | JBool false => Ok (U "false")
  | JNum m e => Ok (num_to_str m e)
  | JStr s => Ok s
  | JArr l =>
      ss <- (fix elems (l : list JValue) : exc (list jsstr) :=
               match l with
               | [] => Ok []
               | x :: l' =>
                   s <- match x with JNull => Ok [] | _ => js_String x end ;;
                   ss <- elems l' ;;
                   Ok (s :: ss)
               end) l ;;
      Ok (join (U ",") ss)
  | JObj props =>
      match assoc (U "toString") props with
      | Some _ => Throw
      | None => Ok (U "[object Object]")
      end
  end.

(** [v || ''] followed by [String]. *)
Definition String_or_empty (v : option JValue) : exc jsstr :=
  match v with
  | Some v => if truthy v then js_String v else Ok []
  | None => Ok []
  end.

Definition isArray (v : option JValue) : bool :=
  match v with Some (JArr _) => true | _ => false end.

(** [typeof v === 'object'] *)
Definition typeof_object (v : JValue) : bool :=
  match v with JNull | JArr _ | JObj _ => true | _ => false end.

Definition typeof_string_or_boolean (v : option JValue) : bool :=
  match v with Some (JStr _) | Some (JBool _) => true | _ => false end.

(** An array index as a property name: a canonical decimal below 2^32 - 1. *)
Definition all_digits (k : jsstr) : bool :=
  forallb (fun c => N.leb 48 c && N.leb c 57) k.

Fixpoint str_to_N (k : jsstr) (acc : N) : N :=
  match k with
  | [] => acc
  | c :: k' => str_to_N k' (acc * 10 + (c - 48))%N
  end.

Definition index_of_key (k : jsstr) : option N :=
  match k with
  | [] => None
  | c :: k' =>
      if all_digits k && (negb (N.eqb c 48) || match k' with [] => true | _ => false end)
         && Nat.leb (length k) 10 && N.ltb (str_to_N k 0) 4294967295
      then Some (str_to_N k 0)
      else None
  end.

(** Own properties in the order [Object.keys] lists them: array indices in
    ascending order first, then the other names in the order of creation.
    [obj_set] creates or overwrites a data property. *)
Fixpoint obj_replace {V : Type} (k : jsstr) (v : V) (props : list (jsstr * V))
  : list (jsstr * V) :=
  match props with
  | [] => []
  | (k', v') :: props' =>
      if str_eqb k' k then (k, v) :: props'
      else (k', v') :: obj_replace k v props'
  end.

Fixpoint obj_insert {V : Type} (k : jsstr) (v : V) (props : list (jsstr * V))
  : list (jsstr * V) :=
  match props with
  | [] => [(k, v)]
  | (k', v') :: props' =>
      match index_of_key k, index_of_key k' with
      | Some n, Some n' =>
          if N.ltb n n' then (k, v) :: props else (k', v') :: obj_insert k v props'
      | Some _, None => (k, v) :: props
      | None, _ => (k', v') :: obj_insert k v props'
      end
  end.

Definition obj_set {V : Type} (k : jsstr) (v : V) (props : list (jsstr * V))
  : list (jsstr * V) :=
  match assoc k props with
  | Some _ => obj_replace k v props
  | None => obj_insert k v props
  end.

(** [o[k] = v] on an object literal [{}]: the name [__proto__] reaches the
    setter of [Object.prototype], which ignores a string. *)
Definition obj_assign (k v : jsstr) (props : list (jsstr * jsstr))
  : list (jsstr * jsstr) :=
  if str_eqb k (U "__proto__") then props else obj_set k v props.

(** [v.name] for a truthy value [v].  Only parsed values occur, the names
    read are [items], [others] and own keys, none of which the prototypes
    define. *)
Definition get_prop (v : JValue) (k : jsstr) : option JValue :=
  match v with
  | JObj props => assoc k props
  | JArr l =>
      match index_of_key k with
      | Some n => nth_error l (N.to_nat n)
      | None => None
      end
  | _ => None
  end.

(** [Object.keys(v)] for an object or an array. *)
Definition object_keys (v : JValue) : list jsstr :=
  match v with
  | JObj props => map fst props
  | JArr l => map nat_to_str (seq 0 (length l))
  | _ => []
  end.

(** ** [JSON.parse] *)

Definition json_ws (c : N) : bool :=
  N.eqb c 32 || N.eqb c 9 || N.eqb c 10 || N.eqb c 13.

Fixpoint skip_ws (s : jsstr) : jsstr :=
  match s with
  | c :: s' => if json_ws c then skip_ws s' else s
  | [] => []
  end.

Definition hex_val (c : N) : option N :=
  if N.leb 48 c && N.leb c 57 then Some (c - 48)%N
  else if N.leb 97 c && N.leb c 102 then Some (c - 87)%N
  else if N.leb 65 c && N.leb c 70 then Some (c - 55)%N
  else None.

(** The characters of a string literal after its opening quote. *)
Fixpoint parse_chars (s : jsstr) (acc : jsstr) : option (jsstr * jsstr) :=
  match s with
  | [] => None
  | c :: s1 =>
      if N.eqb c DQ then Some (rev acc, s1)
      else if N.ltb c 32 then None
      else if N.eqb c 92 then
        match s1 with
        | e :: s2 =>
            if N.eqb e 117 then
              match s2 with
              | h1 :: h2 :: h3 :: h4 :: s3 =>
                  match hex_val h1, hex_val h2, hex_val h3, hex_val h4 with
                  | Some a, Some b, Some c', Some d =>
                      parse_chars s3 ((((a * 16 + b) * 16 + c') * 16 + d)%N :: acc)
                  | _, _, _, _ => None
                  end
              | _ => None
              end
            else
              let unesc :=
                  if N.eqb e DQ then Some DQ
                  else if N.eqb e 92 then Some 92%N
                  else if N.eqb e 47 then Some 47%N
                  else if N.eqb e 98 then Some 8%N
                  else if N.eqb e 102 then Some 12%N
                  else if N.eqb e 110 then Some 10%N
                  else if N.eqb e 114 then Some 13%N
                  else if N.eqb e 116 then Some 9%N
                  else None in
              match unesc with
              | Some u => parse_chars s2 (u :: acc)
              | None => None
              end
        | [] => None
        end
      else parse_chars s1 (c :: acc)
  end.

Definition is_digit (c : N) : bool := N.leb 48 c && N.leb c 57.

Fixpoint take_digits (s : jsstr) (acc : jsstr) : jsstr * jsstr :=
  match s with
  | c :: s' => if is_digit c then take_digits s' (c :: acc) else (rev acc, s)
  | [] => (rev acc, [])
  end.

(** A number literal: [-? int frac? exp?]. *)
Definition parse_number (s : jsstr) : option (JValue * jsstr) :=
  let '(neg, s0) := match s with
                    | c :: s' => if N.eqb c 45 then (true, s') else (false, s)
                    | [] => (false, s)
                    end in
  let '(ip, s1) := take_digits s0 [] in
  match ip with
  | [] => None
  | d :: ip' =>
      if N.eqb d 48 && negb (match ip' with [] => true | _ => false end) then None
      else
        let frac :=
            match s1 with
            | c :: s2 =>
                if N.eqb c 46 then
                  match take_digits s2 [] with
                  | ([], _) => None
                  | (fp, s3) => Some (fp, s3)
                  end
                else Some ([], s1)
            | [] => Some ([], s1)
            end in
        match frac with
        | None => None
        | Some (fp, s3) =>
            let ex :=
                match s3 with
                | c :: s4 =>
                    if N.eqb c 101 || N.eqb c 69 then
                      let '(eneg, s5) :=
                          match s4 with
                          | g :: s4' =>
                              if N.eqb g 45 then (true, s4')
                              else if N.eqb g 43 then (false, s4')
                              else (false, s4)
                          | [] => (false, s4)
                          end in
                      match take_digits s5 [] with
                      | ([], _) => None
                      | (ep, s6) =>
                          let e := Z.of_N (str_to_N ep 0) in
                          Some ((if eneg then - e else e)%Z, s6)
                      end
                    else Some (0%Z, s3)
                | [] => Some (0%Z, s3)
                end in
            match ex with
            | None => None
            | Some (e, s6) =>
                let m := Z.of_N (str_to_N (ip ++ fp) 0) in
                Some (JNum (if neg then - m else m)%Z
                           (e - Z.of_nat (length fp))%Z, s6)
            end
        end
  end.

Fixpoint parse_value (fuel : nat) (s : jsstr) {struct fuel}
  : option (JValue * jsstr) :=
  match fuel with
  | 0 => None
  | S f =>
      match skip_ws s with
      | [] => None
      | c :: s1 =>
          if N.eqb c LBRACE then
            match skip_ws s1 with
            | c2 :: s2 =>
                if N.eqb c2 RBRACE then Some (JObj [], s2)
                else parse_members f (c2 :: s2) []
            | [] => None
            end
          else if N.eqb c 91 then
            match skip_ws s1 with
            | c2 :: s2 =>
                if N.eqb c2 93 then Some (JArr [], s2)
                else parse_elems f (c2 :: s2) []
            | [] => None
            end
          else if N.eqb c DQ then
            match parse_chars s1 [] with
            | Some (str, s2) => Some (JStr str, s2)
            | None => None
            end
          else if startsWith (U "true") (c :: s1) then Some (JBool true, skipn 4 (c :: s1))
          else if startsWith (U "false") (c :: s1) then Some (JBool false, skipn 5 (c :: s1))
          else if startsWith (U "null") (c :: s1) then Some (JNull, skipn 4 (c :: s1))
          else parse_number (c :: s1)
      end
  end
with parse_elems (fuel : nat) (s : jsstr) (acc : list JValue) {struct fuel}
  : option (JValue * jsstr) :=
  match fuel with
  | 0 => None
  | S f =>
      match parse_value f s with
      | Some (v, s1) =>
          match skip_ws s1 with
          | c :: s2 =>
              if N.eqb c 44 then parse_elems f s2 (v :: acc)
              else if N.eqb c 93 then Some (JArr (rev (v :: acc)), s2)
              else None
          | [] => None
          end
      | None => None
      end
  end
with parse_members (fuel : nat) (s : jsstr) (acc : list (jsstr * JValue))
       {struct fuel} : option (JValue * jsstr) :=
  match fuel with
  | 0 => None
  | S f =>
      match skip_ws s with
      | c :: s1 =>
          if N.eqb c DQ then
            match parse_chars s1 [] with
            | Some (k, s2) =>
                match skip_ws s2 with
                | c3 :: s3 =>
                    if N.eqb c3 58 then
                      match parse_value f s3 with
                      | Some (v, s4) =>
                          match skip_ws s4 with
                          | c5 :: s5 =>
                              if N.eqb c5 44 then parse_members f s5 (obj_set k v acc)
                              else if N.eqb c5 RBRACE
                                   then Some (JObj (obj_set k v acc), s5)
                                   else None
                          | [] => None
                          end
                      | None => None
                      end
                    else None
                | [] => None
                end
            | None => None
            end
          else None
      | [] => None
      end
  end.

(** [JSON.parse(text)]; [None] is the [SyntaxError].  Every call of the
    parser reads at least one unit or follows one that did. *)
Definition JSON_parse (text : jsstr) : option JValue :=
  match parse_value (2 * length text + 2) text with
  | Some (v, rest) => match skip_ws rest with [] => Some v | _ => None end
  | None => None
  end.

(** ** The patterns of [Header.tsx]

    In the comments a double quote of the source is written as an
    apostrophe. *)

Definition chars (s : string) : list (N * N) := map (fun c => (c, c)) (U s).
Definition alpha : list (N * N) := [(65, 90); (97, 122)]%N.
Definition alnum : list (N * N) := alpha ++ [(48, 57)]%N.
Definition c1 (s : string) : regex := lit (U s).
Definition notq : charset := ncls [(DQ, DQ)].

(** [[A-Za-z0-9._%+-]+@[A-Za-z0-9.-]+\.[A-Za-z]{2,}] *)
Definition re_email : regex :=
  rseq [plus (RChar (cls (alnum ++ chars "._%+-"))); c1 "@";
        plus (RChar (cls (alnum ++ chars ".-"))); c1 ".";
        RRep true 2 None (RChar (cls alpha))].

(** [[—–-]\s*(email)\s*$], lines 36, 39 *)
Definition re_title_email : regex :=
  rseq [RChar (cls ([(8212, 8212); (8211, 8211)]%N ++ chars "-")); star ws;
        RGroup 1 re_email; star ws; REnd].

(** [(\{[\s\S]*?\})], lines 96, 387 *)
Definition re_block : regex :=
  RGroup 1 (rseq [RChar (one LBRACE); lazy_star (RChar anychar); RChar (one RBRACE)]).

(** [Needs:\s*(\{[\s\S]*\})] with [i], line 116 *)
Definition re_needs : regex :=
  rseq [c1 "Needs:"; star ws;
        RGroup 1 (rseq [RChar (one LBRACE); star (RChar anychar); RChar (one RBRACE)])].

(** ['[^']+'\s*:\s*'[^']+'\s*,?], line 124 *)
Definition re_quoted_pair_strip : regex :=
  rseq [RChar (one DQ); plus (RChar notq); RChar (one DQ); star ws; c1 ":"; star ws;
        RChar (one DQ); plus (RChar notq); RChar (one DQ); star ws; opt (c1 ",")].

(** [}\s*\{], line 126 and [[{}]], line 127 *)
Definition re_close_open : regex :=
  rseq [RChar (one RBRACE); star ws; RChar (one LBRACE)].
Definition re_brace : regex := RChar (cls [(LBRACE, LBRACE); (RBRACE, RBRACE)]).

(** [Requested equipment:\s*([^\[]+)] with [i], line 132 *)
Definition re_requested : regex :=
  rseq [c1 "Requested equipment:"; star ws; RGroup 1 (plus (RChar (ncls (chars "["))))].

(** [_] and [[.,;]+$], lines 138, 146 *)
Definition re_underscore : regex := c1 "_".
Definition re_trailing_punct : regex := rseq [plus (RChar (cls (chars ".,;"))); REnd].

(** ['([^']+)'\s*:\s*'([^']+)'], line 153 *)
Definition re_quoted_pair : regex :=
  rseq [RChar (one DQ); RGroup 1 (plus (RChar notq)); RChar (one DQ); star ws; c1 ":";
        star ws; RChar (one DQ); RGroup 2 (plus (RChar notq)); RChar (one DQ)].

(** [([A-Za-z0-9 &]+?)\s*[:\-]\s*(prepared|not_available|not available|prepared|true|false|yes|no)]
    with [i], lines 168, 179 *)
Definition re_label_status : regex :=
  rseq [RGroup 1 (lazy_plus (RChar (cls (alnum ++ chars " &")))); star ws;
        RChar (cls (chars ":-")); star ws;
        RGroup 2 (ralt [c1 "prepared"; c1 "not_available"; c1 "not available";
                        c1 "prepared"; c1 "true"; c1 "false"; c1 "yes"; c1 "no"])].

(** [•|‣|◦|\*|\n], line 177 *)
Definition re_bullet : regex :=
  ralt [RChar (one 8226); RChar (one 8227); RChar (one 9702); c1 "*"; RChar (one 10)].

(** [.*?others[:\s-]*] with [i], lines 205, 258 *)
Definition re_others_prefix : regex :=
  rseq [lazy_star (RChar dot); c1 "others";
        star (RChar (cls (chars ":" ++ ws_ranges ++ chars "-")))].

(** [[,;]+], line 253 *)
Definition re_comma_semi : regex := plus (RChar (cls (chars ",;"))).

(** [Others?:\s*( .* )$] with [i], line 266 *)
Definition re_others_tail : regex :=
  rseq [c1 "Other"; opt (c1 "s"); c1 ":"; star ws; RGroup 1 (star (RChar dot)); REnd].

(** Lines 384, 29: [\\n] and [\\']. *)
Definition re_esc_n : regex := lit [92; 110]%N.
Definition re_esc_q : regex := lit [92; DQ]%N.

(** Line 397: ['items'\s*:\s*], [items'\s*:\s*], ['items'], [items':], all
    with [gi]. *)
Definition re_items1 : regex :=
  rseq [RChar (one DQ); c1 "items"; RChar (one DQ); star ws; c1 ":"; star ws].
Definition re_items2 : regex :=
  rseq [c1 "items"; RChar (one DQ); star ws; c1 ":"; star ws].
Definition re_items3 : regex := rseq [RChar (one DQ); c1 "items"; RChar (one DQ)].
Definition re_items4 : regex := rseq [c1 "items"; RChar (one DQ); c1 ":"].

(** [\s-\s[^\n]+] and line 400: [(\s-\s[^\n]+)(?:\s-\s[^\n]+){1,}] *)
Definition re_dash_sep : regex := rseq [ws; c1 "-"; ws].
Definition re_dash_item : regex :=
  rseq [ws; c1 "-"; ws; plus (RChar (ncls [(10, 10)]%N))].
Definition re_dash_list : regex :=
  rseq [RGroup 1 re_dash_item; RRep true 1 None re_dash_item].

(** Line 407: [(\b[^\n]{5,200})\s+\1] *)
Definition re_dup : regex :=
  rseq [RGroup 1 (rseq [RWordB; RRep true 5 (Some 200) (RChar (ncls [(10, 10)]%N))]);
        plus ws; RBackref 1].

(** Lines 410, 412, 414: [[{}\[\]']], [\s{2,}], [[-,:;\s]+$] *)
Definition re_brackets : regex :=
  RChar (cls ([(LBRACE, LBRACE); (RBRACE, RBRACE); (DQ, DQ)] ++ chars "[]")).
Definition re_spaces : regex := RRep true 2 None ws.
Definition re_trailing_sep : regex :=
  rseq [plus (RChar (cls (chars "-,:;" ++ ws_ranges))); REnd].

(** ** The token mapper (lines 137-147) *)

Definition nonempty (s : jsstr) : bool :=
  match s with [] => false | _ => true end.

Definition mapToken (rawToken : jsstr) : option jsstr :=
  let raw := trim (replaceAll false re_underscore (const_repl (U " ")) rawToken) in
  let lower := toLowerCase raw in
  if includes (U "others") lower then None
  else if str_eqb lower (U "whiteboard") then Some (U "Whiteboard & Markers")
  else if str_eqb lower (U "projector") then Some (U "Projector")
  else if str_eqb lower (U "extension cord") || str_eqb lower (U "extension_cord")
       then Some (U "Extension Cord")
  else if str_eqb lower (U "hdmi") then Some (U "HDMI Cable")
  else if str_eqb lower (U "extra chairs") || str_eqb lower (U "extra_chairs")
       then Some (U "Extra Chairs")
  else Some (trim (replaceAll false re_trailing_punct (const_repl []) raw)).

(** [mapToken(k) || String(k)] *)
Definition labelOf (k : jsstr) : jsstr :=
  match mapToken k with
  | Some l => if nonempty l then l else k
  | None => k
  end.

(** ** The status classifier (lines 221-222, repeated at 233-234, 246-247) *)

Inductive Status : Type := prepared | not_available | pending.

(** The conditional expression computing [status] from the lower-cased
    [val]. *)
Definition statusOf (val : jsstr) : Status :=
  if str_eqb val (U "prepared") || str_eqb val (U "true") || str_eqb val (U "yes")
  then prepared
  else if str_eqb val (U "not available") || str_eqb val (U "not_available")
          || str_eqb val (U "false") || str_eqb val (U "no")
       then not_available
       else pending.

(** Lines 220-222: [rawVal] is the value found in the items map (absent
    values do not occur: the keys are the map's own). *)
Definition classifyValue (rawVal : option JValue) : exc Status :=
  val <- String_or_empty rawVal ;;
  Ok (statusOf (toLowerCase val)).

Record Item : Type := mkItem { label : jsstr; status : Status }.

(** ** The alert parser (lines 24-274) *)

Record Alert : Type := mkAlert {
  id : jsstr;
  title : jsstr;            (* '' when absent *)
  message : jsstr;          (* '' when absent *)
  details : jsstr;          (* '' when absent *)
  structuredNote : option JValue;
  userId : option jsstr;
  isRead : bool;
  createdAt : option Z      (* new Date(createdAt).getTime(); None is NaN *)
}.

(** The fields of the result that the bell's item list is built from.  The
    title and the [cleaned] text are rewritten after line 274, inside [try]
    blocks, and do not feed back into these fields. *)
Record ParsedAlert : Type := mkParsed {
  titleRequesterEmail : option jsstr;
  equipmentList : list jsstr;
  othersText : option jsstr;
  needsObj : option JValue;
  itemsWithStatus : option (list Item)
}.

Definition or_str (a b : jsstr) : jsstr := if nonempty a then a else b.

(** Lines 29 and 384. *)
Definition unescape (s : jsstr) : jsstr :=
  replaceAll false re_esc_q (const_repl [DQ])
             (replaceAll false re_esc_n (const_repl [10%N]) s).

(** Lines 97-107: the first block that parses and passes the test. *)
Fixpoint firstParsed (blocks : list jsstr) : option JValue :=
  match blocks with
  | [] => None
  | block :: rest =>
      match JSON_parse block with
      | Some parsed =>
          if truthy parsed
             && (truthy_opt (get_prop parsed (U "items"))
                 || truthy_opt (get_prop parsed (U "others"))
                 || typeof_object parsed)
          then Some parsed
          else firstParsed rest
      | None => firstParsed rest
      end
  end.

(** Line 96. *)
Definition jsonBlocks (raw : jsstr) : list jsstr :=
  map (group 1) (matchAll false re_block raw).

(** Lines 46-129: the needs object and what is left of [raw]. *)
Definition findNeeds (note : option JValue) (raw : jsstr) : option JValue * jsstr :=
  let needs0 := if truthy_opt note then note else None in
  let '(needs1, raw1) :=
      match extractJsonAroundKey raw (J "'items'") with
      | Some itemsBlock =>
          if nonempty itemsBlock then
            match JSON_parse itemsBlock with
            | Some parsed => (Some parsed, removeFirst itemsBlock raw)
            | None => (None, raw)
            end
          else (needs0, raw)
      | None => (needs0, raw)
      end in
  let '(needs2, raw2) :=
      if negb (truthy_opt needs1) then
        let blocks := jsonBlocks raw1 in
        (match firstParsed blocks with Some parsed => Some parsed | None => needs1 end,
         fold_left (fun r block => removeFirst block r) blocks raw1)
      else (needs1, raw1) in
  let '(needs3, raw3) :=
      if negb (truthy_opt needs2) then
        match exec true re_needs raw2 with
        | Some m =>
            if nonempty (group 1 m) then
              match JSON_parse (group 1 m) with
              | Some parsed => (Some parsed, removeFirst (group 1 m) raw2)
              | None => (None, raw2)
              end
            else (needs2, raw2)
        | None => (needs2, raw2)
        end
      else (needs2, raw2) in
  (needs3,
   replaceAll false re_brace (const_repl [])
     (replaceAll false re_close_open (const_repl (U " "))
        (replaceAll false re_quoted_pair_strip (const_repl []) raw3))).

(** Lines 150-160. *)
Definition parseQuotedPairs (combinedMessage : jsstr) : list (jsstr * jsstr) :=
  fold_left (fun pairs m => obj_assign (group 1 m) (group 2 m) pairs)
            (matchAll false re_quoted_pair combinedMessage) [].

(** Lines 163-187. *)
Definition parseInlineLabelStatus (combinedMessage raw : jsstr) : list (jsstr * jsstr) :=
  let text := or_str combinedMessage raw in
  let pairs :=
      fold_left (fun pairs mm =>
                   let key := trim (group 1 mm) in
                   let val := trim (group 2 mm) in
                   if nonempty key then obj_assign key val pairs else pairs)
                (matchAll true re_label_status text) [] in
  match pairs with
  | [] =>
      fold_left (fun pairs part =>
                   match exec true re_label_status part with
                   | Some m2 => obj_assign (trim (group 1 m2)) (trim (group 2 m2)) pairs
                   | None => pairs
                   end)
                (splitRe false re_bullet text) []
  | _ => pairs
  end.

(** Lines 232-236 and 245-249. *)
Definition itemsOfPairs (pairs : list (jsstr * jsstr)) : list Item :=
  map (fun kv => mkItem (labelOf (fst kv)) (statusOf (toLowerCase (snd kv)))) pairs.

(** The callback of lines 201-210 and 255-263 over the tokens in order:
    the labels kept by [filter(Boolean)] and the first trailing text of an
    [others] token. *)
Fixpoint mapTokens (toks : list jsstr) (others : jsstr) : list jsstr * jsstr :=
  match toks with
  | [] => ([], others)
  | tok :: toks' =>
      if includes (U "others") (toLowerCase tok) then
        let trailing := trim (replaceFirst true re_others_prefix (const_repl []) tok) in
        mapTokens toks' (if nonempty trailing && negb (nonempty others)
                         then trailing else others)
      else
        let '(ls, o) := mapTokens toks' others in
        (match mapToken tok with
         | Some l => if nonempty l then l :: ls else ls
         | None => ls
         end, o)
  end.

Definition elemsOf (v : option JValue) : list JValue :=
  match v with Some (JArr l) => l | _ => [] end.

(** Lines 191-197. *)
Definition normalizeNeeds (needs : JValue) : JValue :=
  if negb (truthy_opt (get_prop needs (U "items"))) && typeof_object needs then
    let maybeKeys := object_keys needs in
    if negb (Nat.eqb (length maybeKeys) 0)
       && forallb (fun k => typeof_string_or_boolean (get_prop needs k)) maybeKeys
    then JObj [(U "items", needs)]
    else needs
  else needs.

(** Lines 216-226. *)
Definition itemsOfMap (needs : JValue) : option (list Item) :=
  match get_prop needs (U "items") with
  | Some items =>
      if truthy items && typeof_object items && negb (isArray (Some items)) then
        catch (l <- mapM (fun k => st <- classifyValue (get_prop items k) ;;
                                   Ok (mkItem (labelOf k) st))
                         (object_keys items) ;;
               Ok (Some l))
              None
      else None
  | None => None
  end.

Definition has_items (l : option (list Item)) : bool :=
  match l with Some (_ :: _) => true | _ => false end.

(** Lines 199-213: the equipment list and the others text of an items
    array. *)
Definition listOfArray (needs : JValue) : exc (list jsstr * option jsstr) :=
  if isArray (get_prop needs (U "items")) then
    toks <- mapM (fun s => String_or_empty (Some s))
                 (elemsOf (get_prop needs (U "items"))) ;;
    let '(mapped, othersFromItems) := mapTokens toks [] in
    others <- (if nonempty othersFromItems then Ok (Some othersFromItems)
               else match get_prop needs (U "others") with
                    | Some o => if truthy o
                                then s <- js_String o ;; Ok (Some (trim s))
                                else Ok None
                    | None => Ok None
                    end) ;;
    Ok (mapped, others)
  else Ok ([], None).

(** Lines 215-251: the items map, else the quoted pairs, else the inline
    label-status fragments. *)
Definition statusItems (needs : JValue) (combinedMessage raw : jsstr)
  : option (list Item) :=
  let items1 := itemsOfMap needs in
  let items2 :=
      match items1 with
      | Some _ => items1
      | None =>
          match parseQuotedPairs combinedMessage with
          | [] => None
          | pairs => Some (itemsOfPairs pairs)
          end
      end in
  if has_items items2 then items2
  else match parseInlineLabelStatus combinedMessage raw with
       | [] => items2
       | pairs2 => Some (itemsOfPairs pairs2)
       end.

(** Lines 252-268: the legacy [Requested equipment:] text. *)
Definition listOfLegacy (eqMatch : option rematch) : list jsstr * option jsstr :=
  match eqMatch with
  | Some m =>
      if nonempty (group 1 m) then
        let parts := filter nonempty
                            (map trim (splitRe false re_comma_semi (group 1 m))) in
        let '(mapped, othersFromParts) := mapTokens parts [] in
        (mapped,
         if nonempty othersFromParts then Some othersFromParts
         else match exec true re_others_tail (group 1 m) with
              | Some em => if nonempty (group 1 em)
                           then Some (trim (group 1 em)) else None
              | None => None
              end)
      else ([], None)
  | None => ([], None)
  end.

(** Lines 271-274. *)
Definition withOthersSentinel (equipmentList : list jsstr) (othersText : option jsstr)
  : list jsstr :=
  match othersText with
  | Some o =>
      if nonempty o && negb (existsb (str_eqb (U "and others")) equipmentList)
      then equipmentList ++ [U "and others"]
      else equipmentList
  | None => equipmentList
  end.

Definition parseEquipmentAlert (alert : Alert) : exc ParsedAlert :=
  let raw := unescape (or_str (message alert) (details alert)) in
  let combinedMessage := message alert ++ U " " ++ details alert in
  let titleRequesterEmail :=
      match exec false re_title_email (title alert) with
      | Some m => if nonempty (group 1 m) then Some (group 1 m) else None
      | None => None
      end in
  let '(needs, raw) := findNeeds (structuredNote alert) raw in
  let eqMatch := exec true re_requested raw in
  match needs with
  | Some v =>
      if truthy v then
        let needs := normalizeNeeds v in
        eo <- listOfArray needs ;;
        Ok (mkParsed titleRequesterEmail
                     (withOthersSentinel (fst eo) (snd eo)) (snd eo)
                     (Some needs) (statusItems needs combinedMessage raw))
      else
        let eo := listOfLegacy eqMatch in
        Ok (mkParsed titleRequesterEmail
                     (withOthersSentinel (fst eo) (snd eo)) (snd eo) (Some v) None)
  | None =>
      let eo := listOfLegacy eqMatch in
      Ok (mkParsed titleRequesterEmail
                   (withOthersSentinel (fst eo) (snd eo)) (snd eo) None None)
  end.

(** ** The display sanitizer (lines 380-421) *)

Definition truncate300 (s : jsstr) : jsstr :=
  if Nat.ltb 300 (length s) then slice s 0 300 ++ U "..." else s.

Definition sanitizeDisplayText (input : jsstr) : jsstr :=
  let s := unescape input in
  let s := fold_left (fun s b => removeFirst b s)
                     (map m_text (matchAll false re_block s)) s in
  let s := trim (replaceAll false re_email (const_repl []) s) in
  let s := replaceAll true re_items4 (const_repl [])
             (replaceAll true re_items3 (const_repl [])
                (replaceAll true re_items2 (const_repl [])
                   (replaceAll true re_items1 (const_repl []) s))) in
  let s := replaceAll false re_dash_list
             (fun m =>
                let parts := filter nonempty
                               (map trim (splitRe false re_dash_sep (m_text m))) in
                U " " ++ join (U ", ") parts) s in
  let s := replaceAll false re_dup (group 1) s in
  let s := replaceAll false re_brackets (const_repl []) s in
  let s := trim (replaceAll false re_spaces (const_repl (U " ")) s) in
  let s := trim (replaceAll false re_trailing_sep (const_repl []) s) in
  truncate300 s.

(** ** The alert reconciler (lines 625-687) *)

Record User : Type := mkUser { u_id : jsstr; u_email : jsstr; u_role : jsstr }.


(** Lines 636-644, with the ASCII lower-casing above: exact when the
    viewer's address and the alert text are ASCII.  [relevantToOwnerBy]
    below leaves the lower-casing function open. *)
Definition relevantToOwner (ownerEmail : jsstr) (a : Alert) : bool :=
  let hay := toLowerCase (or_str (message a) (or_str (details a) (title a))) in
  if nonempty ownerEmail && includes ownerEmail hay then true
  else match parseEquipmentAlert a with
       | Ok parsed =>
           match titleRequesterEmail parsed with
           | Some e => nonempty e && str_eqb (toLowerCase e) ownerEmail
           | None => false
           end
       | Throw => false
       end.

(** [s.split('\n')[0]] *)
Fixpoint firstLineOf (s : jsstr) : jsstr :=
  match s with
  | [] => []
  | c :: s' => if N.eqb c 10 then [] else c :: firstLineOf s'
  end.

(** Lines 656-657. *)
Definition dedupKey (a : Alert) : jsstr :=
  title a ++ U "||" ++ trim (firstLineOf (or_str (message a) (details a))).

(** [thisTime > existingTime]; a comparison with NaN is false. *)
Definition laterThan (this existing : option Z) : bool :=
  match this, existing with
  | Some t, Some e => Z.ltb e t
  | _, _ => false
  end.

(** Lines 653-669.  Every key holds [||], so none is an array index or a
    name that [Object.prototype] defines. *)
Definition groupStep (groups : list (jsstr * Alert)) (a : Alert)
  : list (jsstr * Alert) :=
  let key := dedupKey a in
  match assoc key groups with
  | None => obj_set key a groups
  | Some existing =>
      if laterThan (createdAt a) (createdAt existing) then obj_set key a groups
      else groups
  end.

Definition groupAlerts (base : list Alert) : list (jsstr * Alert) :=
  fold_left groupStep base [].

(** Line 670: [sort((x, y) => time(y) - time(x))].  When every creation
    time is valid the comparator is consistent and the result is the stable
    sort computed here.  When a time is invalid the comparator returns NaN
    on some pairs and is not consistent: the result is then some order of
    the same alerts that the engine chooses, of which the definition fixes
    one.  Statements about the order are therefore made under [validTimes];
    statements about which alerts are in the result hold in either case. *)
Fixpoint insertDesc (a : Alert) (l : list Alert) : list Alert :=
  match l with
  | [] => [a]
  | b :: l' =>
      if laterThan (createdAt b) (createdAt a) then b :: insertDesc a l'
      else a :: b :: l'
  end.

Definition sortDesc (l : list Alert) : list Alert := fold_right insertDesc [] l.

Definition dedupe (base : list Alert) : list Alert :=
  sortDesc (map snd (groupAlerts base)).

(** Lines 632-650: the viewer's own alerts, then the admin alerts that
    mention the viewer and whose id is not among the viewer's own. *)
Definition ownerBase (userFiltered ownerAdminAlerts : list Alert) (user : User)
  : list Alert :=
  let base := userFiltered in
  let ownerEmail := toLowerCase (u_email user) in
  if negb (Nat.eqb (length ownerAdminAlerts) 0) && nonempty ownerEmail then
    let relevant := filter (relevantToOwner ownerEmail) ownerAdminAlerts in
    let existingIds := map id base in
    base ++ filter (fun r => negb (existsb (str_eqb (id r)) existingIds)) relevant
  else base.

(** Lines 627-674. *)
Definition alertsData (isAdmin : bool) (adminAlerts userFiltered ownerAdminAlerts : list Alert)
           (user : User) : list Alert :=
  if isAdmin then adminAlerts
  else dedupe (ownerBase userFiltered ownerAdminAlerts user).

(** Line 687. *)
Definition unreadCount (alerts : list Alert) (hiddenAlertIds : list jsstr) : nat :=
  length (filter (fun a => negb (isRead a)
                           && negb (existsb (str_eqb (id a)) hiddenAlertIds)) alerts).

(** ** Reference definitions following the specification's wording *)

(** The tri-state classifier as the specification words it: the table
    applied to the string form of the value, compared without case. *)
Definition specStatusOfString (v : JValue) : exc Status :=
  s <- js_String v ;; Ok (statusOf (toLowerCase s)).

(** All balanced blocks of a text, found with the brace-depth scan applied
    repeatedly, left to right, without overlap: from each opening brace not
    inside an earlier block, the block up to its matching brace. *)
Fixpoint balancedBlocks_from (s : jsstr) (skip : nat) {struct s} : list jsstr :=
  match s with
  | [] => []
  | c :: s' =>
      match skip with
      | S k => balancedBlocks_from s' k
      | 0 =>
          if N.eqb c LBRACE then
            match scanClose s 0 0 with
            | Some i => firstn (S i) s :: balancedBlocks_from s' i
            | None => balancedBlocks_from s' 0
            end
          else balancedBlocks_from s' 0
      end
  end.

Definition balancedBlocks (text : jsstr) : list jsstr := balancedBlocks_from text 0.

(** What the pattern of line 96 finds: from each opening brace not inside
    an earlier match, the text up to the first closing brace. *)
Fixpoint firstClose (s : jsstr) : option nat :=
  match s with
  | [] => None
  | c :: s' => if N.eqb c RBRACE then Some 0
               else match firstClose s' with Some i => Some (S i) | None => None end
  end.

Fixpoint shortestBlocks_from (s : jsstr) (skip : nat) {struct s} : list jsstr :=
  match s with
  | [] => []
  | c :: s' =>
      match skip with
      | S k => shortestBlocks_from s' k
      | 0 =>
          if N.eqb c LBRACE then
            match firstClose s' with
            | Some i => firstn (S (S i)) s :: shortestBlocks_from s' (S i)
            | None => shortestBlocks_from s' 0
            end
          else shortestBlocks_from s' 0
      end
  end.

Definition shortestBlocks (text : jsstr) : list jsstr := shortestBlocks_from text 0.

(** A text contains an e-mail address: the pattern of line 394 matches
    somewhere in it. *)
Definition containsEmail (s : jsstr) : bool := test false re_email s.

(** Exactly one of the two item sources of a parsed alert is populated:
    [itemsWithStatus] non-null and non-empty, or [equipmentList] non-empty. *)
Definition exactlyOnePopulated (r : ParsedAlert) : bool :=
  xorb (has_items (itemsWithStatus r)) (negb (Nat.eqb (length (equipmentList r)) 0)).

(** ** Texts on which the sanitizer's patterns cannot fire *)

(** The units the cleanup steps of the sanitizer look for: white space and
    the characters backslash, braces, brackets, double quote, at sign, dash,
    comma, colon and semicolon. *)
Definition special (c : N) : bool :=
  is_ws c || existsb (N.eqb c) [92; 123; 125; 91; 93; 34; 64; 45; 44; 58; 59]%N.

Definition plain (s : jsstr) : Prop := forall c, In c s -> special c = false.

Fixpoint range_forall (p : N -> bool) (lo : N) (n : nat) : bool :=
  match n with
  | 0 => true
  | S n' => p lo && range_forall p (lo + 1)%N n'
  end.

(** Every unit of the class, and its case variant, satisfies [p]. *)
Definition class_within (p : N -> bool) (cs : charset) : bool :=
  negb (cs_neg cs)
  && forallb (fun r => range_forall (fun c => p c && p (swap_case c)) (fst r)
                                    (N.to_nat (snd r + 1 - fst r)))
             (cs_ranges cs).

(** Every match of the pattern reads at least one unit satisfying [p]. *)
Fixpoint needs (p : N -> bool) (r : regex) : bool :=
  match r with
  | RChar cs => class_within p cs
  | RSeq r1 r2 => needs p r1 || needs p r2
  | RAlt r1 r2 => needs p r1 && needs p r2
  | RRep _ min max r1 =>
      negb (Nat.eqb min 0)
      && negb (match max with Some 0 => true | _ => false end)
      && needs p r1
  | RGroup _ r1 => needs p r1
  | _ => false
  end.

(** ** Predicates used in the statements *)

(** A value that is not an array or an object. *)
Definition primitive (v : JValue) : Prop :=
  match v with JArr _ | JObj _ => False | _ => True end.

(** The state of [groups] after the alerts [P] have been visited. *)
Definition groupsInv (P : list Alert) (G : list (jsstr * Alert)) : Prop :=
  NoDup (map fst G)
  /\ (forall k v, In (k, v) G -> dedupKey v = k /\ In v P)
  /\ (forall x, In x P ->
        exists v, In (dedupKey x, v) G
                  /\ laterThan (createdAt x) (createdAt v) = false).

(** The rest of the input of a matcher state holds no unit satisfying [p]. *)
Definition free (p : N -> bool) (st : mstate) : Prop :=
  forall c, In c (st_rest st) -> p c = false.

(** ** The bell: marks, hidden alerts and the visible list *)

(** Lines 580-583: the optimistic update of a cached feed. *)
Definition markReadIn (alertId : jsstr) (data : list Alert) : list Alert :=
  map (fun a => if str_eqb (id a) alertId
                then mkAlert (id a) (title a) (message a) (details a)
                             (structuredNote a) (userId a) true (createdAt a)
                else a) data.

(** [SameValueZero] on parsed values: two primitives are the same when
    they are equal (numbers as doubles, the two zeros being the same); an
    object or an array is the same as nothing but itself, and every parsed
    one is a fresh object. *)
Definition sameValueZero (a b : JValue) : bool :=
  match a, b with
  | JNull, JNull => true
  | JBool x, JBool y => Bool.eqb x y
  | JNum m e, JNum m' e' => double_eqb (to_double m e) (to_double m' e')
  | JStr s, JStr t => str_eqb s t
  | _, _ => false
  end.

(** A [Set]: its elements in insertion order. *)
Definition set_has (x : JValue) (s : list JValue) : bool :=
  existsb (sameValueZero x) s.

Definition set_add (x : JValue) (s : list JValue) : list JValue :=
  if set_has x s then s else s ++ [x].

(** [new Set(arr)] *)
Definition set_of_array (arr : list JValue) : list JValue :=
  fold_left (fun s x => set_add x s) arr [].

(** The strings of a set: [hiddenAlertIds.has(a.id)] looks a string up, so
    only they matter to lines 687, 941 and 946. *)
Fixpoint stringIds (s : list JValue) : list jsstr :=
  match s with
  | [] => []
  | JStr x :: s' => x :: stringIds s'
  | _ :: s' => stringIds s'
  end.

(** Lines 941-947: the alerts shown in the bell. *)
Definition bellAlerts (alertsData : list Alert) (hiddenAlertIds : list jsstr)
  : list Alert :=
  firstn 5
         (filter (fun a => negb (existsb (str_eqb (id a)) hiddenAlertIds))
                 (sortDesc alertsData)).

(** ** [JSON.stringify] *)

Definition hex_digit (n : N) : N :=
  if N.ltb n 10 then (48 + n)%N else (87 + n)%N.

(** [\uXXXX] with lower-case digits. *)
Definition unicode_escape (c : N) : jsstr :=
  [92; 117; hex_digit (c / 4096); hex_digit ((c / 256) mod 16);
   hex_digit ((c / 16) mod 16); hex_digit (c mod 16)]%N.

Definition is_high_surrogate (c : N) : bool := N.leb 55296 c && N.leb c 56319.
Definition is_low_surrogate (c : N) : bool := N.leb 56320 c && N.leb c 57343.

Definition quote_unit (c : N) : jsstr :=
  if N.eqb c 8 then [92; 98]%N
  else if N.eqb c 9 then [92; 116]%N
  else if N.eqb c 10 then [92; 110]%N
  else if N.eqb c 12 then [92; 102]%N
  else if N.eqb c 13 then [92; 114]%N
  else if N.eqb c DQ then [92; DQ]%N
  else if N.eqb c 92 then [92; 92]%N
  else if N.ltb c 32 then unicode_escape c
  else [c].

(** QuoteJSONString, without the enclosing quotes: the text is read by code
    points, a surrogate pair is kept and a lone surrogate is escaped. *)
Fixpoint quote_units (s : jsstr) : jsstr :=
  match s with
  | [] => []
  | c :: s' =>
      if is_high_surrogate c then
        match s' with
        | d :: s'' =>
            if is_low_surrogate d then c :: d :: quote_units s''
            else unicode_escape c ++ quote_units s'
        | [] => unicode_escape c
        end
      else if is_low_surrogate c then unicode_escape c ++ quote_units s'
      else quote_unit c ++ quote_units s'
  end.

Definition quoteJSONString (s : jsstr) : jsstr := DQ :: quote_units s ++ [DQ].

(** [JSON.stringify(v)] for a parsed value, without indentation; an
    infinite number is written [null]. *)
Fixpoint JSON_stringify (v : JValue) : jsstr :=
  match v with
  | JNull => U "null"
  | JBool true => U "true"
  | JBool false => U "false"
  | JNum m e => match to_double m e with
                | DInf _ => U "null"
                | x => double_to_str x
                end
  | JStr s => quoteJSONString s
  | JArr l =>
      U "[" ++ join (U ",") (map JSON_stringify l) ++ U "]"
  | JObj props =>
      U "{"
        ++ join (U ",")
                (map (fun kv => quoteJSONString (fst kv) ++ U ":"
                                                ++ JSON_stringify (snd kv)) props)
        ++ U "}"
  end.

(** ** The hidden alerts and their storage (lines 689-718) *)

(** [localStorage]: the latest value written under a key is the one read. *)
Definition Storage := list (jsstr * jsstr).
Definition getItem (k : jsstr) (store : Storage) : option jsstr := assoc k store.
Definition setItem (k v : jsstr) (store : Storage) : Storage := (k, v) :: store.

(** Line 690; [None] when nobody is signed in. *)
Definition hiddenStorageKey (user : option User) : option jsstr :=
  match user with
  | Some u => Some (U "orbit:hiddenAlerts:" ++ u_id u)
  | None => None
  end.

(** Lines 692-702: the set read at start-up; [None] leaves the state as it
    is. *)
Definition loadHiddenIds (key : option jsstr) (store : Storage)
  : option (list JValue) :=
  match key with
  | None => None
  | Some k =>
      match getItem k store with
      | None => None
      | Some raw =>
          if nonempty raw then
            match JSON_parse raw with
            | Some (JArr arr) => Some (set_of_array arr)
            | _ => None
            end
          else None
      end
  end.

(** Lines 704-709.  A write that the browser refuses is ignored by the
    source; the store of the model takes every write. *)
Definition persistHiddenIds (key : option jsstr) (nextSet : list JValue)
           (store : Storage) : Storage :=
  match key with
  | None => store
  | Some k => setItem k (JSON_stringify (JArr nextSet)) store
  end.

(** Lines 711-718: the new set and the store after the write. *)
Definition hideAlertInBell (key : option jsstr) (id : jsstr)
           (prev : list JValue) (store : Storage) : list JValue * Storage :=
  let next := set_add (JStr id) prev in
  (next, persistHiddenIds key next store).

(** [x] is not created later than [y]. *)
Definition notLaterThan (x y : Alert) : Prop :=
  laterThan (createdAt x) (createdAt y) = false.

(** Every alert of the list has a valid creation time. *)
Definition validTimes (l : list Alert) : Prop :=
  forall a, In a l -> createdAt a <> None.

(** [x] stands before [y] in a feed sorted newest first. *)
Definition newestFirst (x y : Alert) : Prop := notLaterThan y x.

(** ** Shapes of a sanitized text *)

(** [s] without its longest ending made of units that satisfy [f]. *)
Fixpoint dropTrailing (f : N -> bool) (s : jsstr) : jsstr :=
  match s with
  | [] => []
  | c :: s' => if forallb f s then [] else c :: dropTrailing f s'
  end.

(** The length of the longest beginning of [s] made of units that satisfy
    [f]. *)
Fixpoint runLength (f : N -> bool) (s : jsstr) : nat :=
  match s with
  | c :: s' => if f c then S (runLength f s') else 0
  | [] => 0
  end.

(** The classes of lines 410 and 414. *)
Definition is_bracket (c : N) : bool :=
  cs_match false (cls ([(LBRACE, LBRACE); (RBRACE, RBRACE); (DQ, DQ)] ++ chars "[]")) c.
Definition is_separator (c : N) : bool :=
  cs_match false (cls (chars "-,:;" ++ ws_ranges)) c.

Definition startsClean (f : N -> bool) (s : jsstr) : Prop :=
  forall c t, s = c :: t -> f c = false.
Definition endsClean (f : N -> bool) (s : jsstr) : Prop :=
  forall pre c, s = pre ++ [c] -> f c = false.

(** No two white-space units side by side. *)
Fixpoint no_ws_pair (s : jsstr) : bool :=
  match s with
  | a :: t => match t with
              | b :: _ => negb (is_ws a && is_ws b) && no_ws_pair t
              | [] => true
              end
  | [] => true
  end.
Definition singleSpaced (s : jsstr) : Prop :=
  forall pre a b post, s = pre ++ a :: b :: post -> is_ws a && is_ws b = false.

(** ** The inline search (lines 465-507) *)


Record Booking : Type := mkBooking {
  b_id : jsstr;
  b_userEmail : jsstr;
  b_userEmailAddress : jsstr;
  b_user_email : jsstr;
  b_purpose : jsstr;
  b_userId : jsstr
}.

Section Search.

(** [String.prototype.toLowerCase], on facility names, purposes, e-mail
    addresses and the search term: any text may stand there, so the
    function is left open. *)
Variable lower : jsstr -> jsstr.

(** Lines 466 and 472. *)
Definition termOf (searchTerm : jsstr) : jsstr := lower (trim searchTerm).


(** Line 483, and line 492 with the e-mail address read at line 491. *)
Definition isOwner (user : User) (email : jsstr) (b : Booking) : bool :=
  str_eqb email (lower (u_email user))
  || str_eqb (lower (b_userId b)) (lower (u_id user)).

(** Lines 477-486. *)
Definition bookingFilter (user : option User) (term : jsstr) (b : Booking) : bool :=
  let email := lower (or_str (b_userEmail b)
                             (or_str (b_userEmailAddress b) (b_user_email b))) in
  let matches := includes term email || includes term (lower (b_purpose b)) in
  if negb matches then false
  else match user with
       | Some u => str_eqb (u_role u) (U "admin") || isOwner u email b
       | None => false
       end.

(** Lines 489-494. *)
Definition ownerBookings (user : option User) (userBookings : list Booking)
  : list Booking :=
  match user with
  | Some u =>
      filter (fun b => isOwner u (lower (or_str (b_userEmail b) (b_user_email b))) b)
             userBookings
  | None => []
  end.

(** The body of the loops of lines 499-504 on [combined] and [seen]. *)
Definition pushUnseen (st : list Booking * list jsstr) (b : Booking)
  : list Booking * list jsstr :=
  if existsb (str_eqb (b_id b)) (snd st) then st
  else (fst st ++ [b], snd st ++ [b_id b]).

(** Lines 471-507. *)
Definition bookingResults (user : option User) (userBookings allBookings : list Booking)
           (searchTerm : jsstr) : list Booking :=
  let term := termOf searchTerm in
  if negb (nonempty term) then []
  else
    let merged := userBookings ++ allBookings in
    let filtered := filter (bookingFilter user term) merged in
    let owner := ownerBookings user userBookings in
    firstn 10 (fst (fold_left pushUnseen filtered
                              (fold_left pushUnseen owner ([], [])))).

End Search.

(** ** Marking an alert read (lines 568-621) *)

(** The two cached feeds ([None]: nothing cached yet) and the ids whose
    mark is under way. *)
Record Caches : Type := mkCaches {
  adminCache : option (list Alert);
  userCache : option (list Alert);
  pendingMarkIds : list jsstr
}.

(** What [onMutate] hands to [onError]. *)
Record MarkContext : Type := mkContext {
  prevAdmin : option (list Alert);
  prevUser : option (list Alert);
  ctxAlertId : jsstr
}.

(** [new Set(prev).add(x)] and [next.delete(x)] on a set of strings. *)
Definition ids_add (x : jsstr) (s : list jsstr) : list jsstr :=
  if existsb (str_eqb x) s then s else s ++ [x].
Definition ids_delete (x : jsstr) (s : list jsstr) : list jsstr :=
  filter (fun y => negb (str_eqb y x)) s.

(** Lines 571-593.  [setQueryData] with an updater leaves a feed that is
    not cached as it is. *)
Definition onMutate (isAdmin : bool) (alertId : jsstr) (st : Caches)
  : Caches * MarkContext :=
  let pending := ids_add alertId (pendingMarkIds st) in
  let ctx := mkContext (if isAdmin then adminCache st else None)
                       (if isAdmin then None else userCache st)
                       alertId in
  (if isAdmin
   then mkCaches (option_map (markReadIn alertId) (adminCache st)) (userCache st) pending
   else mkCaches (adminCache st) (option_map (markReadIn alertId) (userCache st)) pending,
   ctx).

(** Lines 594-604. *)
Definition onError (isAdmin : bool) (context : MarkContext) (st : Caches) : Caches :=
  let admin := match prevAdmin context with
               | Some p => if isAdmin then Some p else adminCache st
               | None => adminCache st
               end in
  let user := match prevUser context with
              | Some p => if isAdmin then userCache st else Some p
              | None => userCache st
              end in
  mkCaches admin user
           (if nonempty (ctxAlertId context)
            then ids_delete (ctxAlertId context) (pendingMarkIds st)
            else pendingMarkIds st).

(** Lines 605-620; the invalidated feeds are fetched again later and are
    cached as they are until then. *)
Definition onSettled (alertId : jsstr) (st : Caches) : Caches :=
  mkCaches (adminCache st) (userCache st)
           (if nonempty alertId then ids_delete alertId (pendingMarkIds st)
            else pendingMarkIds st).

(** ** The lead-in of an alert in the bell (lines 974-991) *)

(** [it.status === 'prepared'] and [it.status === 'not_available']. *)
Definition is_prepared (it : Item) : bool :=
  match status it with prepared => true | _ => false end.
Definition is_not_available (it : Item) : bool :=
  match status it with not_available => true | _ => false end.

(** The lead-in built from the parsed alert; [None] when neither items
    nor equipment were found, where the bell falls back to the cleaned
    message (lines 994-996). *)
Definition structuredLeadIn (isOwnerAlert : bool) (parsed : ParsedAlert)
  : option jsstr :=
  let actorLabel := if isOwnerAlert then U "You" else U "An admin" in
  match itemsWithStatus parsed with
  | Some ((_ :: _) as items) =>
      if forallb is_prepared items
      then Some (actorLabel ++ U " marked requested equipment as prepared")
      else if forallb is_not_available items
           then Some (actorLabel ++ U " marked requested equipment as not available")
           else Some (actorLabel ++ U " updated the equipment request")
  | _ =>
      match equipmentList parsed with
      | _ :: _ =>
          if isOwnerAlert
          then Some (U "Your equipment request: " ++ join (U ", ") (equipmentList parsed))
          else Some (U "Equipment requested: " ++ join (U ", ") (equipmentList parsed))
      | [] => None
      end
  end.

(** ** What a second pass of the sanitizer can still find *)

(** One of the patterns of lines 384 (the escaped line feed), 394, 400 and
    407 matches somewhere in the text. *)
Definition firesAgain (y : jsstr) : bool :=
  test false re_esc_n y || test false re_email y
  || test false re_dash_list y || test false re_dup y.

(** ** The reconciler for any lower-casing function *)

(** The first alert of a feed that has the key [k]. *)
Definition firstWithKey (k : jsstr) (l : list Alert) : option Alert :=
  find (fun x => str_eqb (dedupKey x) k) l.

Section ReconcilerBy.

(** [String.prototype.toLowerCase] on e-mail addresses and alert texts,
    where any text may stand: the function is left open, [toLowerCase]
    above being one instance. *)
Variable lower : jsstr -> jsstr.

(** Lines 636-644. *)
Definition relevantToOwnerBy (ownerEmail : jsstr) (a : Alert) : bool :=
  let hay := lower (or_str (message a) (or_str (details a) (title a))) in
  if nonempty ownerEmail && includes ownerEmail hay then true
  else match parseEquipmentAlert a with
       | Ok parsed =>
           match titleRequesterEmail parsed with
           | Some e => nonempty e && str_eqb (lower e) ownerEmail
           | None => false
           end
       | Throw => false
       end.

(** Lines 632-650. *)
Definition ownerBaseBy (userFiltered ownerAdminAlerts : list Alert) (user : User)
  : list Alert :=
  let base := userFiltered in
  let ownerEmail := lower (u_email user) in
  if negb (Nat.eqb (length ownerAdminAlerts) 0) && nonempty ownerEmail then
    let relevant := filter (relevantToOwnerBy ownerEmail) ownerAdminAlerts in
    let existingIds := map id base in
    base ++ filter (fun r => negb (existsb (str_eqb (id r)) existingIds)) relevant
  else base.

(** Lines 627-674. *)
Definition alertsDataBy (isAdmin : bool)
           (adminAlerts userFiltered ownerAdminAlerts : list Alert) (user : User)
  : list Alert :=
  if isAdmin then adminAlerts
  else dedupe (ownerBaseBy userFiltered ownerAdminAlerts user).

End ReconcilerBy.

(* ================================================================= *)
(** * Part II: properties                                              *)
(* ================================================================= *)

(** ** Strings *)

Lemma startsWith_firstn p s :
  startsWith p s = true <-> firstn (length p) s = p.
Proof.
  revert s; induction p as [|x p IH]; intros [|y s]; simpl; try easy.
  rewrite andb_true_iff, N.eqb_eq, IH. split.
  - intros [-> ->]; reflexivity.
  - intros H; injection H as Hx Hp. split; [symmetry|]; assumption.
Qed.

Lemma indexOf_aux_some key s pos i :
  indexOf_aux key s pos = Some i ->
  pos <= i <= pos + length s /\
  startsWith key (skipn (i - pos) s) = true /\
  forall j, j < i - pos -> startsWith key (skipn j s) = false.
Proof.
  revert pos; induction s as [|c s IH]; intros pos; simpl.
  - destruct (startsWith key []) eqn:E; [|discriminate].
    intros [= <-]. rewrite Nat.sub_diag. simpl. repeat split; try lia; auto.
  - destruct (startsWith key (c :: s)) eqn:E.
    + intros [= <-]. rewrite Nat.sub_diag. simpl. repeat split; try lia; auto.
    + intros H. apply IH in H. destruct H as (Hr & Hs & Hn).
      replace (i - pos) with (S (i - S pos)) by lia. simpl.
      repeat split; try lia; auto.
      intros [|j] Hj; simpl; auto. apply Hn. lia.
Qed.

Lemma indexOf_aux_none key s pos :
  indexOf_aux key s pos = None ->
  forall j, j <= length s -> startsWith key (skipn j s) = false.
Proof.
  revert pos; induction s as [|c s IH]; intros pos; simpl.
  - destruct (startsWith key []) eqn:E; [discriminate|].
    intros _ [|j] Hj; simpl; auto.
  - destruct (startsWith key (c :: s)) eqn:E; [discriminate|].
    intros H [|j] Hj; simpl; auto. apply (IH _ H). lia.
Qed.

Lemma occursAt_startsWith key text i :
  occursAt key text i <->
  i <= length text /\ startsWith key (skipn i text) = true.
Proof. unfold occursAt. rewrite startsWith_firstn. tauto. Qed.

Lemma indexOf_some key text from i :
  from <= length text ->
  indexOf key text from = Some i ->
  from <= i /\ occursAt key text i /\
  forall j, from <= j < i -> ~ occursAt key text j.
Proof.
  unfold indexOf. intros Hf. rewrite (Nat.min_l _ _ Hf). intros H.
  apply indexOf_aux_some in H. destruct H as (Hr & Hs & Hn).
  rewrite length_skipn in Hr. rewrite skipn_skipn in Hs.
  replace (i - from + from) with i in Hs by lia.
  split; [lia|]. split.
  - apply occursAt_startsWith. split; [lia|assumption].
  - intros j Hj Ho. apply occursAt_startsWith in Ho. destruct Ho as [_ Ho].
    specialize (Hn (j - from)). rewrite skipn_skipn in Hn.
    replace (j - from + from) with j in Hn by lia.
    rewrite Hn in Ho by lia. discriminate.
Qed.

Lemma indexOf_none key text from :
  from <= length text ->
  indexOf key text from = None ->
  forall j, from <= j -> ~ occursAt key text j.
Proof.
  unfold indexOf. intros Hf. rewrite (Nat.min_l _ _ Hf). intros H j Hj Ho.
  apply occursAt_startsWith in Ho. destruct Ho as [Hl Ho].
  pose proof (indexOf_aux_none _ _ _ H (j - from)) as Hn.
  rewrite length_skipn, skipn_skipn in Hn.
  replace (j - from + from) with j in Hn by lia.
  rewrite Hn in Ho by lia. discriminate.
Qed.

Lemma occursAt_brace text i : occursAt [LBRACE] text i <-> braceAt text i.
Proof.
  unfold occursAt, braceAt. simpl. revert i.
  induction text as [|c text IH]; intros [|i]; simpl.
  - split; [intros [_ H]; discriminate | discriminate].
  - split; [intros [H _]; lia | discriminate].
  - split.
    + intros [_ H]. injection H as ->. reflexivity.
    + intros [= ->]. split; [lia | reflexivity].
  - rewrite <- IH. split; intros [H1 H2]; (split; [lia | assumption]).
Qed.

Lemma lastIndexOf_aux_spec ch s pos acc r :
  lastIndexOf_aux ch s pos acc = r ->
  (r = acc /\ forall k, k < length s -> nth_error s k <> Some ch)
  \/ (exists k, r = Some (pos + k) /\ nth_error s k = Some ch /\
        forall j, k < j -> nth_error s j <> Some ch).
Proof.
  revert pos acc; induction s as [|c s IH]; intros pos acc; simpl.
  - intros <-. left. split; [reflexivity|]. intros k Hk; lia.
  - intros H. apply IH in H. destruct H as [[-> Hn] | (k & -> & Hk & Hn)].
    + destruct (N.eqb_spec c ch) as [->|Hc].
      * right. exists 0. split; [f_equal; lia|]. split; [reflexivity|].
        intros [|j] Hj; [lia|]. simpl.
        destruct (Nat.lt_ge_cases j (length s)) as [Hl|Hl]; [apply Hn; lia|].
        apply nth_error_None in Hl. rewrite Hl. discriminate.
      * left. split; [reflexivity|]. intros [|k] Hk; simpl.
        -- congruence.
        -- apply Hn. lia.
    + right. exists (S k). split; [f_equal; lia|]. split; [assumption|].
      intros [|j] Hj; [lia|]. simpl. apply Hn. lia.
Qed.

Lemma chooseOpen_some text idx o :
  idx <= length text ->
  chooseOpen text idx = Some o -> chosenOpen text idx o.
Proof.
  unfold chooseOpen. intros Hl.
  destruct (indexOf [LBRACE] text idx) as [o'|] eqn:E.
  - intros [= ->]. apply indexOf_some in E; [|assumption].
    destruct E as (Hle & Ho & Hn). split; [apply occursAt_brace; assumption|].
    left. split; [assumption|]. intros j Hj Hb. apply (Hn j Hj).
    apply occursAt_brace. assumption.
  - intros H. pose proof (indexOf_none _ _ _ Hl E) as Hno.
    unfold lastIndexOf_ch in H. apply lastIndexOf_aux_spec in H.
    destruct H as [[H _] | (k & H & Hk & Hn)]; [discriminate|].
    injection H as ->. simpl.
    assert (Hkl : k < length (firstn (S idx) text))
      by (apply nth_error_Some; congruence).
    rewrite length_firstn in Hkl.
    rewrite nth_error_firstn in Hk.
    destruct (Nat.ltb_spec k (S idx)) as [Hki|Hki]; [|discriminate].
    assert (Hb : braceAt text k) by exact Hk.
    assert (k < idx).
    { destruct (Nat.eq_dec k idx) as [->|]; [|lia].
      exfalso. apply (Hno idx); [lia|]. apply occursAt_brace. assumption. }
    split; [assumption|]. right. split; [assumption|].
    intros j Hj Hbj.
    destruct (Nat.le_gt_cases idx j) as [Hij|Hij].
    + apply (Hno j Hij). apply occursAt_brace. assumption.
    + apply (Hn j Hj). rewrite nth_error_firstn.
      destruct (Nat.ltb_spec j (S idx)); [exact Hbj | lia].
Qed.

Lemma chooseOpen_none text idx :
  idx <= length text ->
  chooseOpen text idx = None -> forall j, ~ braceAt text j.
Proof.
  unfold chooseOpen. intros Hl.
  destruct (indexOf [LBRACE] text idx) as [o'|] eqn:E; [discriminate|].
  intros H j Hb. pose proof (indexOf_none _ _ _ Hl E) as Hno.
  destruct (Nat.le_gt_cases idx j) as [Hij|Hij].
  - apply (Hno j Hij). apply occursAt_brace. assumption.
  - unfold lastIndexOf_ch in H. apply lastIndexOf_aux_spec in H.
    destruct H as [[_ Hn] | (k & H & _)]; [|discriminate].
    apply (Hn j).
    + rewrite length_firstn. apply Nat.min_glb_lt; [lia|].
      apply nth_error_Some. unfold braceAt in Hb. congruence.
    + rewrite nth_error_firstn.
      destruct (Nat.ltb_spec j (S idx)); [exact Hb | lia].
Qed.

(** ** The JSON-block extractor *)

Lemma depthOf_firstn_S c s k :
  depthOf (firstn (S k) (c :: s)) =
  ((if N.eqb c LBRACE then 1 else if N.eqb c RBRACE then -1 else 0)
   + depthOf (firstn k s))%Z.
Proof. reflexivity. Qed.

Lemma depthOf_open s : depthOf (LBRACE :: s) = (1 + depthOf s)%Z.
Proof. reflexivity. Qed.

Lemma scanClose_some s : forall i d j,
  (0 < d)%Z ->
  scanClose s i d = Some j ->
  i <= j < i + length s /\
  (d + depthOf (firstn (S (j - i)) s) = 0)%Z /\
  forall k, k <= j - i -> (0 < d + depthOf (firstn k s))%Z.
Proof.
  induction s as [|c s IH]; intros i d j Hd; simpl scanClose; [discriminate|].
  assert (Hstep : forall d', (0 < d')%Z ->
            (d' = d + (if N.eqb c LBRACE then 1
                       else if N.eqb c RBRACE then -1 else 0))%Z ->
            scanClose s (S i) d' = Some j ->
            i <= j < i + length (c :: s) /\
            (d + depthOf (firstn (S (j - i)) (c :: s)) = 0)%Z /\
            forall k, k <= j - i -> (0 < d + depthOf (firstn k (c :: s)))%Z).
  { intros d' Hd' Heq H. apply IH in H; [|assumption].
    destruct H as (Hr & Hz & Hp). simpl length.
    replace (j - i) with (S (j - S i)) by lia.
    split; [lia|]. split.
    - rewrite depthOf_firstn_S. lia.
    - intros [|k] Hk; [simpl; lia|]. rewrite depthOf_firstn_S.
      specialize (Hp k). lia. }
  destruct (N.eqb c LBRACE) eqn:EL.
  - apply Hstep; lia.
  - destruct (N.eqb c RBRACE) eqn:ER.
    + cbv zeta. destruct (Z.eqb_spec (d - 1) 0) as [Hz|Hz].
      * intros [= <-]. rewrite Nat.sub_diag. simpl length.
        split; [lia|]. split.
        -- rewrite depthOf_firstn_S, EL, ER. simpl. lia.
        -- intros [|k] Hk; [simpl; lia|lia].
      * apply Hstep; lia.
    + apply Hstep; lia.
Qed.

Lemma scanClose_none s : forall i d,
  (0 < d)%Z ->
  scanClose s i d = None ->
  forall k, k <= length s -> (0 < d + depthOf (firstn k s))%Z.
Proof.
  induction s as [|c s IH]; intros i d Hd; simpl scanClose.
  - intros _ [|k] Hk; simpl; lia.
  - assert (Hstep : forall d', (0 < d')%Z ->
            (d' = d + (if N.eqb c LBRACE then 1
                       else if N.eqb c RBRACE then -1 else 0))%Z ->
            scanClose s (S i) d' = None ->
            forall k, k <= length (c :: s) ->
                      (0 < d + depthOf (firstn k (c :: s)))%Z).
    { intros d' Hd' Heq H [|k] Hk; [simpl; lia|].
      rewrite depthOf_firstn_S. simpl in Hk.
      pose proof (IH _ _ Hd' H k). lia. }
    destruct (N.eqb c LBRACE) eqn:EL.
    + apply Hstep; lia.
    + destruct (N.eqb c RBRACE) eqn:ER.
      * cbv zeta. destruct (Z.eqb_spec (d - 1) 0) as [Hz|Hz]; [discriminate|].
        apply Hstep; lia.
      * apply Hstep; lia.
Qed.

Lemma braceAt_skipn text o :
  braceAt text o -> exists s, skipn o text = LBRACE :: s /\ o < length text.
Proof.
  unfold braceAt. intros H.
  assert (Hl : o < length text) by (apply nth_error_Some; congruence).
  rewrite <- (firstn_skipn o text) in H at 1.
  rewrite nth_error_app2 in H by (rewrite length_firstn; lia).
  rewrite length_firstn, Nat.min_l, Nat.sub_diag in H by lia.
  destruct (skipn o text) as [|c s]; [discriminate|].
  injection H as ->. exists s. split; [reflexivity | assumption].
Qed.

Lemma slice_open text o s k :
  skipn o text = LBRACE :: s ->
  slice text o (S (o + k)) = LBRACE :: firstn k s.
Proof.
  unfold slice. intros ->. replace (S (o + k) - o) with (S k) by lia.
  reflexivity.
Qed.

Lemma scanClose_matching text o i :
  braceAt text o ->
  scanClose (skipn o text) o 0 = Some i -> matchingClose text o i.
Proof.
  intros Hb H. destruct (braceAt_skipn _ _ Hb) as (s & Hs & Hl).
  assert (Hlen : length text = o + S (length s)).
  { rewrite <- (firstn_skipn o text), Hs, length_app, length_firstn. simpl. lia. }
  rewrite Hs in H. simpl in H. change (N.eqb LBRACE LBRACE) with true in H.
  apply scanClose_some in H; [|lia]. destruct H as (Hr & Hz & Hp).
  unfold matchingClose. split; [assumption|]. split; [lia|]. split.
  - replace (S i) with (S (o + S (i - S o))) by lia.
    rewrite (slice_open _ _ _ _ Hs). rewrite depthOf_open. lia.
  - intros j Hj. replace (S j) with (S (o + (j - o))) by lia.
    rewrite (slice_open _ _ _ _ Hs). rewrite depthOf_open.
    specialize (Hp (j - o)). lia.
Qed.

Lemma scanClose_unmatched text o :
  braceAt text o ->
  scanClose (skipn o text) o 0 = None -> forall i, ~ matchingClose text o i.
Proof.
  intros Hb H i (_ & Hr & Hz & _).
  destruct (braceAt_skipn _ _ Hb) as (s & Hs & Hl).
  assert (Hlen : length text = o + S (length s)).
  { rewrite <- (firstn_skipn o text), Hs, length_app, length_firstn. simpl. lia. }
  rewrite Hs in H. simpl in H. change (N.eqb LBRACE LBRACE) with true in H.
  assert (Hp : (0 < 1 + depthOf (firstn (i - o) s))%Z).
  { apply (scanClose_none s (S o) 1); [lia | exact H | lia]. }
  replace (S i) with (S (o + (i - o))) in Hz by lia.
  rewrite (slice_open _ _ _ _ Hs) in Hz. rewrite depthOf_open in Hz. lia.
Qed.

Lemma firstOccurrence_unique key text i j :
  firstOccurrence key text i -> firstOccurrence key text j -> i = j.
Proof.
  intros [Hi Hni] [Hj Hnj].
  destruct (Nat.lt_trichotomy i j) as [H|[H|H]]; [|assumption|].
  - exfalso. exact (Hnj _ H Hi).
  - exfalso. exact (Hni _ H Hj).
Qed.

Lemma chosenOpen_unique text idx o o' :
  chosenOpen text idx o -> chosenOpen text idx o' -> o = o'.
Proof.
  intros [Hb [[H1 H2]|[H1 H2]]] [Hb' [[H1' H2']|[H1' H2']]].
  - destruct (Nat.lt_trichotomy o o') as [H|[H|H]]; [|assumption|].
    + exfalso. apply (H2' o); [lia | assumption].
    + exfalso. apply (H2 o'); [lia | assumption].
  - exfalso. apply (H2' o); [lia | assumption].
  - exfalso. apply (H2 o'); [lia | assumption].
  - destruct (Nat.lt_trichotomy o o') as [H|[H|H]]; [|assumption|].
    + exfalso. apply (H2 o'); [lia | assumption].
    + exfalso. apply (H2' o); [lia | assumption].
Qed.

Lemma matchingClose_unique text o i i' :
  matchingClose text o i -> matchingClose text o i' -> i = i'.
Proof.
  intros (_ & Hr & Hz & Hp) (_ & Hr' & Hz' & Hp').
  destruct (Nat.lt_trichotomy i i') as [H|[H|H]]; [|assumption|].
  - specialize (Hp' i). lia.
  - specialize (Hp i'). lia.
Qed.

Lemma extractJsonAroundKey_cases text key :
  match extractJsonAroundKey text key with
  | Some b =>
      exists idx o i,
        firstOccurrence key text idx /\ chosenOpen text idx o /\
        matchingClose text o i /\ b = slice text o (S i)
  | None =>
      (forall i, ~ occursAt key text i) \/
      (forall j, ~ braceAt text j) \/
      (exists idx o,
          firstOccurrence key text idx /\ chosenOpen text idx o /\
          forall i, ~ matchingClose text o i)
  end.
Proof.
  unfold extractJsonAroundKey.
  destruct (indexOf key text 0) as [idx|] eqn:Ei.
  - apply indexOf_some in Ei; [|lia]. destruct Ei as (_ & Ho & Hn).
    assert (Hf : firstOccurrence key text idx).
    { split; [assumption|]. intros j Hj. apply Hn. lia. }
    assert (Hl : idx <= length text) by apply Ho.
    destruct (chooseOpen text idx) as [o|] eqn:Eo.
    + apply chooseOpen_some in Eo; [|assumption].
      destruct (scanClose (skipn o text) o 0) as [i|] eqn:Es.
      * exists idx, o, i. rewrite Nat.add_1_r.
        repeat split; try apply Hf; try apply Eo.
        all: apply (scanClose_matching text o i (proj1 Eo) Es).
      * right; right. exists idx, o. repeat split; try apply Hf; try apply Eo.
        apply (scanClose_unmatched text o (proj1 Eo) Es).
    + right; left. apply (chooseOpen_none text idx Hl Eo).
  - left. intros i. apply (indexOf_none key text 0); [lia | assumption | lia].
Qed.

(** C1.  [extractJsonAroundKey text key] returns [b] exactly when [b] is the
    substring from the chosen opening brace (the nearest one at or after the
    first occurrence of [key], else the nearest one before it) to the brace
    that brings the depth back to 0; it returns null exactly when the key is
    absent, the text has no opening brace, or the chosen brace is never
    closed, so in particular whenever the text holds no balanced block.  On
    [prefix {'items':{'a':{'b':1}}} suffix] with key ['items'] (apostrophes
    standing for double quotes) the first brace
    at or after the key is the one opening the value of [items], so the
    block returned is [{'a':{'b':1}}]. *)
Theorem extractJsonAroundKey_contract :
  (forall text key b,
      extractJsonAroundKey text key = Some b <->
      exists idx o i,
        firstOccurrence key text idx /\ chosenOpen text idx o /\
        matchingClose text o i /\ b = slice text o (S i))
  /\ (forall text key,
      extractJsonAroundKey text key = None <->
      (forall i, ~ occursAt key text i) \/
      (forall j, ~ braceAt text j) \/
      (exists idx o,
          firstOccurrence key text idx /\ chosenOpen text idx o /\
          forall i, ~ matchingClose text o i))
  /\ (forall text key,
      (forall o i, ~ matchingClose text o i) ->
      extractJsonAroundKey text key = None)
  /\ extractJsonAroundKey (J "prefix {'items':{'a':{'b':1}}} suffix")
                          (J "'items'")
     = Some (J "{'a':{'b':1}}").
Proof.
  assert (Hsome : forall text key b,
      extractJsonAroundKey text key = Some b <->
      exists idx o i,
        firstOccurrence key text idx /\ chosenOpen text idx o /\
        matchingClose text o i /\ b = slice text o (S i)).
  { intros text key b. pose proof (extractJsonAroundKey_cases text key) as H.
    split.
    - intros E. rewrite E in H. exact H.
    - intros (idx & o & i & Hf & Ho & Hm & ->).
      destruct (extractJsonAroundKey text key) as [b'|].
      + destruct H as (idx' & o' & i' & Hf' & Ho' & Hm' & ->).
        assert (idx' = idx) as -> by (eapply firstOccurrence_unique; eauto).
        assert (o' = o) as -> by (eapply chosenOpen_unique; eauto).
        assert (i' = i) as -> by (eapply matchingClose_unique; eauto).
        reflexivity.
      + exfalso. destruct H as [H|[H|(idx' & o' & Hf' & Ho' & Hn)]].
        * apply (H idx). apply Hf.
        * apply (H o). apply Ho.
        * assert (idx' = idx) as -> by (eapply firstOccurrence_unique; eauto).
          assert (o' = o) as -> by (eapply chosenOpen_unique; eauto).
          exact (Hn i Hm). }
  assert (Hnone : forall text key,
      extractJsonAroundKey text key = None <->
      (forall i, ~ occursAt key text i) \/
      (forall j, ~ braceAt text j) \/
      (exists idx o,
          firstOccurrence key text idx /\ chosenOpen text idx o /\
          forall i, ~ matchingClose text o i)).
  { intros text key. pose proof (extractJsonAroundKey_cases text key) as H.
    split.
    - intros E. rewrite E in H. exact H.
    - intros Hc. destruct (extractJsonAroundKey text key) as [b|] eqn:E;
        [|reflexivity].
      exfalso. destruct H as (idx & o & i & Hf & Ho & Hm & _).
      destruct Hc as [Hc|[Hc|(idx' & o' & Hf' & Ho' & Hn)]].
      + apply (Hc idx). apply Hf.
      + apply (Hc o). apply Ho.
      + assert (idx' = idx) as -> by (eapply firstOccurrence_unique; eauto).
        assert (o' = o) as -> by (eapply chosenOpen_unique; eauto).
        exact (Hn i Hm). }
  split; [exact Hsome|]. split; [exact Hnone|]. split.
  - intros text key Hn.
    destruct (extractJsonAroundKey text key) as [b|] eqn:E; [|reflexivity].
    apply Hsome in E. destruct E as (idx & o & i & _ & _ & Hm & _).
    exfalso. exact (Hn o i Hm).
  - vm_compute. reflexivity.
Qed.

Lemma extractJsonAroundKey_contract_witness :
  (forall o i, ~ matchingClose (U "no block here") o i)
  /\ extractJsonAroundKey (U "no block here") (U "block") = None.
Proof.
  assert (H : forall o i, ~ matchingClose (U "no block here") o i).
  { intros o i (Hb & _). apply nth_error_In in Hb.
    repeat (destruct Hb as [Hb|Hb]; [discriminate Hb|]). exact Hb. }
  split; [exact H|].
  exact (proj1 (proj2 (proj2 extractJsonAroundKey_contract)) _ _ H).
Defined.

(** C1, the example as the specification states it: the block returned is
    not the object around the key. *)
Lemma extractJsonAroundKey_example_not_surrounding :
  extractJsonAroundKey (J "prefix {'items':{'a':{'b':1}}} suffix")
                       (J "'items'")
  <> Some (J "{'items':{'a':{'b':1}}}").
Proof. vm_compute. discriminate. Qed.

(** ** String equality *)

Lemma str_eqb_eq a b : str_eqb a b = true <-> a = b.
Proof.
  revert b; induction a as [|x a IH]; intros [|y b]; simpl; try easy.
  rewrite andb_true_iff, N.eqb_eq, IH. split.
  - intros [-> ->]; reflexivity.
  - intros [= -> ->]; split; reflexivity.
Qed.

Lemma str_eqb_refl a : str_eqb a a = true.
Proof. apply str_eqb_eq. reflexivity. Qed.

Lemma str_eqb_neq a b : str_eqb a b = false <-> a <> b.
Proof.
  rewrite <- str_eqb_eq. destruct (str_eqb a b); split; congruence.
Qed.

(** ** The token mapper *)

Lemma mapTokens_cons tok toks o :
  mapTokens (tok :: toks) o =
  if includes (U "others") (toLowerCase tok) then
    let trailing := trim (replaceFirst true re_others_prefix (const_repl []) tok) in
    mapTokens toks (if nonempty trailing && negb (nonempty o) then trailing else o)
  else
    let '(ls, o) := mapTokens toks o in
    (match mapToken tok with
     | Some l => if nonempty l then l :: ls else ls
     | None => ls
     end, o).
Proof. reflexivity. Qed.

Lemma mapTokens_labels_indep toks : forall o o',
  fst (mapTokens toks o) = fst (mapTokens toks o').
Proof.
  induction toks as [|tok toks IH]; intros o o'; [reflexivity|].
  rewrite !mapTokens_cons.
  destruct (includes (U "others") (toLowerCase tok)).
  - apply IH.
  - specialize (IH o o').
    destruct (mapTokens toks o) as [ls1 o1], (mapTokens toks o') as [ls2 o2].
    simpl in IH. subst ls2. reflexivity.
Qed.

Lemma mapTokens_app pre : forall post o,
  fst (mapTokens (pre ++ post) o) =
  fst (mapTokens pre o) ++ fst (mapTokens post o).
Proof.
  induction pre as [|tok pre IH]; intros post o; [reflexivity|].
  rewrite <- app_comm_cons, !mapTokens_cons.
  destruct (includes (U "others") (toLowerCase tok)).
  - cbv zeta. rewrite IH. f_equal. apply mapTokens_labels_indep.
  - specialize (IH post o).
    destruct (mapTokens (pre ++ post) o) as [ls1 o1].
    destruct (mapTokens pre o) as [ls2 o2]. simpl in IH. subst ls1.
    destruct (mapToken tok) as [l|]; [destruct (nonempty l)|]; reflexivity.
Qed.

Lemma mapTokens_dropped tok o :
  mapToken tok = None -> forall post, fst (mapTokens (tok :: post) o) = fst (mapTokens post o).
Proof.
  intros H post. rewrite mapTokens_cons.
  destruct (includes (U "others") (toLowerCase tok)).
  - apply mapTokens_labels_indep.
  - rewrite H. destruct (mapTokens post o). reflexivity.
Qed.

(** C10.  [mapToken] returns null exactly for the tokens that hold [others]
    once underscores are spaces, the ends are trimmed and the letters are
    lower-cased, and a string for every other token.  [Brothers chair] is
    such a token; a token mapped to null leaves no label in the equipment
    list, wherever it stands among the tokens, as in
    [Requested equipment: hdmi, Brothers chair]. *)
Theorem mapToken_null_iff_others :
  (forall tok,
      mapToken tok = None <->
      includes (U "others")
               (toLowerCase
                  (trim (replaceAll false re_underscore (const_repl (U " ")) tok)))
      = true)
  /\ (forall tok,
      includes (U "others")
               (toLowerCase
                  (trim (replaceAll false re_underscore (const_repl (U " ")) tok)))
      = false -> exists l, mapToken tok = Some l)
  /\ mapToken (U "Brothers chair") = None
  /\ (forall pre tok post o,
      mapToken tok = None ->
      fst (mapTokens (pre ++ tok :: post) o) = fst (mapTokens (pre ++ post) o))
  /\ (exists r,
      parseEquipmentAlert
        (mkAlert [] [] (U "Requested equipment: hdmi, Brothers chair") [] None None
                 false None) = Ok r
      /\ equipmentList r = [U "HDMI Cable"; U "and others"]).
Proof.
  split; [|split; [|split; [|split]]].
  - intros tok. unfold mapToken.
    destruct (includes _ _); [split; reflexivity|].
    split; [|discriminate].
    repeat match goal with
           | |- context [if ?c then _ else _] => destruct c
           end; discriminate.
  - intros tok H. unfold mapToken. rewrite H.
    repeat match goal with
           | |- context [if ?c then _ else _] => destruct c
           end; eexists; reflexivity.
  - vm_compute. reflexivity.
  - intros pre tok post o H.
    rewrite !mapTokens_app. f_equal. apply mapTokens_dropped. assumption.
  - eexists. split; [vm_compute; reflexivity|]. vm_compute. reflexivity.
Qed.

Lemma mapToken_null_iff_others_witness :
  mapToken (U "Brothers chair") = None
  /\ fst (mapTokens ([U "hdmi"] ++ U "Brothers chair" :: [U "projector"]) [])
     = [U "HDMI Cable"; U "Projector"].
Proof.
  assert (H : mapToken (U "Brothers chair") = None) by (vm_compute; reflexivity).
  split; [exact H|].
  rewrite (proj1 (proj2 (proj2 (proj2 mapToken_null_iff_others)))
             [U "hdmi"] (U "Brothers chair") [U "projector"] [] H).
  vm_compute. reflexivity.
Defined.

(** ** The status classifier *)

Lemma statusOf_prepared val :
  statusOf val = prepared <-> In val [U "prepared"; U "true"; U "yes"].
Proof.
  unfold statusOf. cbn [In].
  destruct (str_eqb val (U "prepared")) eqn:E1;
    [apply str_eqb_eq in E1; split; auto|apply str_eqb_neq in E1].
  destruct (str_eqb val (U "true")) eqn:E2;
    [apply str_eqb_eq in E2; split; auto|apply str_eqb_neq in E2].
  destruct (str_eqb val (U "yes")) eqn:E3;
    [apply str_eqb_eq in E3; split; auto|apply str_eqb_neq in E3].
  cbn [orb]. split.
  - destruct (_ || _); discriminate.
  - intros [H|[H|[H|[]]]]; congruence.
Qed.

Lemma statusOf_not_available val :
  statusOf val = not_available <->
  In val [U "not available"; U "not_available"; U "false"; U "no"].
Proof.
  unfold statusOf. cbn [In].
  destruct (str_eqb val (U "prepared") || str_eqb val (U "true")
            || str_eqb val (U "yes")) eqn:EP.
  - split; [discriminate|].
    rewrite !orb_true_iff, !str_eqb_eq in EP.
    intros [H|[H|[H|[H|[]]]]]; subst val;
      destruct EP as [[EP|EP]|EP]; discriminate EP.
  - destruct (str_eqb val (U "not available")) eqn:E1;
      [apply str_eqb_eq in E1; split; auto|apply str_eqb_neq in E1].
    destruct (str_eqb val (U "not_available")) eqn:E2;
      [apply str_eqb_eq in E2; split; auto|apply str_eqb_neq in E2].
    destruct (str_eqb val (U "false")) eqn:E3;
      [apply str_eqb_eq in E3; split; auto|apply str_eqb_neq in E3].
    destruct (str_eqb val (U "no")) eqn:E4;
      [apply str_eqb_eq in E4; split; auto 6|apply str_eqb_neq in E4].
    cbn [orb]. split; [discriminate|].
    intros [H|[H|[H|[H|[]]]]]; congruence.
Qed.

Lemma statusOf_pending val :
  statusOf val = pending <->
  ~ In val [U "prepared"; U "true"; U "yes";
            U "not available"; U "not_available"; U "false"; U "no"].
Proof.
  pose proof (statusOf_prepared val) as HP.
  pose proof (statusOf_not_available val) as HN.
  cbn [In] in *. destruct (statusOf val).
  - split; [discriminate|]. intros H. exfalso. apply H.
    destruct HP as [HP _]. specialize (HP eq_refl). tauto.
  - split; [discriminate|]. intros H. exfalso. apply H.
    destruct HN as [HN _]. specialize (HN eq_refl). tauto.
  - split; [|reflexivity]. intros _ H.
    destruct HP as [_ HP], HN as [_ HN].
    destruct H as [H|[H|[H|H]]];
      [discriminate HP; tauto | discriminate HP; tauto | discriminate HP; tauto |].
    discriminate HN; tauto.
Qed.

(** The classifier on the values an items map can hold, through their
    string form: a string is classified [prepared] exactly when it is one of
    prepared, true, yes up to case, [not_available] exactly when it is one of
    not available, not_available, false, no, and [pending] otherwise; every
    string, boolean, number or null gets a status. *)
Lemma classifyValue_on_strings :
  (forall s, classifyValue (Some (JStr s)) = Ok (statusOf (toLowerCase s)))
  /\ (forall val, statusOf val = prepared <->
                  In val [U "prepared"; U "true"; U "yes"])
  /\ (forall val, statusOf val = not_available <->
                  In val [U "not available"; U "not_available"; U "false"; U "no"])
  /\ (forall val, statusOf val = pending <->
                  ~ In val [U "prepared"; U "true"; U "yes"; U "not available";
                            U "not_available"; U "false"; U "no"])
  /\ (forall v, primitive v -> exists st, classifyValue (Some v) = Ok st).
Proof.
  split; [|split; [|split; [|split]]].
  - intros [|c s]; reflexivity.
  - exact statusOf_prepared.
  - exact statusOf_not_available.
  - exact statusOf_pending.
  - intros v Hv. unfold classifyValue, String_or_empty.
    destruct (truthy v); [|eexists; reflexivity].
    destruct v as [|[|]|m e|s| |]; cbn in Hv; try contradiction;
      cbn [js_String bind]; eexists; reflexivity.
Qed.

(** C5, where the code departs from it.  An items map may hold booleans
    (line 193 takes a map of strings and booleans for an items map) and the
    table lists [false] under not available.  The classifier replaces a
    falsy value by the empty string before it reads it, so the boolean false
    is classified [pending], while the string [false] is classified
    [not_available] and the boolean true [prepared], as the table has
    them. *)
Theorem classifyValue_false_is_pending :
  typeof_string_or_boolean (Some (JBool false)) = true
  /\ js_String (JBool false) = Ok (U "false")
  /\ specStatusOfString (JBool false) = Ok not_available
  /\ classifyValue (Some (JBool false)) = Ok pending
  /\ classifyValue (Some (JStr (U "false"))) = Ok not_available
  /\ classifyValue (Some (JStr (U "FALSE"))) = Ok not_available
  /\ classifyValue (Some (JBool true)) = Ok prepared
  /\ (exists r,
        parseEquipmentAlert
          (mkAlert [] [] (J "{'items':{'projector':false,'hdmi':true}}") [] None
                   None false None) = Ok r
        /\ itemsWithStatus r = Some [mkItem (U "Projector") pending;
                                     mkItem (U "HDMI Cable") prepared]).
Proof.
  repeat split; try reflexivity.
  eexists. split; vm_compute; reflexivity.
Qed.

(** ** Totality of the parser *)

(** C2, the failing input: the message [ 'items' {'items':[{'toString':1}]} ]
    (apostrophes standing for double quotes).  The block after the key parses
    to an object whose items array holds an object owning a [toString]
    property; converting that element to a string at line 202 raises, and
    nothing catches it. *)
Theorem parseEquipmentAlert_raises :
  let message := J "'items' {'items':[{'toString':1}]}" in
  extractJsonAroundKey message (J "'items'") = Some (J "{'items':[{'toString':1}]}")
  /\ JSON_parse (J "{'items':[{'toString':1}]}")
     = Some (JObj [(U "items", JArr [JObj [(U "toString", JNum 1 0)]])])
  /\ js_String (JObj [(U "toString", JNum 1 0)]) = Throw
  /\ parseEquipmentAlert (mkAlert [] [] message [] None None false None) = Throw.
Proof. repeat split; vm_compute; reflexivity. Qed.

(** ** E-mail addresses in the sanitized text *)

(** C9, the failing input: [Requested by 'bob'@example.com], the
    apostrophes standing for double quotes.  No address matches at line 394,
    where a quote stands before the at sign; line 410 strips the quotes
    afterwards, and the result holds the address. *)
Theorem sanitizeDisplayText_leaks_email :
  sanitizeDisplayText (J "Requested by 'bob'@example.com")
  = U "Requested by bob@example.com"
  /\ containsEmail (sanitizeDisplayText (J "Requested by 'bob'@example.com")) = true.
Proof. split; vm_compute; reflexivity. Qed.

(** C6, as stated, fails: a word repeated three times loses one copy at
    each pass (line 407), and an address that appears once the quotes are
    stripped is removed by the next pass. *)
Lemma sanitizeDisplayText_not_idempotent :
  sanitizeDisplayText (U "hello hello hello") = U "hello hello"
  /\ sanitizeDisplayText (sanitizeDisplayText (U "hello hello hello")) = U "hello"
  /\ sanitizeDisplayText (sanitizeDisplayText (U "hello hello hello"))
     <> sanitizeDisplayText (U "hello hello hello")
  /\ sanitizeDisplayText (sanitizeDisplayText (J "a'@b.com"))
     <> sanitizeDisplayText (J "a'@b.com").
Proof. repeat split; vm_compute; try reflexivity; discriminate. Qed.

(** ** The admin feed *)

(** C8, as the code has it: for an admin viewer the reconciler returns the
    admin feed as it is, neither filtered, deduplicated nor sorted, whatever
    the other feeds hold; the deduplication pass runs only on the merged feed
    of a non-admin viewer. *)
Theorem alertsData_admin_unchanged :
  (forall adminAlerts userFiltered ownerAdminAlerts user,
      alertsData true adminAlerts userFiltered ownerAdminAlerts user = adminAlerts)
  /\ (forall adminAlerts userFiltered ownerAdminAlerts user a,
         count_occ (list_eq_dec N.eq_dec) (map id adminAlerts) (id a)
         = count_occ (list_eq_dec N.eq_dec)
                     (map id (alertsData true adminAlerts userFiltered
                                         ownerAdminAlerts user)) (id a))
  /\ (forall adminAlerts userFiltered ownerAdminAlerts user,
         alertsData false adminAlerts userFiltered ownerAdminAlerts user
         = dedupe (ownerBase userFiltered ownerAdminAlerts user)).
Proof.
  split; [|split].
  - intros adminAlerts userFiltered ownerAdminAlerts user. reflexivity.
  - intros adminAlerts userFiltered ownerAdminAlerts user a.
    unfold alertsData. reflexivity.
  - intros adminAlerts userFiltered ownerAdminAlerts user. reflexivity.
Qed.

(** C8, as stated, fails: two admin alerts with the same title and first
    message line are both returned, although the deduplication would keep
    only the later one. *)
Lemma alertsData_admin_not_deduplicated :
  let a := mkAlert (U "1") (U "Equipment Needs") (U "hdmi needed") [] None None
                   false (Some 1000%Z) in
  let b := mkAlert (U "2") (U "Equipment Needs") (U "hdmi needed") [] None None
                   false (Some 2000%Z) in
  let admin := mkUser (U "u1") (U "admin@x.com") (U "admin") in
  dedupKey a = dedupKey b
  /\ dedupe [a; b] = [b]
  /\ alertsData true [a; b] [] [] admin = [a; b]
  /\ alertsData true [a; b] [] [] admin <> dedupe [a; b].
Proof. repeat split; vm_compute; try reflexivity; discriminate. Qed.

(** ** Property lists *)

Section PropertyLists.
Context {V : Type}.
Implicit Types (G : list (jsstr * V)) (k : jsstr) (v : V).

Lemma assoc_In G k v : assoc k G = Some v -> In (k, v) G.
Proof.
  induction G as [|[k0 v0] G IH]; simpl; [discriminate|].
  destruct (str_eqb k0 k) eqn:E.
  - apply str_eqb_eq in E. intros [= ->]. subst. left. reflexivity.
  - intros H. right. apply IH. assumption.
Qed.

Lemma assoc_None G k : assoc k G = None -> ~ In k (map fst G).
Proof.
  induction G as [|[k0 v0] G IH]; simpl; [tauto|].
  destruct (str_eqb k0 k) eqn:E; [discriminate|].
  apply str_eqb_neq in E. intros H [H'|H']; [congruence|].
  exact (IH H H').
Qed.

Lemma In_keys G k v : In (k, v) G -> In k (map fst G).
Proof. intros H. apply (in_map fst) in H. exact H. Qed.

Lemma NoDup_assoc G k v :
  NoDup (map fst G) -> In (k, v) G -> assoc k G = Some v.
Proof.
  induction G as [|[k0 v0] G IH]; simpl; [tauto|].
  intros Hnd [H|H].
  - injection H as -> ->. rewrite str_eqb_refl. reflexivity.
  - inversion Hnd as [|? ? Hn Hnd']; subst.
    destruct (str_eqb k0 k) eqn:E.
    + apply str_eqb_eq in E. subst. exfalso. apply Hn. eapply In_keys; eauto.
    + apply IH; assumption.
Qed.

Lemma obj_replace_keys G k v : map fst (obj_replace k v G) = map fst G.
Proof.
  induction G as [|[k0 v0] G IH]; simpl; [reflexivity|].
  destruct (str_eqb k0 k) eqn:E; simpl.
  - apply str_eqb_eq in E. subst. reflexivity.
  - rewrite IH. reflexivity.
Qed.

Lemma obj_replace_In G k v k' v' :
  NoDup (map fst G) ->
  In (k', v') (obj_replace k v G) ->
  (k' = k /\ v' = v) \/ (k' <> k /\ In (k', v') G).
Proof.
  induction G as [|[k0 v0] G IH]; simpl; [tauto|].
  intros Hnd. inversion Hnd as [|? ? Hn Hnd']; subst.
  destruct (str_eqb k0 k) eqn:E; simpl.
  - apply str_eqb_eq in E. subst. intros [H|H].
    + injection H as <- <-. left. split; reflexivity.
    + right. split; [|right; assumption].
      intros ->. apply Hn. eapply In_keys; eauto.
  - apply str_eqb_neq in E. intros [H|H].
    + injection H as <- <-. right. split; [assumption|left; reflexivity].
    + destruct (IH Hnd' H) as [?|[? ?]]; [left; assumption|].
      right. split; [assumption|right; assumption].
Qed.

Lemma obj_replace_has G k v :
  In k (map fst G) -> In (k, v) (obj_replace k v G).
Proof.
  induction G as [|[k0 v0] G IH]; simpl; [tauto|].
  destruct (str_eqb k0 k) eqn:E; simpl.
  - intros _. left. reflexivity.
  - apply str_eqb_neq in E. intros [H|H]; [congruence|].
    right. apply IH. assumption.
Qed.

Lemma obj_replace_other G k v k' v' :
  k' <> k -> In (k', v') G -> In (k', v') (obj_replace k v G).
Proof.
  intros Hne. induction G as [|[k0 v0] G IH]; simpl; [tauto|].
  destruct (str_eqb k0 k) eqn:E; simpl.
  - apply str_eqb_eq in E. subst. intros [H|H]; [congruence|right; assumption].
  - intros [H|H]; [left; assumption|right; apply IH; assumption].
Qed.

Lemma obj_insert_In G k v e :
  In e (obj_insert k v G) <-> e = (k, v) \/ In e G.
Proof.
  induction G as [|[k0 v0] G IH]; simpl.
  - split; intros [H|H]; auto.
  - destruct (index_of_key k) as [n|], (index_of_key k0) as [n0|];
      try destruct (N.ltb n n0); simpl; rewrite ?IH;
      split; intros H; intuition (subst; auto).
Qed.

Lemma obj_insert_keys G k v :
  Permutation (map fst (obj_insert k v G)) (k :: map fst G).
Proof.
  induction G as [|[k0 v0] G IH]; simpl; [reflexivity|].
  destruct (index_of_key k) as [n|], (index_of_key k0) as [n0|];
    try destruct (N.ltb n n0); simpl; try reflexivity.
  all: rewrite IH; apply perm_swap.
Qed.

Lemma obj_set_NoDup G k v :
  NoDup (map fst G) -> NoDup (map fst (obj_set k v G)).
Proof.
  intros Hnd. unfold obj_set. destruct (assoc k G) eqn:E.
  - rewrite obj_replace_keys. assumption.
  - eapply Permutation_NoDup; [symmetry; apply obj_insert_keys|].
    constructor; [apply assoc_None; assumption | assumption].
Qed.

Lemma obj_set_In G k v k' v' :
  NoDup (map fst G) ->
  In (k', v') (obj_set k v G) ->
  (k' = k /\ v' = v) \/ (k' <> k /\ In (k', v') G).
Proof.
  intros Hnd. unfold obj_set. destruct (assoc k G) eqn:E.
  - apply obj_replace_In. assumption.
  - intros H. apply obj_insert_In in H. destruct H as [H|H].
    + injection H as -> ->. left. split; reflexivity.
    + right. split; [|assumption]. intros ->.
      apply (assoc_None _ _ E). eapply In_keys; eauto.
Qed.

Lemma obj_set_has G k v : In (k, v) (obj_set k v G).
Proof.
  unfold obj_set. destruct (assoc k G) eqn:E.
  - apply obj_replace_has. apply assoc_In in E. eapply In_keys; eauto.
  - apply obj_insert_In. left. reflexivity.
Qed.

Lemma obj_set_other G k v k' v' :
  k' <> k -> In (k', v') G -> In (k', v') (obj_set k v G).
Proof.
  intros Hne H. unfold obj_set. destruct (assoc k G).
  - apply obj_replace_other; assumption.
  - apply obj_insert_In. right. assumption.
Qed.
End PropertyLists.

(** ** The deduplication pass *)

Lemma laterThan_trans_false x b v :
  laterThan x v = false -> laterThan b v = true -> laterThan x b = false.
Proof.
  unfold laterThan.
  destruct x as [tx|], b as [tb|], v as [tv|]; try reflexivity; try discriminate.
  rewrite !Z.ltb_lt, !Z.ltb_ge. lia.
Qed.

Lemma laterThan_irrefl x : laterThan x x = false.
Proof. destruct x as [t|]; simpl; [apply Z.ltb_irrefl | reflexivity]. Qed.

Lemma groupStep_inv P G a :
  groupsInv P G -> groupsInv (P ++ [a]) (groupStep G a).
Proof.
  intros (Hnd & Hval & Hcov). unfold groupStep.
  destruct (assoc (dedupKey a) G) as [existing|] eqn:E.
  - pose proof (assoc_In _ _ _ E) as Hex.
    destruct (laterThan (createdAt a) (createdAt existing)) eqn:L.
    + split; [apply obj_set_NoDup; assumption|]. split.
      * intros k v H. apply obj_set_In in H; [|assumption].
        destruct H as [[-> ->]|[_ H]].
        -- split; [reflexivity|]. apply in_or_app. right. left. reflexivity.
        -- destruct (Hval _ _ H). split; [assumption|].
           apply in_or_app. left. assumption.
      * intros x Hx. apply in_app_or in Hx. destruct Hx as [Hx|[<-|[]]].
        -- destruct (Hcov x Hx) as (v & Hv & Hl).
           destruct (list_eq_dec N.eq_dec (dedupKey x) (dedupKey a)) as [Ek|Ek].
           ++ exists a. split; [rewrite Ek; apply obj_set_has|].
              rewrite Ek in Hv.
              assert (v = existing).
              { pose proof (NoDup_assoc _ _ _ Hnd Hv). congruence. }
              subst v. eapply laterThan_trans_false; eauto.
           ++ exists v. split; [apply obj_set_other; assumption | assumption].
        -- exists a. split; [apply obj_set_has | apply laterThan_irrefl].
    + split; [assumption|]. split.
      * intros k v H. destruct (Hval _ _ H). split; [assumption|].
        apply in_or_app. left. assumption.
      * intros x Hx. apply in_app_or in Hx. destruct Hx as [Hx|[<-|[]]].
        -- apply Hcov. assumption.
        -- exists existing. split; assumption.
  - split; [apply obj_set_NoDup; assumption|]. split.
    + intros k v H. apply obj_set_In in H; [|assumption].
      destruct H as [[-> ->]|[_ H]].
      * split; [reflexivity|]. apply in_or_app. right. left. reflexivity.
      * destruct (Hval _ _ H). split; [assumption|].
        apply in_or_app. left. assumption.
    + intros x Hx. apply in_app_or in Hx. destruct Hx as [Hx|[<-|[]]].
      * destruct (Hcov x Hx) as (v & Hv & Hl). exists v. split; [|assumption].
        apply obj_set_other; [|assumption].
        intros Ek. rewrite Ek in Hv. apply (assoc_None _ _ E).
        eapply In_keys; eauto.
      * exists a. split; [apply obj_set_has | apply laterThan_irrefl].
Qed.

Lemma fold_groupStep_inv l : forall P G,
  groupsInv P G -> groupsInv (P ++ l) (fold_left groupStep l G).
Proof.
  induction l as [|a l IH]; intros P G H; simpl.
  - rewrite app_nil_r. assumption.
  - replace (P ++ a :: l) with ((P ++ [a]) ++ l)
      by (rewrite <- app_assoc; reflexivity).
    apply IH. apply groupStep_inv. assumption.
Qed.

Lemma groupAlerts_inv base : groupsInv base (groupAlerts base).
Proof.
  apply (fold_groupStep_inv base [] []).
  split; [constructor|]. split; intros ? ; simpl; tauto.
Qed.

Lemma insertDesc_perm a l : Permutation (insertDesc a l) (a :: l).
Proof.
  induction l as [|b l IH]; simpl; [reflexivity|].
  destruct (laterThan (createdAt b) (createdAt a)); [|reflexivity].
  rewrite IH. apply perm_swap.
Qed.

Lemma sortDesc_perm l : Permutation (sortDesc l) l.
Proof.
  induction l as [|a l IH]; simpl; [reflexivity|].
  rewrite insertDesc_perm. constructor. assumption.
Qed.

Lemma dedupe_In base s :
  In s (dedupe base) <-> In (dedupKey s, s) (groupAlerts base).
Proof.
  unfold dedupe. destruct (groupAlerts_inv base) as (Hnd & Hval & _). split.
  - intros H. apply (Permutation_in _ (sortDesc_perm _)) in H.
    apply in_map_iff in H. destruct H as ([k v] & Hs & Hin). simpl in Hs. subst v.
    destruct (Hval _ _ Hin) as [<- _]. assumption.
  - intros H. apply (Permutation_in _ (Permutation_sym (sortDesc_perm _))).
    apply in_map_iff. exists (dedupKey s, s). split; [reflexivity | assumption].
Qed.

Lemma filter_key_length (G : list (jsstr * Alert)) k :
  NoDup (map fst G) ->
  (forall k' v, In (k', v) G -> dedupKey v = k') ->
  In k (map fst G) ->
  length (filter (fun x => str_eqb (dedupKey x) k) (map snd G)) = 1.
Proof.
  induction G as [|[k0 v0] G IH]; simpl; [tauto|].
  intros Hnd Hval Hin. inversion Hnd as [|? ? Hn Hnd']; subst.
  assert (Hk0 : dedupKey v0 = k0) by (apply Hval; left; reflexivity).
  assert (Hval' : forall k' v, In (k', v) G -> dedupKey v = k')
    by (intros; apply Hval; right; assumption).
  rewrite Hk0. destruct (str_eqb k0 k) eqn:E.
  - apply str_eqb_eq in E. subst k0. simpl. f_equal.
    assert (Hnone : forall G', (forall k' v, In (k', v) G' -> dedupKey v = k') ->
                       ~ In k (map fst G') ->
                       filter (fun x => str_eqb (dedupKey x) k) (map snd G') = []).
    { induction G' as [|[k1 v1] G' IH']; simpl; [reflexivity|].
      intros Hv Hni. rewrite (Hv k1 v1) by (left; reflexivity).
      destruct (str_eqb k1 k) eqn:E1.
      - apply str_eqb_eq in E1. tauto.
      - apply IH'; [intros; apply Hv; right; assumption | tauto]. }
    rewrite Hnone; [reflexivity | assumption | rewrite <- E; assumption].
  - apply str_eqb_neq in E. destruct Hin as [Hin|Hin]; [congruence|].
    apply IH; assumption.
Qed.

Lemma Permutation_filter_length {A} (f : A -> bool) (l l' : list A) :
  Permutation l l' -> length (filter f l) = length (filter f l').
Proof.
  induction 1; simpl.
  - reflexivity.
  - destruct (f x); simpl; congruence.
  - destruct (f x), (f y); reflexivity.
  - congruence.
Qed.

Lemma firstWithKey_snoc k P a :
  firstWithKey k (P ++ [a])
  = match firstWithKey k P with
    | Some x => Some x
    | None => if str_eqb (dedupKey a) k then Some a else None
    end.
Proof.
  unfold firstWithKey. induction P as [|x P IH]; [reflexivity|].
  cbn [app find]. destruct (str_eqb (dedupKey x) k); [reflexivity|exact IH].
Qed.

(** Which alert of a group is kept: the first alert with the key when its
    creation time is invalid, an alert with a valid time otherwise. *)
Lemma groupStep_first P G a :
  groupsInv P G ->
  (forall k v f, In (k, v) G -> firstWithKey k P = Some f ->
                 (createdAt f = None -> v = f)
                 /\ (createdAt f <> None -> createdAt v <> None)) ->
  forall k v f, In (k, v) (groupStep G a) -> firstWithKey k (P ++ [a]) = Some f ->
                (createdAt f = None -> v = f)
                /\ (createdAt f <> None -> createdAt v <> None).
Proof.
  intros (Hnd & Hval & Hcov) J k v f Hin Hf.
  assert (Hsome : forall k' v', In (k', v') G -> firstWithKey k' P <> None).
  { intros k' v' H N. destruct (Hval _ _ H) as [Hk Hp].
    unfold firstWithKey in N. pose proof (find_none _ _ N v' Hp) as C.
    cbn beta in C. rewrite Hk, str_eqb_refl in C. discriminate. }
  rewrite firstWithKey_snoc in Hf. unfold groupStep in Hin.
  destruct (assoc (dedupKey a) G) as [existing|] eqn:E.
  - pose proof (assoc_In _ _ _ E) as Hex.
    destruct (laterThan (createdAt a) (createdAt existing)) eqn:L.
    + apply obj_set_In in Hin; [|assumption].
      destruct Hin as [[-> ->]|[_ Hin]].
      * destruct (firstWithKey (dedupKey a) P) as [f'|] eqn:F;
          [|exfalso; exact (Hsome _ _ Hex F)].
        injection Hf as <-. destruct (J _ _ _ Hex F) as [J1 J2]. split.
        -- intros Hn. exfalso. rewrite <- (J1 Hn) in Hn. rewrite Hn in L.
           destruct (createdAt a); discriminate L.
        -- intros _ Hn. rewrite Hn in L. discriminate L.
      * destruct (firstWithKey k P) as [f'|] eqn:F;
          [|exfalso; exact (Hsome _ _ Hin F)].
        injection Hf as <-. exact (J _ _ _ Hin F).
    + destruct (firstWithKey k P) as [f'|] eqn:F;
        [|exfalso; exact (Hsome _ _ Hin F)].
      injection Hf as <-. exact (J _ _ _ Hin F).
  - apply obj_set_In in Hin; [|assumption].
    destruct Hin as [[-> ->]|[_ Hin]].
    + destruct (firstWithKey (dedupKey a) P) as [f'|] eqn:F.
      * exfalso. unfold firstWithKey in F. apply find_some in F.
        destruct F as [Fp Fk]. apply str_eqb_eq in Fk.
        destruct (Hcov f' Fp) as (w & Hw & _). rewrite Fk in Hw.
        apply (assoc_None _ _ E). eapply In_keys; eauto.
      * rewrite str_eqb_refl in Hf. injection Hf as <-. split; [reflexivity|auto].
    + destruct (firstWithKey k P) as [f'|] eqn:F;
        [|exfalso; exact (Hsome _ _ Hin F)].
      injection Hf as <-. exact (J _ _ _ Hin F).
Qed.

Lemma fold_groupStep_first l : forall P G,
  groupsInv P G ->
  (forall k v f, In (k, v) G -> firstWithKey k P = Some f ->
                 (createdAt f = None -> v = f)
                 /\ (createdAt f <> None -> createdAt v <> None)) ->
  forall k v f, In (k, v) (fold_left groupStep l G) ->
                firstWithKey k (P ++ l) = Some f ->
                (createdAt f = None -> v = f)
                /\ (createdAt f <> None -> createdAt v <> None).
Proof.
  induction l as [|a l IH]; intros P G HG J; cbn [fold_left].
  - rewrite app_nil_r. exact J.
  - replace (P ++ a :: l) with ((P ++ [a]) ++ l)
      by (rewrite <- app_assoc; reflexivity).
    apply IH; [apply groupStep_inv; exact HG|].
    apply groupStep_first; assumption.
Qed.

Lemma groupAlerts_first base k v f :
  In (k, v) (groupAlerts base) -> firstWithKey k base = Some f ->
  (createdAt f = None -> v = f) /\ (createdAt f <> None -> createdAt v <> None).
Proof.
  apply (fold_groupStep_first base [] []).
  - split; [constructor|]. split; [intros ? ? []|intros ? []].
  - intros ? ? ? [].
Qed.

(** C7, as the code has it.  The deduplication pass runs for a non-admin
    viewer only, on the merged feed, with the key
    [title ++ "||" ++ first line of message/details] (the line trimmed).  Of
    two alerts of the merged feed with the same title and the same first
    line and valid creation times, the earlier one is never kept, and
    exactly one alert with their key is kept.  Which one is decided by the
    first alert of the feed with that key: when its creation time is
    invalid, it is the alert kept, whatever follows; when it is valid, the
    alert kept has a valid creation time, not earlier than that of any
    alert with the key, and it is the later of the two as soon as no other
    alert with the key is as late. *)
Theorem dedupe_keeps_latest :
  forall base a b ta tb,
    In a base -> In b base ->
    title a = title b ->
    firstLineOf (or_str (message a) (details a))
    = firstLineOf (or_str (message b) (details b)) ->
    createdAt a = Some ta -> createdAt b = Some tb -> (ta < tb)%Z ->
    (forall lower adminAlerts userFiltered ownerAdminAlerts user,
        alertsDataBy lower false adminAlerts userFiltered ownerAdminAlerts user
        = dedupe (ownerBaseBy lower userFiltered ownerAdminAlerts user))
    /\ dedupKey a
       = title a ++ U "||" ++ trim (firstLineOf (or_str (message a) (details a)))
    /\ dedupKey a = dedupKey b
    /\ ~ In a (dedupe base)
    /\ length (filter (fun x => str_eqb (dedupKey x) (dedupKey a)) (dedupe base)) = 1
    /\ (exists s f,
           In s (dedupe base) /\ In s base /\ dedupKey s = dedupKey a
           /\ (forall s', In s' (dedupe base) -> dedupKey s' = dedupKey a -> s' = s)
           /\ firstWithKey (dedupKey a) base = Some f
           /\ (createdAt f = None -> s = f)
           /\ (createdAt f <> None ->
               exists ts,
                 createdAt s = Some ts /\ (tb <= ts)%Z
                 /\ (forall c tc, In c base -> dedupKey c = dedupKey a ->
                                  createdAt c = Some tc -> (tc <= ts)%Z)
                 /\ ((forall c tc, In c base -> dedupKey c = dedupKey a ->
                                   createdAt c = Some tc -> (tb <= tc)%Z -> c = b) ->
                     s = b))).
Proof.
  intros base a b ta tb Ha Hb Ht Hf Hta Htb Hlt.
  assert (Hk : dedupKey a = dedupKey b) by (unfold dedupKey; rewrite Ht, Hf; reflexivity).
  destruct (groupAlerts_inv base) as (Hnd & Hval & Hcov).
  destruct (Hcov b Hb) as (s & Hs & Hls). rewrite <- Hk in Hs.
  assert (Hsk : dedupKey s = dedupKey a) by (apply (Hval _ _ Hs)).
  assert (Hsin : In s (dedupe base)) by (apply dedupe_In; rewrite Hsk; assumption).
  assert (Huniq : forall s', In s' (dedupe base) -> dedupKey s' = dedupKey a -> s' = s).
  { intros s' H' Hk'. apply dedupe_In in H'. rewrite Hk' in H'.
    pose proof (NoDup_assoc _ _ _ Hnd H'). pose proof (NoDup_assoc _ _ _ Hnd Hs).
    congruence. }
  assert (Hna : ~ In a (dedupe base)).
  { intros Hin. assert (a = s) by (apply Huniq; [assumption | reflexivity]).
    subst s. rewrite Hta, Htb in Hls. simpl in Hls.
    apply Z.ltb_ge in Hls. lia. }
  split; [reflexivity|]. split; [reflexivity|]. split; [assumption|].
  split; [assumption|]. split.
  - unfold dedupe. rewrite (Permutation_filter_length _ _ _ (sortDesc_perm _)).
    apply filter_key_length; [assumption | intros k v H; apply (Hval _ _ H) |].
    eapply In_keys; eauto.
  - destruct (firstWithKey (dedupKey a) base) as [f|] eqn:F.
    2:{ exfalso. unfold firstWithKey in F. pose proof (find_none _ _ F a Ha) as C.
        cbn beta in C. rewrite str_eqb_refl in C. discriminate. }
    destruct (groupAlerts_first base _ _ _ Hs F) as [J1 J2].
    exists s, f. split; [exact Hsin|]. split; [apply (Hval _ _ Hs)|].
    split; [exact Hsk|]. split; [exact Huniq|]. split; [reflexivity|].
    split; [exact J1|]. intros Hfv. specialize (J2 Hfv).
    destruct (createdAt s) as [ts|] eqn:Ets; [|congruence].
    assert (Hmax : forall c tc, In c base -> dedupKey c = dedupKey a ->
                                createdAt c = Some tc -> (tc <= ts)%Z).
    { intros c tc Hc Hck Hct. destruct (Hcov c Hc) as (w & Hw & Hl).
      rewrite Hck in Hw. pose proof (NoDup_assoc _ _ _ Hnd Hw) as A1.
      pose proof (NoDup_assoc _ _ _ Hnd Hs) as A2.
      assert (w = s) by congruence. subst w.
      rewrite Hct, Ets in Hl. cbn [laterThan] in Hl. apply Z.ltb_ge in Hl. exact Hl. }
    exists ts. split; [reflexivity|].
    split; [exact (Hmax b tb Hb (eq_sym Hk) Htb)|]. split; [exact Hmax|].
    intros Honly. apply (Honly s ts (proj2 (Hval _ _ Hs)) Hsk Ets).
    exact (Hmax b tb Hb (eq_sym Hk) Htb).
Qed.

Lemma dedupe_keeps_latest_witness :
  let a := mkAlert (U "1") (U "Equipment Needs") (U "hdmi needed") [] None None
                   false (Some 1000%Z) in
  let b := mkAlert (U "2") (U "Equipment Needs") (U "hdmi needed") [] None None
                   false (Some 2000%Z) in
  ~ In a (dedupe [b; a]) /\ dedupe [b; a] = [b].
Proof.
  intros a b. split; [|vm_compute; reflexivity].
  refine (proj1 (proj2 (proj2 (proj2
    (dedupe_keeps_latest [b; a] a b 1000 2000 _ _ _ _ _ _ _))))).
  - right; left; reflexivity.
  - left; reflexivity.
  - reflexivity.
  - reflexivity.
  - reflexivity.
  - reflexivity.
  - reflexivity.
Defined.

(** C7, as stated, fails in two ways.  An admin viewer's feed is not
    deduplicated: both alerts stay.  And for a non-admin viewer an alert
    with the same key and an invalid creation time that comes first keeps
    its place: neither of the two dated alerts is kept. *)
Lemma dedupe_not_always_latest :
  let a := mkAlert (U "1") (U "Equipment Needs") (U "hdmi needed") [] None None
                   false (Some 1000%Z) in
  let b := mkAlert (U "2") (U "Equipment Needs") (U "hdmi needed") [] None None
                   false (Some 2000%Z) in
  let x := mkAlert (U "3") (U "Equipment Needs") (U "hdmi needed") [] None None
                   false None in
  let admin := mkUser (U "u1") (U "admin@x.com") (U "admin") in
  dedupKey a = dedupKey b /\ dedupKey x = dedupKey a
  /\ alertsData true [a; b] [] [] admin = [a; b]
  /\ dedupe [x; a; b] = [x]
  /\ ~ In b (dedupe [x; a; b]).
Proof.
  repeat split; try (vm_compute; reflexivity).
  vm_compute. intros [H|[]]. discriminate H.
Qed.

(** ** The two item sources of a parsed alert *)

Lemma normalizeNeeds_truthy v : truthy v = true -> truthy (normalizeNeeds v) = true.
Proof.
  intros H. unfold normalizeNeeds.
  destruct (negb _ && typeof_object v); [|assumption].
  destruct (negb _ && forallb _ _); [reflexivity | assumption].
Qed.

Lemma listOfArray_no_array needs eo :
  isArray (get_prop needs (U "items")) = false ->
  listOfArray needs = Ok eo -> eo = ([], None).
Proof. unfold listOfArray. intros ->. intros [= <-]. reflexivity. Qed.

Lemma statusItems_of_map needs combinedMessage raw l :
  itemsOfMap needs = Some l -> l <> [] ->
  statusItems needs combinedMessage raw = Some l.
Proof.
  unfold statusItems. intros -> Hl. destruct l as [|x l]; [congruence|]. reflexivity.
Qed.

(** C3, as the code has it.  The two fields are filled independently.  When
    no needs object is found, [itemsWithStatus] is null; when the needs object
    carries no items array, [equipmentList] stays empty and [othersText]
    null; and a non-empty items map of the needs object is what
    [itemsWithStatus] holds, ahead of the quoted-pair and inline fallbacks.
    So both fields are populated only when the needs object carries an items
    array and the message text also yields label-status pairs. *)
Theorem parseEquipmentAlert_item_sources :
  forall alert r,
    parseEquipmentAlert alert = Ok r ->
    (truthy_opt (needsObj r) = false -> itemsWithStatus r = None)
    /\ (forall needs,
           needsObj r = Some needs -> truthy needs = true ->
           isArray (get_prop needs (U "items")) = false ->
           equipmentList r = [] /\ othersText r = None)
    /\ (forall needs l,
           needsObj r = Some needs -> truthy needs = true ->
           itemsOfMap needs = Some l -> l <> [] ->
           itemsWithStatus r = Some l)
    /\ (has_items (itemsWithStatus r) = true -> equipmentList r <> [] ->
        exists needs,
          needsObj r = Some needs
          /\ isArray (get_prop needs (U "items")) = true
          /\ itemsOfMap needs = None).
Proof.
  intros alert r. unfold parseEquipmentAlert.
  destruct (findNeeds _ _) as [needs raw].
  destruct needs as [v|]; [destruct (truthy v) eqn:Tv|].
  - destruct (listOfArray (normalizeNeeds v)) as [eo|] eqn:E;
      cbn [bind]; [|discriminate].
    intros [= <-]. cbn [needsObj itemsWithStatus equipmentList othersText truthy_opt].
    pose proof (normalizeNeeds_truthy v Tv) as Tn.
    split; [rewrite Tn; discriminate|]. split; [|split].
    + intros needs [= <-] _ Hna.
      rewrite (listOfArray_no_array _ _ Hna E). split; reflexivity.
    + intros needs l [= <-] _ Hm Hl. apply statusItems_of_map; assumption.
    + intros Hi Hne. exists (normalizeNeeds v). split; [reflexivity|].
      destruct (isArray (get_prop (normalizeNeeds v) (U "items"))) eqn:Ea.
      * split; [reflexivity|]. unfold itemsOfMap.
        destruct (get_prop (normalizeNeeds v) (U "items")) as [items|];
          [|reflexivity].
        destruct items; try discriminate Ea.
        reflexivity.
      * exfalso. apply Hne. rewrite (listOfArray_no_array _ _ Ea E). reflexivity.
  - intros [= <-]. cbn [needsObj itemsWithStatus equipmentList othersText truthy_opt].
    rewrite Tv.
    split; [reflexivity|]. split; [|split].
    + intros needs [= <-] Hn. congruence.
    + intros needs l [= <-] Hn. congruence.
    + discriminate.
  - intros [= <-]. cbn [needsObj itemsWithStatus equipmentList othersText truthy_opt].
    split; [reflexivity|]. split; [|split]; try discriminate.
Qed.

Lemma parseEquipmentAlert_item_sources_witness :
  let alert := mkAlert [] [] (J "{'items':{'hdmi':'prepared'}}") [] None None
                       false None in
  exists r, parseEquipmentAlert alert = Ok r
            /\ equipmentList r = []
            /\ itemsWithStatus r = Some [mkItem (U "HDMI Cable") prepared].
Proof.
  intros alert.
  destruct (parseEquipmentAlert alert) as [r|] eqn:E; [|vm_compute in E; discriminate].
  exists r. split; [reflexivity|].
  destruct (parseEquipmentAlert_item_sources alert r E) as (_ & H2 & H3 & _).
  assert (Hn : needsObj r = Some (JObj [(U "items", JObj [(U "hdmi", JStr (U "prepared"))])])).
  { vm_compute in E. injection E as <-. reflexivity. }
  split.
  - apply (H2 _ Hn); reflexivity.
  - apply (H3 _ _ Hn); [reflexivity | vm_compute; reflexivity | discriminate].
Defined.

(** C3, as stated, fails both ways: an alert whose message holds an items
    array and an inline label-status fragment gets both fields populated, and
    a plain message gets neither. *)
Lemma parseEquipmentAlert_both_and_neither :
  (exists r,
      parseEquipmentAlert
        (mkAlert [] [] (J "{'items':['hdmi']} projector: prepared") [] None None
                 false None) = Ok r
      /\ equipmentList r = [U "HDMI Cable"]
      /\ itemsWithStatus r = Some [mkItem (U "Projector") prepared]
      /\ exactlyOnePopulated r = false)
  /\ (exists r,
      parseEquipmentAlert (mkAlert [] [] (U "hello") [] None None false None) = Ok r
      /\ equipmentList r = []
      /\ itemsWithStatus r = None
      /\ exactlyOnePopulated r = false).
Proof.
  split; eexists; (split; [vm_compute; reflexivity|]);
    repeat split; vm_compute; reflexivity.
Qed.

(** ** The block pattern of line 96 *)

Lemma cs_match_one c x : cs_match false (one x) c = N.eqb c x.
Proof.
  unfold cs_match, one, in_ranges. simpl.
  destruct (N.eqb_spec c x) as [->|Hne].
  - rewrite N.leb_refl. reflexivity.
  - destruct (N.leb_spec x c), (N.leb_spec c x); try reflexivity. lia.
Qed.

Lemma cs_match_anychar c : cs_match false anychar c = true.
Proof. reflexivity. Qed.

Lemma cap_clear_nil cp : cap_clear [] cp = cp.
Proof.
  unfold cap_clear. induction cp as [|e cp IH]; [reflexivity|].
  cbn [filter existsb negb]. f_equal. exact IH.
Qed.

Lemma rmatch_seq ci r1 r2 st cp k :
  rmatch ci (RSeq r1 r2) st cp k =
  rmatch ci r1 st cp (fun st' cp' => rmatch ci r2 st' cp' k).
Proof. reflexivity. Qed.

Lemma rmatch_group ci n r st cp k :
  rmatch ci (RGroup n r) st cp k =
  rmatch ci r st cp
         (fun st' cp' =>
            k st' (cap_set n (firstn (st_pos st' - st_pos st) (st_rest st)) cp')).
Proof. reflexivity. Qed.

Lemma rmatch_rep ci greedy min max r st cp k :
  rmatch ci (RRep greedy min max r) st cp k =
  rep_loop (rmatch ci r) (groups_of r) greedy
           (min + length (st_rest st) + 1) min max st cp k.
Proof. reflexivity. Qed.

Lemma rmatch_char_cons cs c rest prev pos cp k :
  rmatch false (RChar cs) (mkst (c :: rest) prev pos) cp k =
  if cs_match false cs c then k (mkst rest (Some c) (S pos)) cp else None.
Proof. reflexivity. Qed.

Lemma rmatch_char_nil cs prev pos cp k :
  rmatch false (RChar cs) (mkst [] prev pos) cp k = None.
Proof. reflexivity. Qed.

(** The lazy run of [[\s\S]] followed by a closing brace stops at the first
    closing brace. *)
Lemma lazy_any_until_close (k : kont) :
  (forall st cp, k st cp <> None) ->
  forall rest fuel prev pos cp,
    length rest < fuel ->
    rep_loop (rmatch false (RChar anychar)) [] false fuel 0 None
             (mkst rest prev pos) cp
             (fun st' cp' => rmatch false (RChar (one RBRACE)) st' cp' k)
    = match firstClose rest with
      | Some i => k (mkst (skipn (S i) rest) (Some RBRACE) (pos + S i)) cp
      | None => None
      end.
Proof.
  intros Hk. induction rest as [|c rest IH]; intros fuel prev pos cp Hf.
  - destruct fuel as [|fuel]; [simpl in Hf; lia|]. reflexivity.
  - destruct fuel as [|fuel]; [simpl in Hf; lia|].
    cbn [rep_loop Nat.eqb negb andb]. rewrite cap_clear_nil.
    rewrite !rmatch_char_cons, cs_match_one, cs_match_anychar.
    cbn [firstClose].
    destruct (N.eqb_spec c RBRACE) as [->|Hne].
    + replace (pos + 1) with (S pos) by lia. simpl skipn.
      destruct (k _ cp) eqn:E; [reflexivity|]. exfalso. exact (Hk _ _ E).
    + cbn [st_pos]. replace (Nat.eqb (S pos) pos) with false
        by (symmetry; apply Nat.eqb_neq; lia).
      cbn [option_map Nat.pred]. rewrite IH by (simpl in Hf; lia).
      destruct (firstClose rest) as [i|]; [|reflexivity].
      replace (S pos + S i) with (pos + S (S i)) by lia. reflexivity.
Qed.

Lemma match_here_block rest prev pos :
  match_here false re_block (mkst rest prev pos) =
  match rest with
  | c :: rest' =>
      if N.eqb c LBRACE then
        match firstClose rest' with
        | Some i =>
            Some (mkmatch pos (pos + S (S i)) (firstn (S (S i)) rest)
                          [(1, firstn (S (S i)) rest)])
        | None => None
        end
      else None
  | [] => None
  end.
Proof.
  unfold match_here, re_block.
  destruct rest as [|c rest']; [reflexivity|].
  cbn [rseq]. rewrite rmatch_group, rmatch_seq, rmatch_char_cons, cs_match_one.
  destruct (N.eqb c LBRACE); [|reflexivity].
  rewrite rmatch_seq. unfold lazy_star. rewrite rmatch_rep.
  cbn [st_rest st_pos groups_of].
  rewrite lazy_any_until_close.
  - destruct (firstClose rest') as [i|]; [|reflexivity].
    unfold accept. cbn [st_pos st_rest cap_set cap_clear filter].
    replace (S pos + S i - pos) with (S (S i)) by lia.
    replace (S pos + S i) with (pos + S (S i)) by lia.
    reflexivity.
  - intros st cp. unfold accept. discriminate.
  - simpl. lia.
Qed.

Lemma matches_block_shortest rest : forall prev pos skip,
  map (group 1) (matches_from false re_block prev rest pos skip)
  = shortestBlocks_from rest skip.
Proof.
  induction rest as [|c rest IH]; intros prev pos skip.
  - destruct skip; reflexivity.
  - destruct skip as [|skip].
    + cbn [matches_from shortestBlocks_from]. rewrite match_here_block.
      destruct (N.eqb c LBRACE); [|apply IH].
      destruct (firstClose rest) as [i|]; [|apply IH].
      cbn [map m_end]. rewrite IH.
      replace (pos + S (S i) - pos - 1) with (S i) by lia.
      reflexivity.
    + cbn [matches_from shortestBlocks_from]. apply IH.
Qed.

Lemma jsonBlocks_shortest raw : jsonBlocks raw = shortestBlocks raw.
Proof. apply matches_block_shortest. Qed.

Lemma firstClose_spec s : forall i,
  firstClose s = Some i ->
  firstn (S i) s = firstn i s ++ [RBRACE] /\ ~ In RBRACE (firstn i s).
Proof.
  induction s as [|c s IH]; intros i; cbn [firstClose]; [discriminate|].
  destruct (N.eqb_spec c RBRACE) as [->|Hne].
  - intros [= <-]. split; [reflexivity | simpl; tauto].
  - destruct (firstClose s) as [j|]; [|discriminate].
    intros [= <-]. destruct (IH j eq_refl) as [Hf Hn]. split.
    + change (firstn (S (S j)) (c :: s)) with (c :: firstn (S j) s).
      rewrite Hf. reflexivity.
    + simpl. intros [H|H]; [congruence | tauto].
Qed.

Lemma shortestBlocks_from_shape s : forall skip b,
  In b (shortestBlocks_from s skip) ->
  exists body, b = LBRACE :: body ++ [RBRACE] /\ ~ In RBRACE body.
Proof.
  induction s as [|c s IH]; intros skip b; cbn [shortestBlocks_from];
    [intros H; destruct H|].
  destruct skip as [|skip]; [|apply IH].
  destruct (N.eqb_spec c LBRACE) as [->|Hne]; [|apply IH].
  destruct (firstClose s) as [i|] eqn:E; [|apply IH].
  intros [<-|H]; [|eapply IH; eassumption].
  destruct (firstClose_spec s i E) as [Hf Hn].
  exists (firstn i s). split; [|assumption].
  change (firstn (S (S i)) (LBRACE :: s)) with (LBRACE :: firstn (S i) s).
  rewrite Hf. reflexivity.
Qed.

(** ** [JSON.parse] on a text that opens with a brace *)

Lemma parse_members_obj fuel : forall s acc v rest,
  parse_members fuel s acc = Some (v, rest) -> exists props, v = JObj props.
Proof.
  induction fuel as [|fuel IH]; intros s acc v rest; [discriminate|].
  cbn [parse_members].
  repeat match goal with
         | |- match ?x with _ => _ end = _ -> _ => destruct x eqn:?; try discriminate
         | |- (if ?x then _ else _) = _ -> _ => destruct x eqn:?; try discriminate
         | |- (let '(_, _) := ?x in _) = _ -> _ => destruct x eqn:?
         end.
  - apply IH.
  - intros [= <- _]. eexists. reflexivity.
Qed.

Lemma JSON_parse_brace_obj s v :
  JSON_parse (LBRACE :: s) = Some v -> exists props, v = JObj props.
Proof.
  unfold JSON_parse.
  destruct (parse_value _ _) as [[v' rest]|] eqn:E; [|discriminate].
  destruct (skip_ws rest); [|discriminate]. intros [= <-].
  revert E. generalize (2 * length (LBRACE :: s) + 2). intros fuel.
  destruct fuel as [|fuel]; [discriminate|].
  cbn [parse_value]. change (skip_ws (LBRACE :: s)) with (LBRACE :: s).
  change (N.eqb LBRACE LBRACE) with true. cbv iota.
  destruct (skip_ws s) as [|c2 s2]; [discriminate|].
  destruct (N.eqb c2 RBRACE).
  - intros [= <- _]. eexists. reflexivity.
  - apply parse_members_obj.
Qed.

Lemma firstParsed_skip pre : forall rest,
  (forall x, In x pre -> JSON_parse x = None) ->
  firstParsed (pre ++ rest) = firstParsed rest.
Proof.
  induction pre as [|x pre IH]; intros rest H; [reflexivity|].
  rewrite <- app_comm_cons. cbn [firstParsed].
  rewrite (H x) by (left; reflexivity).
  apply IH. intros y Hy. apply H. right. exact Hy.
Qed.

(** C4, as the code has it.  The pass of lines 95-112 takes the matches of
    the pattern of line 96, left to right and without overlap: each runs from
    an opening brace to the first closing brace after it, whatever the
    nesting, so it holds no closing brace but its last unit.  Each block is
    handed to [JSON.parse]; the blocks that fail to parse are passed over,
    and the first block that parses is kept (it is an object, so the test of
    line 100 accepts it); when none parses, nothing is kept. *)
Theorem jsonBlocks_first_closing_brace :
  (forall raw, jsonBlocks raw = shortestBlocks raw)
  /\ (forall raw b,
         In b (jsonBlocks raw) ->
         exists body, b = LBRACE :: body ++ [RBRACE] /\ ~ In RBRACE body)
  /\ (forall raw pre b post v,
         jsonBlocks raw = pre ++ b :: post ->
         (forall x, In x pre -> JSON_parse x = None) ->
         JSON_parse b = Some v ->
         firstParsed (jsonBlocks raw) = Some v)
  /\ (forall raw,
         (forall x, In x (jsonBlocks raw) -> JSON_parse x = None) ->
         firstParsed (jsonBlocks raw) = None).
Proof.
  split; [exact jsonBlocks_shortest|]. split; [|split].
  - intros raw b. rewrite jsonBlocks_shortest. apply shortestBlocks_from_shape.
  - intros raw pre b post v Hb Hpre Hp.
    assert (Hin : In b (jsonBlocks raw))
      by (rewrite Hb; apply in_or_app; right; left; reflexivity).
    rewrite Hb, (firstParsed_skip pre _ Hpre). cbn [firstParsed]. rewrite Hp.
    rewrite jsonBlocks_shortest in Hin.
    apply shortestBlocks_from_shape in Hin. destruct Hin as (body & -> & _).
    apply JSON_parse_brace_obj in Hp. destruct Hp as (props & ->).
    cbn [truthy typeof_object andb]. rewrite !orb_true_r. reflexivity.
  - intros raw H. rewrite <- (app_nil_r (jsonBlocks raw)).
    apply (firstParsed_skip _ [] H).
Qed.

Lemma jsonBlocks_first_closing_brace_witness :
  In (J "{'x':1}") (jsonBlocks (J "a {'y':{} {'x':1} b"))
  /\ firstParsed (jsonBlocks (J "a {'y':{} {'x':1} b"))
     = Some (JObj [(U "x", JNum 1 0)]).
Proof.
  split; [vm_compute; right; left; reflexivity|].
  apply (proj1 (proj2 (proj2 jsonBlocks_first_closing_brace))
           (J "a {'y':{} {'x':1} b") [J "{'y':{}"] (J "{'x':1}") []).
  - vm_compute. reflexivity.
  - intros x [<-|[]]. vm_compute. reflexivity.
  - vm_compute. reflexivity.
Defined.

(** C4, as stated, fails on a nested object: the pattern cuts the block at
    the first closing brace, the cut block does not parse and no needs object
    is found, whereas the brace-depth scan would yield the whole object. *)
Lemma jsonBlocks_cut_nested :
  jsonBlocks (J "{'a':{'b':1}}") = [J "{'a':{'b':1}"]
  /\ balancedBlocks (J "{'a':{'b':1}}") = [J "{'a':{'b':1}}"]
  /\ jsonBlocks (J "{'a':{'b':1}}") <> balancedBlocks (J "{'a':{'b':1}}")
  /\ firstParsed (jsonBlocks (J "{'a':{'b':1}}")) = None
  /\ firstParsed (balancedBlocks (J "{'a':{'b':1}}"))
     = Some (JObj [(U "a", JObj [(U "b", JNum 1 0)])]).
Proof. repeat split; vm_compute; try reflexivity; discriminate. Qed.

(** ** Patterns that need a unit the text does not hold *)

Section NoMatch.
Variable p : N -> bool.
Variable ci : bool.

Lemma free_tail c rest prev pos prev' pos' :
  free p (mkst (c :: rest) prev pos) -> free p (mkst rest prev' pos').
Proof. intros H x Hx. apply H. right. exact Hx. Qed.

Lemma free_advance n : forall st, free p st -> free p (advance n st).
Proof.
  induction n as [|n IH]; intros st H; simpl; [assumption|].
  destruct st as [[|c rest] prev pos]; simpl; [assumption|].
  apply IH. eapply free_tail; eassumption.
Qed.

Lemma rep_loop_dead m gs greedy (k : kont) :
  (forall st cp (d : kont), free p st ->
      (forall st' cp', free p st' -> d st' cp' = None) -> m st cp d = None) ->
  (forall st cp, free p st -> k st cp = None) ->
  forall fuel min max st cp,
    free p st -> rep_loop m gs greedy fuel min max st cp k = None.
Proof.
  intros Hm Hk. induction fuel as [|fuel IH]; intros min max st cp Hst;
    [reflexivity|].
  cbn [rep_loop].
  assert (Hd : m st (cap_clear gs cp)
                 (fun st' cp' =>
                    if Nat.eqb min 0 && Nat.eqb (st_pos st') (st_pos st)
                    then None
                    else rep_loop m gs greedy fuel (Nat.pred min)
                                  (option_map Nat.pred max) st' cp' k) = None).
  { apply Hm; [assumption|]. intros st' cp' Hst'.
    destruct (_ && _); [reflexivity|]. apply IH. assumption. }
  destruct max as [[|mx]|]; [apply Hk; assumption| |];
    (destruct (negb (Nat.eqb min 0)); [exact Hd|]);
    (destruct greedy; [rewrite Hd|rewrite (Hk _ _ Hst)]; auto).
Qed.

(** A continuation that fails everywhere makes the match fail. *)
Lemma rmatch_dead r : forall st cp (k : kont),
  free p st ->
  (forall st' cp', free p st' -> k st' cp' = None) ->
  rmatch ci r st cp k = None.
Proof.
  induction r as [|cs|r1 IH1 r2 IH2|r1 IH1 r2 IH2|greedy min max r1 IH1
                  |n r1 IH1|n| | |]; intros st cp k Hst Hk; cbn [rmatch].
  - apply Hk. assumption.
  - destruct st as [[|c rest] prev pos]; cbn [st_rest]; [reflexivity|].
    destruct (cs_match ci cs c); [|reflexivity].
    apply Hk. eapply free_tail; eassumption.
  - apply IH1; [assumption|]. intros st' cp' Hst'. apply IH2; assumption.
  - rewrite IH1 by assumption. apply IH2; assumption.
  - apply rep_loop_dead; assumption.
  - apply IH1; [assumption|]. intros st' cp' Hst'. apply Hk. assumption.
  - destruct (cap_get n cp) as [s|]; [|apply Hk; assumption].
    destruct (eq_ci ci s _); [|reflexivity].
    apply Hk. apply free_advance. assumption.
  - destruct (st_prev st); [reflexivity | apply Hk; assumption].
  - destruct (st_rest st); [apply Hk; assumption | reflexivity].
  - destruct (xorb _ _); [apply Hk; assumption | reflexivity].
Qed.

Lemma range_forall_spec q : forall n lo c,
  range_forall q lo n = true ->
  (lo <= c)%N -> (c < lo + N.of_nat n)%N -> q c = true.
Proof.
  induction n as [|n IH]; intros lo c H Hlo Hhi; [lia|].
  cbn [range_forall] in H. apply andb_true_iff in H. destruct H as [H1 H2].
  destruct (N.eq_dec c lo) as [->|Hne]; [assumption|].
  apply (IH (lo + 1)%N); [assumption | lia | lia].
Qed.

Lemma swap_case_involutive c : swap_case (swap_case c) = c.
Proof.
  unfold swap_case.
  destruct (N.leb_spec 65 c), (N.leb_spec c 90), (N.leb_spec 97 c),
    (N.leb_spec c 122); cbn [andb];
    repeat match goal with
           | |- context [N.leb ?a ?b] => destruct (N.leb_spec a b)
           end; cbn [andb]; lia.
Qed.

Lemma class_within_no_match cs c :
  class_within p cs = true -> p c = false -> cs_match ci cs c = false.
Proof.
  unfold class_within, cs_match. intros H Hc.
  apply andb_true_iff in H. destruct H as [Hneg Hall].
  apply negb_true_iff in Hneg. rewrite Hneg. cbn [xorb].
  rewrite forallb_forall in Hall.
  assert (Hin : forall x, in_ranges (cs_ranges cs) x = true ->
                          p x = true /\ p (swap_case x) = true).
  { intros x Hx. unfold in_ranges in Hx. apply existsb_exists in Hx.
    destruct Hx as ([lo hi] & Hr & Hb). cbn [fst snd] in Hb.
    apply andb_true_iff in Hb. destruct Hb as [Hlo Hhi].
    apply N.leb_le in Hlo, Hhi. specialize (Hall _ Hr). cbn [fst snd] in Hall.
    apply andb_true_iff. apply (range_forall_spec _ _ _ x Hall); lia. }
  destruct (in_ranges (cs_ranges cs) c) eqn:E1.
  - destruct (Hin _ E1). congruence.
  - destruct ci; [|reflexivity]. cbn [orb andb].
    destruct (in_ranges (cs_ranges cs) (swap_case c)) eqn:E2; [|reflexivity].
    destruct (Hin _ E2) as [_ H]. rewrite swap_case_involutive in H. congruence.
Qed.

(** A pattern that needs a unit satisfying [p] matches nowhere in a text
    that holds none. *)
Lemma rmatch_needs r : forall st cp (k : kont),
  needs p r = true -> free p st -> rmatch ci r st cp k = None.
Proof.
  induction r as [|cs|r1 IH1 r2 IH2|r1 IH1 r2 IH2|greedy min max r1 IH1
                  |n r1 IH1|n| | |]; intros st cp k Hn Hst;
    cbn [needs] in Hn; try discriminate; cbn [rmatch].
  - destruct st as [[|c rest] prev pos]; cbn [st_rest]; [reflexivity|].
    rewrite class_within_no_match; [reflexivity | assumption |].
    apply Hst. left. reflexivity.
  - apply orb_true_iff in Hn. destruct Hn as [Hn|Hn].
    + apply IH1; assumption.
    + apply rmatch_dead; [assumption|]. intros st' cp' Hst'.
      apply IH2; assumption.
  - apply andb_true_iff in Hn. destruct Hn as [Hn1 Hn2].
    rewrite IH1 by assumption. apply IH2; assumption.
  - apply andb_true_iff in Hn. destruct Hn as [Hn Hn1].
    apply andb_true_iff in Hn. destruct Hn as [Hmin Hmax].
    replace (min + length (st_rest st) + 1)
      with (S (min + length (st_rest st))) by lia.
    cbn [rep_loop]. rewrite Hmin.
    destruct max as [[|mx]|]; [discriminate Hmax| |]; apply IH1; assumption.
  - apply IH1; assumption.
Qed.

Lemma match_here_needs r st :
  needs p r = true -> free p st -> match_here ci r st = None.
Proof.
  intros Hn Hst. unfold match_here. rewrite rmatch_needs; auto.
Qed.

Lemma replace_from_needs r f : needs p r = true ->
  forall rest prev pos,
    (forall c, In c rest -> p c = false) ->
    replace_from ci r f prev rest pos 0 = rest.
Proof.
  intros Hn. induction rest as [|c rest IH]; intros prev pos Hfree;
    cbn [replace_from]; rewrite match_here_needs by assumption.
  - reflexivity.
  - f_equal. apply IH. intros x Hx. apply Hfree. right. exact Hx.
Qed.

Lemma matches_from_needs r : needs p r = true ->
  forall rest prev pos,
    (forall c, In c rest -> p c = false) ->
    matches_from ci r prev rest pos 0 = [].
Proof.
  intros Hn. induction rest as [|c rest IH]; intros prev pos Hfree;
    cbn [matches_from]; rewrite match_here_needs by assumption.
  - reflexivity.
  - apply IH. intros x Hx. apply Hfree. right. exact Hx.
Qed.
End NoMatch.

(** ** The sanitizer on plain texts *)

Lemma plain_forallb s :
  forallb (fun c => negb (special c)) s = true -> plain s.
Proof.
  intros H c Hc. rewrite forallb_forall in H. apply negb_true_iff. apply H. exact Hc.
Qed.

Lemma plain_not_ws s c : plain s -> In c s -> is_ws c = false.
Proof.
  intros H Hc. specialize (H c Hc). unfold special in H.
  apply orb_false_iff in H. apply H.
Qed.

Lemma trimStart_plain s : plain s -> trimStart s = s.
Proof.
  destruct s as [|c s]; [reflexivity|]. intros H. cbn [trimStart].
  rewrite (plain_not_ws _ c H); [reflexivity | left; reflexivity].
Qed.

Lemma plain_rev s : plain s -> plain (rev s).
Proof. intros H c Hc. apply H. apply in_rev. exact Hc. Qed.

Lemma trim_plain s : plain s -> trim s = s.
Proof.
  intros H. unfold trim. rewrite (trimStart_plain s H).
  rewrite (trimStart_plain _ (plain_rev _ H)). apply rev_involutive.
Qed.

Lemma replaceAll_plain ci r f s :
  needs special r = true -> plain s -> replaceAll ci r f s = s.
Proof. intros Hn Hs. unfold replaceAll. apply (replace_from_needs special); assumption. Qed.

Lemma matchAll_plain ci r s :
  needs special r = true -> plain s -> matchAll ci r s = [].
Proof. intros Hn Hs. unfold matchAll. apply (matches_from_needs special); assumption. Qed.

Lemma sanitizeDisplayText_plain s :
  plain s -> sanitizeDisplayText s = truncate300 s.
Proof.
  intros H. unfold sanitizeDisplayText, unescape.
  rewrite (replaceAll_plain false re_esc_n) by (reflexivity || assumption).
  rewrite (replaceAll_plain false re_esc_q) by (reflexivity || assumption).
  rewrite (matchAll_plain false re_block) by (reflexivity || assumption).
  cbn [map fold_left].
  rewrite (replaceAll_plain false re_email) by (reflexivity || assumption).
  rewrite (trim_plain s H).
  rewrite (replaceAll_plain true re_items1) by (reflexivity || assumption).
  rewrite (replaceAll_plain true re_items2) by (reflexivity || assumption).
  rewrite (replaceAll_plain true re_items3) by (reflexivity || assumption).
  rewrite (replaceAll_plain true re_items4) by (reflexivity || assumption).
  rewrite (replaceAll_plain false re_dash_list) by (reflexivity || assumption).
  rewrite (replaceAll_plain false re_dup) by (reflexivity || assumption).
  rewrite (replaceAll_plain false re_brackets) by (reflexivity || assumption).
  rewrite (replaceAll_plain false re_spaces) by (reflexivity || assumption).
  rewrite (trim_plain s H).
  rewrite (replaceAll_plain false re_trailing_sep) by (reflexivity || assumption).
  rewrite (trim_plain s H).
  reflexivity.
Qed.

Lemma In_firstn (c : N) n l : In c (firstn n l) -> In c l.
Proof.
  intros H. rewrite <- (firstn_skipn n l). apply in_or_app. left. exact H.
Qed.

Lemma truncate300_plain s : plain s -> plain (truncate300 s).
Proof.
  intros H. unfold truncate300, slice.
  destruct (Nat.ltb 300 (length s)); [|assumption].
  rewrite Nat.sub_0_r. cbn [skipn].
  intros c Hc. apply in_app_or in Hc. destruct Hc as [Hc|Hc].
  - apply H. apply (In_firstn _ _ _ Hc).
  - destruct Hc as [<-|[<-|[<-|[]]]]; reflexivity.
Qed.

Lemma truncate300_idem s : truncate300 (truncate300 s) = truncate300 s.
Proof.
  unfold truncate300, slice. rewrite Nat.sub_0_r. cbn [skipn].
  destruct (Nat.ltb_spec 300 (length s)) as [Hl|Hl].
  - assert (Hlen : length (firstn 300 s) = 300)
      by (rewrite length_firstn; lia).
    rewrite length_app, Hlen.
    replace (Nat.ltb 300 (300 + length (U "..."))) with true
      by (symmetry; apply Nat.ltb_lt; cbn [U length]; lia).
    cbn [skipn]. rewrite firstn_app, Hlen, Nat.sub_diag.
    rewrite firstn_firstn, Nat.min_id. cbn [firstn]. rewrite app_nil_r.
    reflexivity.
  - destruct (Nat.ltb_spec 300 (length s)); [lia | reflexivity].
Qed.

(* ================================================================= *)
(** * Part III: further properties of the header                       *)
(* ================================================================= *)

(** ** The unread badge *)

Lemma set_has_string i s :
  set_has (JStr i) s = existsb (str_eqb i) (stringIds s).
Proof.
  unfold set_has. induction s as [|v s IH]; [reflexivity|].
  destruct v; cbn [existsb stringIds sameValueZero]; rewrite IH; reflexivity.
Qed.

Lemma stringIds_app s t : stringIds (s ++ t) = stringIds s ++ stringIds t.
Proof.
  induction s as [|v s IH]; [reflexivity|].
  destruct v; cbn [app stringIds]; rewrite IH; reflexivity.
Qed.

Lemma str_eqb_sym a b : str_eqb a b = str_eqb b a.
Proof.
  destruct (str_eqb a b) eqn:E.
  - apply str_eqb_eq in E. subst. symmetry. apply str_eqb_refl.
  - symmetry. apply str_eqb_neq. apply str_eqb_neq in E. congruence.
Qed.

Lemma hidden_after_add x i s :
  existsb (str_eqb x) (stringIds (set_add (JStr i) s))
  = str_eqb x i || existsb (str_eqb x) (stringIds s).
Proof.
  unfold set_add. destruct (set_has (JStr i) s) eqn:E.
  - rewrite set_has_string in E.
    destruct (str_eqb x i) eqn:Ex; [|reflexivity].
    apply str_eqb_eq in Ex. subst x. rewrite E. reflexivity.
  - rewrite stringIds_app, existsb_app. cbn [stringIds existsb].
    rewrite orb_false_r. apply orb_comm.
Qed.

Lemma unread_filter_split (h : Alert -> bool) i alerts :
  filter (fun a => negb (isRead a) && negb (str_eqb (id a) i || h a)) alerts
  = filter (fun a => negb (isRead a) && negb (h a))
           (filter (fun a => negb (str_eqb (id a) i)) alerts).
Proof.
  induction alerts as [|a alerts IH]; [reflexivity|]. cbn [filter].
  destruct (str_eqb (id a) i); cbn [negb orb].
  - rewrite andb_false_r. exact IH.
  - cbn [filter]. rewrite IH. reflexivity.
Qed.

Lemma filter_length_le {A} (f : A -> bool) l : length (filter f l) <= length l.
Proof.
  induction l as [|a l IH]; [apply le_n|]. cbn [filter].
  destruct (f a); simpl; lia.
Qed.

Lemma filter_filter_sub {A} (f g : A -> bool) l :
  length (filter f (filter g l)) <= length (filter f l).
Proof.
  induction l as [|a l IH]; [apply le_n|]. cbn [filter].
  destruct (g a); cbn [filter]; destruct (f a); simpl; lia.
Qed.

Lemma In_firstn_gen {A} (x : A) n l : In x (firstn n l) -> In x l.
Proof.
  intros H. rewrite <- (firstn_skipn n l). apply in_or_app. left. exact H.
Qed.


(** X1.  Hiding an alert takes every alert with that id out of the unread
    badge and out of the bell, and nothing else: the badge after the hide is
    the badge as it was, computed without the alerts with that id; it never
    grows. *)
Theorem unreadCount_after_hide :
  forall key i prev store alerts,
    unreadCount alerts (stringIds (fst (hideAlertInBell key i prev store)))
    = unreadCount (filter (fun a => negb (str_eqb (id a) i)) alerts) (stringIds prev)
    /\ unreadCount alerts (stringIds (fst (hideAlertInBell key i prev store)))
       <= unreadCount alerts (stringIds prev)
    /\ (forall a, id a = i ->
                  ~ In a (bellAlerts alerts
                                     (stringIds (fst (hideAlertInBell key i prev store))))).
Proof.
  intros key i prev store alerts. cbn [hideAlertInBell fst].
  assert (E : unreadCount alerts (stringIds (set_add (JStr i) prev))
              = unreadCount (filter (fun a => negb (str_eqb (id a) i)) alerts)
                            (stringIds prev)).
  { unfold unreadCount. f_equal.
    rewrite <- (unread_filter_split
                  (fun a => existsb (str_eqb (id a)) (stringIds prev))).
    apply filter_ext. intros a. rewrite hidden_after_add. reflexivity. }
  split; [exact E|]. split.
  - rewrite E. unfold unreadCount. apply filter_filter_sub.
  - intros a Ha Hin. unfold bellAlerts in Hin.
    apply In_firstn_gen in Hin. apply filter_In in Hin. destruct Hin as [_ Hh].
    rewrite hidden_after_add, Ha, str_eqb_refl in Hh. discriminate.
Qed.

Lemma unreadCount_after_hide_witness :
  let a := mkAlert (U "a1") (U "Booking") (U "approved") [] None (Some (U "u1")) false
                   (Some 1000%Z) in
  ~ In a (bellAlerts [a] (stringIds (fst (hideAlertInBell None (U "a1") [] [])))).
Proof.
  intros a.
  apply (proj2 (proj2 (unreadCount_after_hide None (U "a1") [] [] [a]))).
  reflexivity.
Defined.

(** ** The optimistic read mark *)




(** ** The order of the reconciled feed *)

Lemma insertDesc_Sorted a l :
  Sorted newestFirst l -> Sorted newestFirst (insertDesc a l).
Proof.
  induction l as [|b l IH]; intros Hs; cbn [insertDesc].
  - constructor; constructor.
  - inversion Hs as [|? ? Hs' Hhd]; subst.
    destruct (laterThan (createdAt b) (createdAt a)) eqn:L.
    + constructor; [apply IH; assumption|].
      destruct l as [|c l]; cbn [insertDesc].
      * constructor. unfold newestFirst, notLaterThan.
        destruct (createdAt a), (createdAt b); try discriminate L; simpl in *.
        apply Z.ltb_lt in L. apply Z.ltb_ge. lia.
      * destruct (laterThan (createdAt c) (createdAt a)).
        -- constructor. inversion Hhd; assumption.
        -- constructor. unfold newestFirst, notLaterThan.
           destruct (createdAt a), (createdAt b); try discriminate L; simpl in *.
           apply Z.ltb_lt in L. apply Z.ltb_ge. lia.
    + constructor; [assumption|]. constructor. exact L.
Qed.

Lemma sortDesc_Sorted l : Sorted newestFirst (sortDesc l).
Proof.
  induction l as [|a l IH]; [constructor|].
  cbn [sortDesc fold_right]. apply insertDesc_Sorted. exact IH.
Qed.

Lemma newestFirst_trans x y z :
  createdAt y <> None ->
  newestFirst x y -> newestFirst y z -> newestFirst x z.
Proof.
  unfold newestFirst, notLaterThan, laterThan. intros Hy.
  destruct (createdAt x), (createdAt y), (createdAt z);
    try reflexivity; try congruence.
  rewrite !Z.ltb_ge. lia.
Qed.

Lemma Sorted_valid_Strongly l :
  validTimes l -> Sorted newestFirst l -> StronglySorted newestFirst l.
Proof.
  induction l as [|a l IH]; intros Hv Hs; [constructor|].
  inversion Hs as [|? ? Hs' Hhd]; subst.
  assert (Hv' : validTimes l) by (intros x Hx; apply Hv; right; exact Hx).
  specialize (IH Hv' Hs'). constructor; [exact IH|].
  destruct l as [|b l]; [constructor|].
  inversion Hhd as [|? ? Hab]; subst.
  inversion IH as [|? ? _ Hall]; subst.
  constructor; [exact Hab|].
  rewrite Forall_forall in *. intros z Hz.
  apply (newestFirst_trans a b z); [apply Hv; right; left; reflexivity | exact Hab |].
  apply Hall. exact Hz.
Qed.

Lemma sortDesc_sorted_id l : Sorted newestFirst l -> sortDesc l = l.
Proof.
  induction l as [|a l IH]; intros Hs; [reflexivity|].
  inversion Hs as [|? ? Hs' Hhd]; subst.
  cbn [sortDesc fold_right]. fold (sortDesc l). rewrite (IH Hs').
  destruct l as [|b l]; [reflexivity|]. cbn [insertDesc].
  inversion Hhd as [|? ? Hab]; subst. unfold newestFirst, notLaterThan in Hab.
  rewrite Hab. reflexivity.
Qed.

Lemma dedupe_from_base base a : In a (dedupe base) -> In a base.
Proof.
  intros H. apply dedupe_In in H.
  destruct (groupAlerts_inv base) as (_ & Hval & _). apply (Hval _ _ H).
Qed.

(** X3.  When every creation time of the merged feed of a non-admin viewer
    is valid, the feed comes out newest first: no alert is followed anywhere
    by a later one.  This holds whatever the lower-casing function. *)
Theorem alertsData_newest_first :
  forall lower adminAlerts userFiltered ownerAdminAlerts user,
    validTimes (ownerBaseBy lower userFiltered ownerAdminAlerts user) ->
    StronglySorted newestFirst
      (alertsDataBy lower false adminAlerts userFiltered ownerAdminAlerts user).
Proof.
  intros lower adminAlerts userFiltered ownerAdminAlerts user Hv.
  cbn [alertsDataBy]. unfold dedupe at 1.
  apply Sorted_valid_Strongly; [|apply sortDesc_Sorted].
  intros a Ha. apply Hv. apply dedupe_from_base. exact Ha.
Qed.

Lemma alertsData_newest_first_witness :
  let a := mkAlert (U "1") (U "A") (U "first") [] None (Some (U "u")) false
                   (Some 1000%Z) in
  let b := mkAlert (U "2") (U "B") (U "second") [] None (Some (U "u")) false
                   (Some 2000%Z) in
  let user := mkUser (U "u") (U "me@x.com") (U "student") in
  validTimes (ownerBaseBy toLowerCase [a; b] [] user)
  /\ StronglySorted newestFirst (alertsDataBy toLowerCase false [] [a; b] [] user)
  /\ alertsData false [] [a; b] [] user = [b; a].
Proof.
  intros a b user.
  assert (Hv : validTimes (ownerBaseBy toLowerCase [a; b] [] user)).
  { intros x [<-|[<-|[]]]; discriminate. }
  split; [exact Hv|]. split; [|vm_compute; reflexivity].
  exact (alertsData_newest_first toLowerCase [] [a; b] [] user Hv).
Defined.

(** ** The alerts shown in the bell *)





(** ** Who sees what *)




Lemma alertsDataBy_toLowerCase isAdmin adminAlerts userFiltered ownerAdminAlerts user :
  alertsDataBy toLowerCase isAdmin adminAlerts userFiltered ownerAdminAlerts user
  = alertsData isAdmin adminAlerts userFiltered ownerAdminAlerts user.
Proof. reflexivity. Qed.



(** ** Reconciling twice *)

Lemma dedupKey_not_index a : index_of_key (dedupKey a) = None.
Proof.
  unfold index_of_key. destruct (dedupKey a) as [|c k] eqn:E; [reflexivity|].
  assert (Hd : all_digits (c :: k) = false).
  { rewrite <- E. unfold dedupKey, all_digits.
    rewrite forallb_app. cbn [U app forallb].
    change (N.leb 48 (cu_of_ascii "|") && N.leb (cu_of_ascii "|") 57) with false.
    cbn [andb]. apply andb_false_r. }
  rewrite Hd. reflexivity.
Qed.

Lemma obj_insert_append {V} k (v : V) G :
  index_of_key k = None -> obj_insert k v G = G ++ [(k, v)].
Proof.
  intros Hk. induction G as [|[k0 v0] G IH]; [reflexivity|].
  cbn [obj_insert app]. rewrite Hk, IH. reflexivity.
Qed.

Lemma assoc_absent {V} k (G : list (jsstr * V)) :
  ~ In k (map fst G) -> assoc k G = None.
Proof.
  induction G as [|[k0 v0] G IH]; [reflexivity|]. cbn [map fst In assoc].
  intros H. destruct (str_eqb k0 k) eqn:E.
  - apply str_eqb_eq in E. tauto.
  - apply IH. tauto.
Qed.

Lemma groupAlerts_distinct l : forall P,
  NoDup (map dedupKey (P ++ l)) ->
  fold_left groupStep l (map (fun a => (dedupKey a, a)) P)
  = map (fun a => (dedupKey a, a)) (P ++ l).
Proof.
  induction l as [|a l IH]; intros P Hnd; [rewrite app_nil_r; reflexivity|].
  cbn [fold_left].
  assert (Hfresh : ~ In (dedupKey a) (map dedupKey P)).
  { rewrite map_app in Hnd. cbn [map] in Hnd.
    apply NoDup_remove_2 in Hnd. intros H. apply Hnd. apply in_or_app. left. exact H. }
  assert (Hstep : groupStep (map (fun a => (dedupKey a, a)) P) a
                  = map (fun a => (dedupKey a, a)) (P ++ [a])).
  { unfold groupStep. rewrite assoc_absent by (rewrite map_map; exact Hfresh).
    unfold obj_set. rewrite assoc_absent by (rewrite map_map; exact Hfresh).
    rewrite obj_insert_append by apply dedupKey_not_index.
    rewrite map_app. reflexivity. }
  rewrite Hstep.
  replace (P ++ a :: l) with ((P ++ [a]) ++ l) in * by (rewrite <- app_assoc; reflexivity).
  apply IH. exact Hnd.
Qed.

Lemma dedupe_keys_NoDup base : NoDup (map dedupKey (dedupe base)).
Proof.
  destruct (groupAlerts_inv base) as (Hnd & Hval & _).
  unfold dedupe.
  apply (Permutation_NoDup
           (l := map dedupKey (map snd (groupAlerts base)))).
  - apply Permutation_map. symmetry. apply sortDesc_perm.
  - replace (map dedupKey (map snd (groupAlerts base)))
      with (map fst (groupAlerts base)); [exact Hnd|].
    rewrite map_map. apply map_ext_in. intros [k v] Hin. cbn [fst snd].
    symmetry. apply (Hval _ _ Hin).
Qed.

(** X6.  No two alerts of a reconciled feed share a key; and when every
    creation time of the feed is valid, reconciling the reconciled feed
    changes nothing: the deduplication pass leaves its own result as it is,
    alert for alert and in the same order. *)
Theorem dedupe_idempotent :
  forall base,
    NoDup (map dedupKey (dedupe base))
    /\ (validTimes base -> dedupe (dedupe base) = dedupe base).
Proof.
  intros base. split; [apply dedupe_keys_NoDup|]. intros _.
  unfold dedupe at 1. unfold groupAlerts.
  change (@nil (jsstr * Alert)) with (map (fun a => (dedupKey a, a)) []).
  rewrite (groupAlerts_distinct (dedupe base) [])
    by (apply dedupe_keys_NoDup).
  cbn [app]. rewrite map_map. cbn [snd]. rewrite map_id.
  apply sortDesc_sorted_id. unfold dedupe. apply sortDesc_Sorted.
Qed.

Lemma dedupe_idempotent_witness :
  let a := mkAlert (U "1") (U "Equipment Needs") (U "hdmi needed") [] None None
                   false (Some 1000%Z) in
  let b := mkAlert (U "2") (U "Equipment Needs") (U "hdmi needed") [] None None
                   false (Some 2000%Z) in
  let c := mkAlert (U "3") (U "Booking") (U "approved") [] None None
                   false (Some 3000%Z) in
  validTimes [a; b; c]
  /\ dedupe [a; b; c] = [c; b]
  /\ dedupe (dedupe [a; b; c]) = dedupe [a; b; c].
Proof.
  intros a b c.
  assert (Hv : validTimes [a; b; c]) by (intros x [<-|[<-|[<-|[]]]]; discriminate).
  split; [exact Hv|]. split; [vm_compute; reflexivity|].
  exact (proj2 (dedupe_idempotent [a; b; c]) Hv).
Defined.

(** ** The structured note and the message *)

Lemma extractJsonAroundKey_opens text key b :
  extractJsonAroundKey text key = Some b -> exists s, b = LBRACE :: s.
Proof.
  intros E. pose proof (extractJsonAroundKey_cases text key) as H.
  rewrite E in H. destruct H as (idx & o & i & _ & Ho & Hm & ->).
  destruct Ho as [Hb _]. destruct Hm as (_ & Hr & _).
  destruct (braceAt_skipn _ _ Hb) as (s & Hs & _).
  replace (S i) with (S (o + (i - o))) by lia.
  rewrite (slice_open _ _ _ _ Hs). eexists. reflexivity.
Qed.

(** X7.  The structured note attached to an alert is the needs object only
    when the message holds no brace block around the key [items]: as soon as
    such a block is found, the note plays no part, the parsed block is the
    needs object, and when the block does not parse the search goes on in
    the message as if no note were attached. *)
Theorem findNeeds_note_precedence :
  (forall note raw,
      extractJsonAroundKey raw (J "'items'") = None ->
      truthy_opt note = true ->
      fst (findNeeds note raw) = note)
  /\ (forall note raw b,
         extractJsonAroundKey raw (J "'items'") = Some b ->
         findNeeds note raw = findNeeds None raw)
  /\ (forall note raw b v,
         extractJsonAroundKey raw (J "'items'") = Some b ->
         JSON_parse b = Some v ->
         fst (findNeeds note raw) = Some v).
Proof.
  split; [|split].
  - intros note raw E T. unfold findNeeds. rewrite E, T.
    cbn beta iota zeta. rewrite T. cbn [negb]. cbn beta iota zeta.
    rewrite T. reflexivity.
  - intros note raw b E. destruct (extractJsonAroundKey_opens _ _ _ E) as (s & ->).
    unfold findNeeds. rewrite E. cbn [nonempty].
    destruct (JSON_parse (LBRACE :: s)); reflexivity.
  - intros note raw b v E P. destruct (extractJsonAroundKey_opens _ _ _ E) as (s & ->).
    destruct (JSON_parse_brace_obj _ _ P) as (props & ->).
    unfold findNeeds. rewrite E. cbn [nonempty]. rewrite P. reflexivity.
Qed.

Lemma findNeeds_note_precedence_witness :
  let note := Some (JObj [(U "items", JArr [JStr (U "hdmi")])]) in
  fst (findNeeds note (U "Equipment needs submitted")) = note
  /\ fst (findNeeds note (J "{'items':['projector']}"))
     = Some (JObj [(U "items", JArr [JStr (U "projector")])]).
Proof.
  intros note. split.
  - apply (proj1 findNeeds_note_precedence); vm_compute; reflexivity.
  - apply (proj2 (proj2 findNeeds_note_precedence) note _ (J "{'items':['projector']}"));
      vm_compute; reflexivity.
Defined.

(** ** The shape of a sanitized text *)

Lemma replace_class_filter cs rest : forall prev pos,
  replace_from false (RChar cs) (const_repl []) prev rest pos 0
  = filter (fun c => negb (cs_match false cs c)) rest.
Proof.
  induction rest as [|c rest IH]; intros prev pos; [reflexivity|].
  cbn [replace_from filter]. unfold match_here. rewrite rmatch_char_cons.
  destruct (cs_match false cs c).
  - unfold accept. cbn [st_pos m_end const_repl app negb].
    replace (Nat.eqb (S pos) pos) with false by (symmetry; apply Nat.eqb_neq; lia).
    replace (S pos - pos - 1) with 0 by lia. apply IH.
  - cbn [negb]. f_equal. apply IH.
Qed.

Lemma replace_from_units (P : N -> Prop) ci r t rest : forall prev pos skip,
  Forall P rest -> Forall P t ->
  Forall P (replace_from ci r (const_repl t) prev rest pos skip).
Proof.
  induction rest as [|c rest IH]; intros prev pos skip Hr Ht.
  - destruct skip; cbn [replace_from]; [|constructor].
    destruct (match_here _ _ _); [|constructor].
    rewrite app_nil_r. exact Ht.
  - inversion Hr; subst.
    destruct skip; cbn [replace_from]; [|apply IH; assumption].
    destruct (match_here _ _ _) as [m|].
    + apply Forall_app. split; [exact Ht|].
      destruct (Nat.eqb (m_end m) pos); [constructor; [assumption|]|]; apply IH; assumption.
    + constructor; [assumption|]. apply IH; assumption.
Qed.

Lemma trimStart_suffix s : exists x, s = x ++ trimStart s.
Proof.
  induction s as [|c s [x IH]]; [exists []; reflexivity|].
  cbn [trimStart]. destruct (is_ws c).
  - exists (c :: x). cbn [app]. f_equal. exact IH.
  - exists []. reflexivity.
Qed.

Lemma trim_infix s : exists x y, s = x ++ trim s ++ y.
Proof.
  unfold trim. destruct (trimStart_suffix s) as [x Hx].
  destruct (trimStart_suffix (rev (trimStart s))) as [y Hy].
  exists x, (rev y). rewrite <- rev_app_distr, <- Hy, rev_involutive. exact Hx.
Qed.

Lemma Forall_infix (P : N -> Prop) x l y : Forall P (x ++ l ++ y) -> Forall P l.
Proof.
  intros H. apply Forall_app in H. destruct H as [_ H].
  apply Forall_app in H. tauto.
Qed.

Lemma trim_units (P : N -> Prop) s : Forall P s -> Forall P (trim s).
Proof.
  intros H. destruct (trim_infix s) as (x & y & E). rewrite E in H.
  exact (Forall_infix _ _ _ _ H).
Qed.

Lemma dropTrailing_prefix f s : exists y, s = dropTrailing f s ++ y.
Proof.
  induction s as [|c s [y IH]]; [exists []; reflexivity|].
  cbn [dropTrailing]. destruct (forallb f (c :: s)).
  - exists (c :: s). reflexivity.
  - exists y. cbn [app]. f_equal. exact IH.
Qed.

Lemma dropTrailing_nil f s : dropTrailing f s = [] -> forallb f s = true.
Proof.
  destruct s as [|c s]; [reflexivity|]. cbn [dropTrailing].
  destruct (forallb f (c :: s)); [reflexivity|discriminate].
Qed.

Lemma dropTrailing_all f s : forallb f s = true -> dropTrailing f s = [].
Proof.
  destruct s as [|c s]; [reflexivity|]. cbn [dropTrailing]. intros ->. reflexivity.
Qed.

Lemma dropTrailing_ends f s : endsClean f (dropTrailing f s).
Proof.
  induction s as [|c s IH]; intros pre x E.
  - destruct pre; discriminate.
  - cbn [dropTrailing] in E. destruct (forallb f (c :: s)) eqn:A.
    + destruct pre; discriminate.
    + destruct pre as [|p pre].
      * injection E as -> E. apply dropTrailing_nil in E.
        cbn [forallb] in A. rewrite E, andb_true_r in A. exact A.
      * injection E as _ E. exact (IH _ _ E).
Qed.

Lemma dropTrailing_id f s : endsClean f s -> dropTrailing f s = s.
Proof.
  induction s as [|c s IH]; intros H; [reflexivity|].
  cbn [dropTrailing]. destruct (forallb f (c :: s)) eqn:A.
  - exfalso. destruct (exists_last (l := c :: s)) as (pre & x & E); [discriminate|].
    pose proof (H _ _ E) as Hx. rewrite forallb_forall in A.
    rewrite A in Hx; [discriminate|]. rewrite E. apply in_or_app. right. left. reflexivity.
  - f_equal. apply IH. intros pre x E. apply (H (c :: pre) x). rewrite E. reflexivity.
Qed.

Lemma trimStart_app_last l c :
  trimStart (l ++ [c]) =
  if forallb is_ws l then (if is_ws c then [] else [c]) else trimStart l ++ [c].
Proof.
  induction l as [|a l IH]; [reflexivity|].
  cbn [app trimStart forallb]. destruct (is_ws a); [exact IH|reflexivity].
Qed.

Lemma rev_trimStart_rev s : rev (trimStart (rev s)) = dropTrailing is_ws s.
Proof.
  induction s as [|c s IH]; [reflexivity|].
  cbn [rev dropTrailing]. rewrite trimStart_app_last.
  replace (forallb is_ws (rev s)) with (forallb is_ws s).
  2:{ apply eq_true_iff_eq. rewrite !forallb_forall. split; intros H x Hx; apply H;
      [apply (proj2 (in_rev s x))|apply (proj1 (in_rev s x))]; exact Hx. }
  cbn [forallb]. destruct (forallb is_ws s) eqn:A.
  - rewrite andb_true_r. destruct (is_ws c); [reflexivity|].
    rewrite (dropTrailing_all _ _ A). reflexivity.
  - rewrite andb_false_r. rewrite rev_app_distr. cbn [rev app]. f_equal. exact IH.
Qed.

Lemma trim_dropTrailing s : trim s = dropTrailing is_ws (trimStart s).
Proof. apply rev_trimStart_rev. Qed.

Lemma trimStart_starts s : startsClean is_ws (trimStart s).
Proof.
  induction s as [|c s IH]; intros x t E; [discriminate|].
  cbn [trimStart] in E. destruct (is_ws c) eqn:A; [exact (IH _ _ E)|].
  injection E as -> _. exact A.
Qed.

Lemma dropTrailing_starts f g s : startsClean g s -> startsClean g (dropTrailing f s).
Proof.
  intros H x t E. destruct s as [|c s]; [discriminate|].
  cbn [dropTrailing] in E. destruct (forallb f (c :: s)); [discriminate|].
  injection E as -> _. exact (H _ _ eq_refl).
Qed.

Lemma trim_starts s : startsClean is_ws (trim s).
Proof. rewrite trim_dropTrailing. apply dropTrailing_starts, trimStart_starts. Qed.

Lemma endsClean_suffix f x y : endsClean f (x ++ y) -> endsClean f y.
Proof. intros H pre c E. apply (H (x ++ pre) c). rewrite E, app_assoc. reflexivity. Qed.

Lemma is_separator_ws c : is_separator c = false -> is_ws c = false.
Proof.
  unfold is_separator, is_ws, cs_match, cls. cbn [cs_neg cs_ranges xorb andb orb].
  rewrite orb_false_r. unfold in_ranges. rewrite existsb_app.
  intros H. apply orb_false_iff in H. tauto.
Qed.

Lemma endsClean_weaken (f g : N -> bool) s :
  (forall c, f c = false -> g c = false) -> endsClean f s -> endsClean g s.
Proof. intros W H pre c E. apply W. exact (H _ _ E). Qed.

Lemma trim_ends_separator s : endsClean is_separator s -> endsClean is_separator (trim s).
Proof.
  intros H. rewrite trim_dropTrailing.
  destruct (trimStart_suffix s) as [x Hx]. rewrite Hx in H.
  apply endsClean_suffix in H. rewrite dropTrailing_id; [exact H|].
  exact (endsClean_weaken _ _ _ is_separator_ws H).
Qed.

(** A greedy run over a class, up to the end of the text. *)
Lemma greedy_class_to_end cs rest : forall fuel min prev pos cp,
  min <= 1 -> min + length rest < fuel ->
  rep_loop (rmatch false (RChar cs)) [] true fuel min None (mkst rest prev pos) cp
           (fun st' cp' => rmatch false REnd st' cp' accept)
  = if forallb (cs_match false cs) rest && (Nat.eqb min 0 || nonempty rest)
    then Some (mkst [] (fold_left (fun _ c => Some c) rest prev) (pos + length rest), cp)
    else None.
Proof.
  induction rest as [|c rest IH]; intros fuel min prev pos cp Hm Hf;
    (destruct fuel as [|fuel]; [cbn [length] in Hf; lia|]).
  - cbn [rep_loop]. rewrite cap_clear_nil, rmatch_char_nil.
    destruct min as [|min]; cbn [Nat.eqb negb forallb andb orb nonempty]; [|reflexivity].
    cbn [rmatch st_rest accept fold_left length]. rewrite Nat.add_0_r. reflexivity.
  - cbn [rep_loop]. rewrite cap_clear_nil, rmatch_char_cons.
    cbn [forallb nonempty length fold_left]. rewrite orb_true_r, andb_true_r.
    destruct (cs_match false cs c); cbn [andb].
    + cbn [st_pos]. replace (Nat.eqb (S pos) pos) with false
        by (symmetry; apply Nat.eqb_neq; lia).
      rewrite andb_false_r. cbn [option_map].
      rewrite IH by (cbn [length] in Hf; lia).
      replace (Nat.pred min) with 0 by lia. cbn [Nat.eqb orb]. rewrite andb_true_r.
      replace (S pos + length rest) with (pos + S (length rest)) by lia.
      destruct (forallb (cs_match false cs) rest).
      * destruct (negb (Nat.eqb min 0)); reflexivity.
      * destruct (negb (Nat.eqb min 0)); reflexivity.
    + destruct (negb (Nat.eqb min 0)); reflexivity.
Qed.

Lemma match_here_trailing cs rest prev pos :
  match_here false (RSeq (plus (RChar cs)) REnd) (mkst rest prev pos) =
  if forallb (cs_match false cs) rest && nonempty rest
  then Some (mkmatch pos (pos + length rest) rest [])
  else None.
Proof.
  unfold match_here, plus.
  rewrite rmatch_seq, rmatch_rep. cbn [st_rest groups_of].
  rewrite greedy_class_to_end by lia. cbn [Nat.eqb orb].
  destruct (forallb (cs_match false cs) rest && nonempty rest); [|reflexivity].
  cbn [st_pos st_rest]. replace (pos + length rest - pos) with (length rest) by lia.
  rewrite firstn_all. reflexivity.
Qed.

Lemma replace_trailing_skipped cs f rest : forall prev pos,
  replace_from false (RSeq (plus (RChar cs)) REnd) f prev rest pos (length rest) = [].
Proof.
  induction rest as [|c rest IH]; intros prev pos.
  - cbn [length replace_from]. rewrite match_here_trailing. reflexivity.
  - cbn [length replace_from]. apply IH.
Qed.

(** Removing [[...]+$] drops the longest ending made of units of the
    class (lines 146 and 414). *)
Lemma replace_trailing cs rest : forall prev pos,
  replace_from false (RSeq (plus (RChar cs)) REnd) (const_repl []) prev rest pos 0
  = dropTrailing (cs_match false cs) rest.
Proof.
  induction rest as [|c rest IH]; intros prev pos.
  - cbn [replace_from]. rewrite match_here_trailing. reflexivity.
  - cbn [replace_from dropTrailing]. rewrite match_here_trailing.
    cbn [nonempty]. rewrite andb_true_r.
    destruct (forallb (cs_match false cs) (c :: rest)).
    + cbn [m_end const_repl app length].
      replace (Nat.eqb (pos + S (length rest)) pos) with false
        by (symmetry; apply Nat.eqb_neq; lia).
      replace (pos + S (length rest) - pos - 1) with (length rest) by lia.
      apply replace_trailing_skipped.
    + f_equal. apply IH.
Qed.

Lemma replace_trailing_sep s :
  replaceAll false re_trailing_sep (const_repl []) s = dropTrailing is_separator s.
Proof. apply replace_trailing. Qed.

(** A greedy run over a class reads the longest run there is. *)
Lemma greedy_class_run cs rest : forall fuel min prev pos cp,
  min + length rest < fuel ->
  rep_loop (rmatch false (RChar cs)) [] true fuel min None (mkst rest prev pos) cp accept
  = let run := runLength (cs_match false cs) rest in
    if Nat.leb min run
    then Some (mkst (skipn run rest)
                    (fold_left (fun _ c => Some c) (firstn run rest) prev)
                    (pos + run), cp)
    else None.
Proof.
  induction rest as [|c rest IH]; intros fuel min prev pos cp Hf;
    (destruct fuel as [|fuel]; [cbn [length] in Hf; lia|]).
  - cbn [rep_loop]. rewrite cap_clear_nil, rmatch_char_nil.
    destruct min as [|min]; cbn [Nat.eqb negb runLength Nat.leb]; [|reflexivity].
    unfold accept. cbn [skipn firstn fold_left]. rewrite Nat.add_0_r. reflexivity.
  - cbn [rep_loop]. rewrite cap_clear_nil, rmatch_char_cons. cbn [runLength].
    destruct (cs_match false cs c).
    + cbn [st_pos]. replace (Nat.eqb (S pos) pos) with false
        by (symmetry; apply Nat.eqb_neq; lia).
      rewrite andb_false_r. cbn [option_map].
      rewrite IH by (cbn [length] in Hf; lia). cbn zeta.
      cbn [skipn firstn fold_left].
      replace (S pos + runLength (cs_match false cs) rest)
        with (pos + S (runLength (cs_match false cs) rest)) by lia.
      destruct min as [|min]; cbn [Nat.eqb negb Nat.pred Nat.leb]; reflexivity.
    + destruct min as [|min]; cbn [Nat.eqb negb Nat.leb]; [|reflexivity].
      unfold accept. cbn [skipn firstn fold_left]. rewrite Nat.add_0_r. reflexivity.
Qed.

Lemma cs_match_ws c : cs_match false (cls ws_ranges) c = is_ws c.
Proof. unfold cs_match, cls, is_ws. cbn [cs_neg cs_ranges xorb andb]. apply orb_false_r. Qed.

Lemma runLength_ext (f g : N -> bool) s :
  (forall c, f c = g c) -> runLength f s = runLength g s.
Proof.
  intros E. induction s as [|c s IH]; [reflexivity|].
  cbn [runLength]. rewrite E, IH. reflexivity.
Qed.

Lemma match_here_spaces rest prev pos :
  match_here false re_spaces (mkst rest prev pos) =
  if Nat.leb 2 (runLength is_ws rest)
  then Some (mkmatch pos (pos + runLength is_ws rest)
                     (firstn (runLength is_ws rest) rest) [])
  else None.
Proof.
  unfold match_here, re_spaces, ws. rewrite rmatch_rep. cbn [st_rest groups_of].
  rewrite greedy_class_run by lia. cbn zeta.
  rewrite (runLength_ext _ _ rest cs_match_ws).
  destruct (Nat.leb 2 (runLength is_ws rest)); [|reflexivity].
  cbn [st_pos st_rest].
  replace (pos + runLength is_ws rest - pos) with (runLength is_ws rest) by lia.
  reflexivity.
Qed.

Lemma replace_from_skip ci r f rest : forall prev pos skip,
  skip <= length rest ->
  exists prev',
    replace_from ci r f prev rest pos skip
    = replace_from ci r f prev' (skipn skip rest) (pos + skip) 0.
Proof.
  induction rest as [|c rest IH]; intros prev pos skip H.
  - cbn [length] in H. replace skip with 0 by lia. exists prev.
    rewrite Nat.add_0_r. reflexivity.
  - destruct skip as [|skip].
    + exists prev. rewrite Nat.add_0_r. reflexivity.
    + cbn [length] in H. destruct (IH (Some c) (S pos) skip) as [p E]; [lia|].
      exists p. cbn [replace_from skipn]. rewrite E.
      replace (pos + S skip) with (S pos + skip) by lia. reflexivity.
Qed.

Lemma skipn_run_starts f s : startsClean f (skipn (runLength f s) s).
Proof.
  induction s as [|c s IH]; intros x t E; [discriminate|].
  cbn [runLength] in E. destruct (f c) eqn:A.
  - exact (IH _ _ E).
  - injection E as -> _. exact A.
Qed.

Lemma runLength_le f s : runLength f s <= length s.
Proof.
  induction s as [|c s IH]; [apply Nat.le_refl|].
  cbn [runLength length]. destruct (f c); lia.
Qed.

Lemma no_ws_pair_cons_clean a t :
  startsClean is_ws t -> no_ws_pair t = true -> no_ws_pair (a :: t) = true.
Proof.
  intros S T. destruct t as [|b t]; [reflexivity|].
  change (negb (is_ws a && is_ws b) && no_ws_pair (b :: t) = true).
  rewrite T, (S _ _ eq_refl), andb_false_r. reflexivity.
Qed.

Lemma no_ws_pair_cons_plain a t :
  is_ws a = false -> no_ws_pair t = true -> no_ws_pair (a :: t) = true.
Proof.
  intros A T. destruct t as [|b t]; [reflexivity|].
  change (negb (is_ws a && is_ws b) && no_ws_pair (b :: t) = true).
  rewrite T, A. reflexivity.
Qed.

(** Line 412 leaves no two white-space units side by side. *)
Lemma replace_spaces_single n : forall rest prev pos,
  length rest <= n ->
  let out := replace_from false re_spaces (const_repl (U " ")) prev rest pos 0 in
  no_ws_pair out = true /\ (startsClean is_ws rest -> startsClean is_ws out).
Proof.
  induction n as [|n IH]; intros rest prev pos Hn out; subst out.
  - destruct rest; [|cbn [length] in Hn; lia].
    cbn [replace_from]. rewrite match_here_spaces. cbn. split; [reflexivity|].
    intros _ c t E. discriminate.
  - destruct rest as [|c rest].
    + cbn [replace_from]. rewrite match_here_spaces. cbn. split; [reflexivity|].
      intros _ x t E. discriminate.
    + cbn [length] in Hn. cbn [replace_from]. rewrite match_here_spaces.
      destruct (Nat.leb 2 (runLength is_ws (c :: rest))) eqn:R.
      * apply Nat.leb_le in R. cbn [m_end const_repl].
        replace (Nat.eqb (pos + runLength is_ws (c :: rest)) pos) with false
          by (symmetry; apply Nat.eqb_neq; lia).
        pose proof (runLength_le is_ws (c :: rest)) as L. cbn [length] in L.
        destruct (replace_from_skip false re_spaces (const_repl (U " ")) rest (Some c)
                    (S pos) (pos + runLength is_ws (c :: rest) - pos - 1)) as [p E]; [lia|].
        rewrite E.
        replace (pos + runLength is_ws (c :: rest) - pos - 1)
          with (runLength is_ws (c :: rest) - 1) by lia.
        assert (Hs : skipn (runLength is_ws (c :: rest) - 1) rest
                     = skipn (runLength is_ws (c :: rest)) (c :: rest)).
        { destruct (runLength is_ws (c :: rest)) as [|k]; [lia|].
          cbn [skipn]. replace (S k - 1) with k by lia. reflexivity. }
        rewrite Hs.
        destruct (IH (skipn (runLength is_ws (c :: rest)) (c :: rest)) p
                     (S pos + (runLength is_ws (c :: rest) - 1))) as [I1 I2].
        { rewrite length_skipn. cbn [length]. lia. }
        split.
        -- change (U " ") with [32%N]. cbn [app].
           apply no_ws_pair_cons_clean; [|exact I1].
           apply I2, skipn_run_starts.
        -- intros Sc. pose proof (Sc _ _ eq_refl) as A.
           cbn [runLength] in R. rewrite A in R. lia.
      * apply Nat.leb_gt in R.
        destruct (IH rest (Some c) (S pos)) as [I1 I2]; [lia|].
        split.
        -- destruct (is_ws c) eqn:A.
           ++ apply no_ws_pair_cons_clean; [|exact I1]. apply I2.
              cbn [runLength] in R. rewrite A in R.
              assert (Z : runLength is_ws rest = 0) by lia.
              pose proof (skipn_run_starts is_ws rest) as K. rewrite Z in K. exact K.
           ++ apply no_ws_pair_cons_plain; assumption.
        -- intros Sc x t E. injection E as -> _. exact (Sc _ _ eq_refl).
Qed.

Lemma no_ws_pair_single s : no_ws_pair s = true <-> singleSpaced s.
Proof.
  split.
  - induction s as [|x s IH]; intros H pre a b post E.
    + destruct pre; discriminate.
    + destruct pre as [|p pre].
      * injection E as -> ->.
        change (negb (is_ws a && is_ws b) && no_ws_pair (b :: post) = true) in H.
        apply andb_true_iff in H. destruct H as [H _].
        destruct (is_ws a && is_ws b); [discriminate|reflexivity].
      * injection E as -> E. apply (IH) with (pre := pre) (post := post); [|exact E].
        destruct s as [|y s]; [reflexivity|].
        change (negb (is_ws p && is_ws y) && no_ws_pair (y :: s) = true) in H.
        apply andb_true_iff in H. tauto.
  - induction s as [|x s IH]; intros H; [reflexivity|].
    destruct s as [|y s]; [reflexivity|].
    change (negb (is_ws x && is_ws y) && no_ws_pair (y :: s) = true).
    rewrite (H [] x y s eq_refl). cbn [negb andb].
    apply IH. intros pre a b post E. apply (H (x :: pre) a b post).
    rewrite E. reflexivity.
Qed.

Lemma singleSpaced_infix x s y : singleSpaced (x ++ s ++ y) -> singleSpaced s.
Proof.
  intros H pre a b post E. apply (H (x ++ pre) a b (post ++ y)).
  rewrite E. rewrite <- !app_assoc. reflexivity.
Qed.

Lemma singleSpaced_trim s : singleSpaced s -> singleSpaced (trim s).
Proof.
  intros H. destruct (trim_infix s) as (x & y & E). rewrite E in H.
  exact (singleSpaced_infix _ _ _ H).
Qed.

Lemma singleSpaced_prefix s y : singleSpaced (s ++ y) -> singleSpaced s.
Proof. intros H. apply (singleSpaced_infix [] s y). exact H. Qed.

Lemma no_ws_pair_snoc s c :
  is_ws c = false -> no_ws_pair s = true -> no_ws_pair (s ++ [c]) = true.
Proof.
  intros C. induction s as [|a s IH]; intros H; [reflexivity|].
  destruct s as [|b s].
  - cbn [app]. change (negb (is_ws a && is_ws c) && true = true).
    rewrite C, andb_false_r. reflexivity.
  - change (negb (is_ws a && is_ws b) && no_ws_pair (b :: s) = true) in H.
    apply andb_true_iff in H. destruct H as [H1 H2].
    change (negb (is_ws a && is_ws b) && no_ws_pair ((b :: s) ++ [c]) = true).
    rewrite H1, (IH H2). reflexivity.
Qed.

Lemma truncate300_cases s :
  truncate300 s = s \/ truncate300 s = firstn 300 s ++ U "...".
Proof.
  unfold truncate300. destruct (Nat.ltb 300 (length s)); [right|left]; reflexivity.
Qed.

Lemma truncate300_length s : length (truncate300 s) <= 303.
Proof.
  unfold truncate300. destruct (Nat.ltb_spec 300 (length s)) as [H|H]; [|lia].
  rewrite length_app. unfold slice. rewrite length_firstn. cbn [length U]. 
  change (length (U "...")) with 3. lia.
Qed.

(** X8.  Whatever the input, the text the sanitizer returns is at most 303
    units long, holds no brace, square bracket or double quote, does not
    start with white space, does not end with white space or one of the
    separators [- , : ;], and never holds two white-space units side by
    side. *)
Theorem sanitizeDisplayText_shape (input : jsstr) :
  let out := sanitizeDisplayText input in
  length out <= 303
  /\ (forall c, In c out ->
        c <> LBRACE /\ c <> RBRACE /\ c <> 91%N /\ c <> 93%N /\ c <> DQ)
  /\ startsClean is_ws out
  /\ endsClean is_separator out
  /\ singleSpaced out.
Proof.
  unfold sanitizeDisplayText.
  match goal with
  | |- context [replaceAll false re_brackets (const_repl []) ?x] => generalize x
  end.
  intros s6. unfold replaceAll, re_brackets. rewrite replace_class_filter.
  set (B := filter _ s6).
  assert (HB : Forall (fun c => is_bracket c = false) B).
  { apply Forall_forall. intros c Hc. apply filter_In in Hc. destruct Hc as [_ Hc].
    apply negb_true_iff in Hc. exact Hc. }
  clearbody B. clear s6.
  set (S := replace_from false re_spaces (const_repl (U " ")) None B 0 0).
  assert (HS : Forall (fun c => is_bracket c = false) S).
  { apply replace_from_units; [exact HB|]. repeat constructor. }
  assert (HS2 : singleSpaced S).
  { apply no_ws_pair_single.
    exact (proj1 (replace_spaces_single (length B) B None 0 (Nat.le_refl _))). }
  clearbody S. clear B HB.
  fold (replaceAll false re_trailing_sep (const_repl []) (trim S)).
  rewrite replace_trailing_sep.
  set (T2 := trim (dropTrailing is_separator (trim S))).
  assert (H2 : Forall (fun c => is_bracket c = false) T2).
  { apply trim_units. destruct (dropTrailing_prefix is_separator (trim S)) as [y E].
    pose proof (trim_units _ _ HS) as H. rewrite E in H.
    apply Forall_app in H. tauto. }
  assert (H3 : startsClean is_ws T2) by apply trim_starts.
  assert (H4 : endsClean is_separator T2) by apply trim_ends_separator, dropTrailing_ends.
  assert (H5 : singleSpaced T2).
  { apply singleSpaced_trim. destruct (dropTrailing_prefix is_separator (trim S)) as [y E].
    pose proof (singleSpaced_trim _ HS2) as H. rewrite E in H.
    exact (singleSpaced_prefix _ _ H). }
  clearbody T2. clear S HS HS2.
  cbv zeta. split; [apply truncate300_length|].
  assert (Hdots : U "..." = [46; 46; 46]%N) by reflexivity.
  destruct (truncate300_cases T2) as [-> | ->].
  - split; [|tauto]. intros c Hc. rewrite Forall_forall in H2.
    pose proof (H2 c Hc) as Hb.
    repeat split; intros ->; discriminate Hb.
  - rewrite Hdots. split; [|split; [|split]].
    + intros c Hc. apply in_app_or in Hc. destruct Hc as [Hc|Hc].
      * apply In_firstn in Hc. rewrite Forall_forall in H2. pose proof (H2 c Hc) as Hb.
        repeat split; intros ->; discriminate Hb.
      * cbn [In] in Hc. repeat split; intros ->; intuition discriminate.
    + intros c t E. destruct T2 as [|x T2]; [injection E as <- _; reflexivity|].
      cbn [firstn app] in E. injection E as <- _. exact (H3 _ _ eq_refl).
    + intros pre c E.
      change (firstn 300 T2 ++ [46; 46; 46]%N)
        with (firstn 300 T2 ++ [46; 46]%N ++ [46%N]) in E.
      rewrite app_assoc in E. apply app_inj_tail in E. destruct E as [_ <-].
      reflexivity.
    + apply no_ws_pair_single.
      change (firstn 300 T2 ++ [46; 46; 46]%N)
        with (firstn 300 T2 ++ [46%N] ++ [46%N] ++ [46%N]).
      rewrite !app_assoc.
      repeat (apply no_ws_pair_snoc; [reflexivity|]).
      apply no_ws_pair_single. apply (singleSpaced_prefix _ (skipn 300 T2)).
      rewrite firstn_skipn. exact H5.
Qed.

Lemma sanitizeDisplayText_shape_witness :
  sanitizeDisplayText (J " 'items': [hdmi]   ready  -  ") = U "hdmi ready"
  /\ is_separator 121 = false.
Proof.
  split; [vm_compute; reflexivity|].
  apply (proj1 (proj2 (proj2 (proj2 (sanitizeDisplayText_shape
                                       (J " 'items': [hdmi]   ready  -  "))))))
    with (pre := U "hdmi read").
  vm_compute. reflexivity.
Defined.

(** ** The equipment list and its placeholder *)

Lemma startsWith_prefix key s : startsWith key s = true <-> exists y, s = key ++ y.
Proof.
  revert s. induction key as [|k key IH]; intros s.
  - split; [intros _; exists s; reflexivity|reflexivity].
  - destruct s as [|c s]; cbn [startsWith].
    + split; [discriminate|intros [y E]; discriminate].
    + rewrite andb_true_iff, N.eqb_eq, IH. split.
      * intros [-> [y ->]]. exists y. reflexivity.
      * intros [y E]. injection E as -> ->. split; [reflexivity|]. exists y. reflexivity.
Qed.

Lemma indexOf_aux_infix key s : forall pos,
  indexOf_aux key s pos <> None <-> exists x y, s = x ++ key ++ y.
Proof.
  induction s as [|c s IH]; intros pos.
  - cbn [indexOf_aux]. destruct (startsWith key []) eqn:E.
    + split; [intros _|discriminate]. apply startsWith_prefix in E.
      destruct E as [y E]. exists [], y. exact E.
    + split; [congruence|]. intros (x & y & H). exfalso.
      destruct x; [|discriminate]. cbn [app] in H.
      assert (S : startsWith key [] = true) by (apply startsWith_prefix; exists y; exact H).
      congruence.
  - cbn [indexOf_aux]. destruct (startsWith key (c :: s)) eqn:E.
    + split; [intros _|discriminate]. apply startsWith_prefix in E.
      destruct E as [y E]. exists [], y. exact E.
    + rewrite IH. split.
      * intros (x & y & ->). exists (c :: x), y. reflexivity.
      * intros (x & y & H). destruct x as [|a x].
        -- exfalso. cbn [app] in H.
           assert (S : startsWith key (c :: s) = true)
             by (apply startsWith_prefix; exists y; exact H).
           congruence.
        -- injection H as _ ->. exists x, y. reflexivity.
Qed.

Lemma includes_infix needle hay :
  includes needle hay = true <-> exists x y, hay = x ++ needle ++ y.
Proof.
  rewrite <- (indexOf_aux_infix needle hay 0). unfold includes, indexOf.
  cbn [Nat.min skipn]. destruct (indexOf_aux needle hay 0); split; congruence.
Qed.

Lemma includes_mono needle a s b :
  includes needle s = true -> includes needle (a ++ s ++ b) = true.
Proof.
  rewrite !includes_infix. intros (x & y & ->). exists (a ++ x), (y ++ b).
  rewrite <- !app_assoc. reflexivity.
Qed.

Lemma toLowerCase_app a b : toLowerCase (a ++ b) = toLowerCase a ++ toLowerCase b.
Proof. apply map_app. Qed.

(** No label of the token mapper mentions [others]. *)
Lemma mapToken_label tok l :
  mapToken tok = Some l -> includes (U "others") (toLowerCase l) = false.
Proof.
  unfold mapToken.
  set (raw := trim (replaceAll false re_underscore (const_repl (U " ")) tok)).
  destruct (includes (U "others") (toLowerCase raw)) eqn:I; [discriminate|].
  destruct (str_eqb _ _); [intros [= <-]; reflexivity|].
  destruct (str_eqb _ _); [intros [= <-]; reflexivity|].
  destruct (_ || _); [intros [= <-]; reflexivity|].
  destruct (str_eqb _ _); [intros [= <-]; reflexivity|].
  destruct (_ || _); [intros [= <-]; reflexivity|].
  intros [= <-]. clearbody raw.
  destruct (includes _ (toLowerCase (trim _))) eqn:E; [|reflexivity]. exfalso.
  unfold replaceAll, re_trailing_punct in E. cbn [rseq] in E.
  rewrite replace_trailing in E.
  destruct (dropTrailing_prefix (cs_match false (cls (chars ".,;"))) raw) as [z Hz].
  destruct (trim_infix (dropTrailing (cs_match false (cls (chars ".,;"))) raw))
    as (x & y & Hx).
  assert (R : includes (U "others") (toLowerCase raw) = true); [|congruence].
  rewrite Hz, Hx, <- !app_assoc, !toLowerCase_app.
  apply includes_mono. exact E.
Qed.

Lemma mapTokens_labels toks : forall o,
  Forall (fun l => nonempty l = true /\ includes (U "others") (toLowerCase l) = false)
         (fst (mapTokens toks o)).
Proof.
  induction toks as [|tok toks IH]; intros o; [constructor|].
  rewrite mapTokens_cons.
  destruct (includes (U "others") (toLowerCase tok)); [apply IH|].
  specialize (IH o). destruct (mapTokens toks o) as [ls o1]. cbn [fst] in *.
  destruct (mapToken tok) as [l|] eqn:M; [|exact IH].
  destruct (nonempty l) eqn:Ne; [|exact IH].
  constructor; [|exact IH]. split; [exact Ne|]. exact (mapToken_label _ _ M).
Qed.

Lemma labels_without_placeholder labels :
  Forall (fun l => nonempty l = true /\ includes (U "others") (toLowerCase l) = false)
         labels ->
  existsb (str_eqb (U "and others")) labels = false.
Proof.
  induction 1 as [|l labels [_ H] _ IH]; [reflexivity|].
  cbn [existsb]. rewrite IH, orb_false_r.
  destruct (str_eqb (U "and others") l) eqn:E; [|reflexivity].
  apply str_eqb_eq in E. subst l. discriminate H.
Qed.

Lemma listOfArray_labels needs mapped others :
  listOfArray needs = Ok (mapped, others) ->
  Forall (fun l => nonempty l = true /\ includes (U "others") (toLowerCase l) = false)
         mapped.
Proof.
  unfold listOfArray. destruct (isArray _); [|intros [= <- _]; constructor].
  destruct (mapM _ _) as [toks|]; [|discriminate]. cbn [bind].
  pose proof (mapTokens_labels toks []) as L.
  destruct (mapTokens toks []) as [m o]. cbn [fst] in L.
  match goal with
  | |- bind ?x _ = _ -> _ => destruct x; [|discriminate]
  end.
  cbn [bind]. intros [= <- _]. exact L.
Qed.

Lemma listOfLegacy_labels eqMatch :
  Forall (fun l => nonempty l = true /\ includes (U "others") (toLowerCase l) = false)
         (fst (listOfLegacy eqMatch)).
Proof.
  unfold listOfLegacy. destruct eqMatch as [m|]; [|constructor].
  destruct (nonempty (group 1 m)); [|constructor].
  match goal with
  | |- context [mapTokens ?t []] =>
      pose proof (mapTokens_labels t []) as L; destruct (mapTokens t []) as [a b]
  end.
  exact L.
Qed.

(** X9.  The equipment list of a parsed alert is a list of labels that are
    not empty and do not mention [others] (whatever the case), followed by
    the placeholder [and others] exactly when the others text is not empty:
    the placeholder stands once, at the end, and never comes from a
    token. *)
Theorem equipmentList_placeholder (a : Alert) (p : ParsedAlert) :
  parseEquipmentAlert a = Ok p ->
  exists labels,
    Forall (fun l => nonempty l = true
                     /\ includes (U "others") (toLowerCase l) = false) labels
    /\ equipmentList p
       = labels ++ match othersText p with
                   | Some o => if nonempty o then [U "and others"] else []
                   | None => []
                   end.
Proof.
  assert (W : forall labels o,
             Forall (fun l => nonempty l = true
                              /\ includes (U "others") (toLowerCase l) = false) labels ->
             withOthersSentinel labels o
             = labels ++ match o with
                         | Some o => if nonempty o then [U "and others"] else []
                         | None => []
                         end).
  { intros labels o L. unfold withOthersSentinel.
    rewrite (labels_without_placeholder _ L).
    destruct o as [o|]; [|symmetry; apply app_nil_r].
    destruct (nonempty o); [reflexivity|symmetry; apply app_nil_r]. }
  unfold parseEquipmentAlert.
  destruct (findNeeds _ _) as [needs raw].
  destruct needs as [v|]; [destruct (truthy v)|].
  - destruct (listOfArray (normalizeNeeds v)) as [[m o]|] eqn:L; [|discriminate].
    cbn [bind]. intros [= <-]. cbn [equipmentList othersText fst snd].
    exists m. split; [exact (listOfArray_labels _ _ _ L)|].
    apply W. exact (listOfArray_labels _ _ _ L).
  - intros [= <-]. cbn [equipmentList othersText].
    eexists. split; [apply listOfLegacy_labels|]. apply W, listOfLegacy_labels.
  - intros [= <-]. cbn [equipmentList othersText].
    eexists. split; [apply listOfLegacy_labels|]. apply W, listOfLegacy_labels.
Qed.

Lemma equipmentList_placeholder_witness :
  exists labels,
    Forall (fun l => nonempty l = true
                     /\ includes (U "others") (toLowerCase l) = false) labels
    /\ [U "HDMI Cable"; U "and others"] = labels ++ [U "and others"].
Proof.
  exact (equipmentList_placeholder
           (mkAlert [] [] (U "Requested equipment: hdmi, others: two fans") [] None None
                    false None)
           (mkParsed None [U "HDMI Cable"; U "and others"] (Some (U "two fans")) None None)
           eq_refl).
Defined.

(** ** The hidden alerts across a reload *)

Lemma hex_val_digit n : (n < 16)%N -> hex_val (hex_digit n) = Some n.
Proof.
  intros H.
  assert (E : In n [0; 1; 2; 3; 4; 5; 6; 7; 8; 9; 10; 11; 12; 13; 14; 15]%N).
  { cbn [In]. lia. }
  cbn [In] in E.
  repeat (destruct E as [<-|E]; [reflexivity|]). destruct E.
Qed.

Lemma parse_chars_plain c rest acc :
  (32 <= c)%N -> c <> DQ -> c <> 92%N ->
  parse_chars (c :: rest) acc = parse_chars rest (c :: acc).
Proof.
  intros H1 H2 H3. cbn [parse_chars].
  apply N.eqb_neq in H2, H3. rewrite H2, H3.
  replace (N.ltb c 32) with false by (symmetry; apply N.ltb_ge; exact H1).
  reflexivity.
Qed.

Lemma parse_unicode_escape c rest acc :
  (c < 65536)%N ->
  parse_chars (unicode_escape c ++ rest) acc = parse_chars rest (c :: acc).
Proof.
  intros H. unfold unicode_escape. cbn [app parse_chars].
  change (N.eqb 92 DQ) with false. change (N.ltb 92 32) with false.
  change (N.eqb 92 92) with true. change (N.eqb 117 117) with true. cbv iota.
  rewrite !hex_val_digit.
  - do 2 f_equal.
    assert (E1 : (c / 256 = c / 16 / 16)%N) by (rewrite N.Div0.div_div; reflexivity).
    assert (E2 : (c / 4096 = c / 16 / 16 / 16)%N)
      by (rewrite !N.Div0.div_div; reflexivity).
    rewrite E1, E2.
    pose proof (N.div_mod c 16 ltac:(lia)).
    pose proof (N.div_mod (c / 16) 16 ltac:(lia)).
    pose proof (N.div_mod (c / 16 / 16) 16 ltac:(lia)).
    assert (Z : ((c / 16 / 16 / 16) mod 16 = c / 16 / 16 / 16)%N).
    { apply N.mod_small. rewrite <- E2. apply N.Div0.div_lt_upper_bound. lia. }
    pose proof (N.div_mod (c / 16 / 16 / 16) 16 ltac:(lia)).
    lia.
  - apply N.mod_upper_bound. lia.
  - apply N.mod_upper_bound. lia.
  - apply N.mod_upper_bound. lia.
  - apply N.Div0.div_lt_upper_bound. lia.
Qed.

Lemma parse_quote_unit c rest acc :
  is_high_surrogate c = false -> is_low_surrogate c = false ->
  parse_chars (quote_unit c ++ rest) acc = parse_chars rest (c :: acc).
Proof.
  intros _ _. unfold quote_unit.
  destruct (N.eqb_spec c 8) as [->|H1]; [reflexivity|].
  destruct (N.eqb_spec c 9) as [->|H2]; [reflexivity|].
  destruct (N.eqb_spec c 10) as [->|H3]; [reflexivity|].
  destruct (N.eqb_spec c 12) as [->|H4]; [reflexivity|].
  destruct (N.eqb_spec c 13) as [->|H5]; [reflexivity|].
  destruct (N.eqb_spec c DQ) as [->|H6]; [reflexivity|].
  destruct (N.eqb_spec c 92) as [->|H7]; [reflexivity|].
  destruct (N.ltb_spec c 32) as [H8|H8].
  - apply parse_unicode_escape. lia.
  - apply parse_chars_plain; assumption.
Qed.

Lemma surrogate_plain c :
  is_high_surrogate c = true \/ is_low_surrogate c = true ->
  (32 <= c)%N /\ c <> DQ /\ c <> 92%N /\ (c < 65536)%N.
Proof.
  unfold is_high_surrogate, is_low_surrogate, DQ.
  rewrite !andb_true_iff, !N.leb_le. lia.
Qed.

(** Reading back a quoted string gives the string. *)
Lemma parse_quote_units n : forall s rest acc,
  length s <= n ->
  parse_chars (quote_units s ++ DQ :: rest) acc = Some (rev acc ++ s, rest).
Proof.
  induction n as [|n IH]; intros s rest acc Hn.
  - destruct s; [|cbn [length] in Hn; lia]. cbn [quote_units app parse_chars].
    change (N.eqb DQ DQ) with true. cbv iota. rewrite app_nil_r. reflexivity.
  - destruct s as [|c s].
    + cbn [quote_units app parse_chars].
      change (N.eqb DQ DQ) with true. cbv iota. rewrite app_nil_r. reflexivity.
    + cbn [length] in Hn.
      assert (Step : forall x (a t : jsstr), rev (x :: a) ++ t = rev a ++ x :: t).
      { intros x a t. cbn [rev]. rewrite <- app_assoc. reflexivity. }
      cbn [quote_units].
      destruct (is_high_surrogate c) eqn:Hh.
      * destruct (surrogate_plain c (or_introl Hh)) as (P1 & P2 & P3 & P4).
        destruct s as [|d s].
        -- rewrite parse_unicode_escape by exact P4.
           cbn [parse_chars]. change (N.eqb DQ DQ) with true. cbv iota. reflexivity.
        -- destruct (is_low_surrogate d) eqn:Hl.
           ++ destruct (surrogate_plain d (or_intror Hl)) as (Q1 & Q2 & Q3 & _).
              cbn [app]. rewrite parse_chars_plain by assumption.
              rewrite parse_chars_plain by assumption.
              rewrite IH by (cbn [length] in Hn; lia).
              rewrite !Step. reflexivity.
           ++ rewrite <- app_assoc, parse_unicode_escape by exact P4.
              rewrite IH by lia. rewrite Step. reflexivity.
      * destruct (is_low_surrogate c) eqn:Hl.
        -- destruct (surrogate_plain c (or_intror Hl)) as (_ & _ & _ & P4).
           rewrite <- app_assoc, parse_unicode_escape by exact P4.
           rewrite IH by lia. rewrite Step. reflexivity.
        -- rewrite <- app_assoc, parse_quote_unit by assumption.
           rewrite IH by lia. rewrite Step. reflexivity.
Qed.

Lemma parse_value_string fuel s rest :
  parse_value (S fuel) (quoteJSONString s ++ rest) = Some (JStr s, rest).
Proof.
  unfold quoteJSONString. cbn [parse_value app skip_ws].
  change (json_ws DQ) with false. cbv iota.
  change (N.eqb DQ LBRACE) with false. change (N.eqb DQ 91) with false.
  change (N.eqb DQ DQ) with true. cbv iota.
  rewrite <- app_assoc. cbn [app].
  rewrite (parse_quote_units (length s)) by apply Nat.le_refl. reflexivity.
Qed.

Lemma join_cons sep p ps :
  join sep (p :: ps) = match ps with [] => p | _ => p ++ sep ++ join sep ps end.
Proof. destruct ps; reflexivity. Qed.

Lemma parse_elems_S f s acc :
  parse_elems (S f) s acc =
  match parse_value f s with
  | Some (v, s1) =>
      match skip_ws s1 with
      | c :: s2 =>
          if N.eqb c 44 then parse_elems f s2 (v :: acc)
          else if N.eqb c 93 then Some (JArr (rev (v :: acc)), s2)
          else None
      | [] => None
      end
  | None => None
  end.
Proof. reflexivity. Qed.

Lemma parse_elems_strings ids : forall fuel acc rest,
  ids <> [] -> length ids < fuel ->
  parse_elems fuel (join (U ",") (map quoteJSONString ids) ++ U "]" ++ rest) acc
  = Some (JArr (rev acc ++ map JStr ids), rest).
Proof.
  change (U ",") with [44%N]. change (U "]") with [93%N].
  induction ids as [|i ids IH]; intros fuel acc rest Hne Hf; [congruence|].
  destruct fuel as [|fuel]; [lia|]. cbn [length] in Hf.
  destruct fuel as [|fuel]; [lia|].
  cbn [map]. rewrite join_cons, parse_elems_S.
  destruct ids as [|j ids].
  - cbn [map]. rewrite parse_value_string. cbn [app skip_ws].
    change (json_ws 93) with false. cbv iota.
    change (N.eqb 93 44) with false. change (N.eqb 93 93) with true. cbv iota.
    cbn [rev map]. reflexivity.
  - change (map quoteJSONString (j :: ids))
      with (quoteJSONString j :: map quoteJSONString ids).
    cbv iota. rewrite <- !app_assoc. rewrite parse_value_string.
    cbn [app skip_ws]. change (json_ws 44) with false. cbv iota.
    change (N.eqb 44 44) with true. cbv iota.
    pose proof (IH (S fuel) (JStr i :: acc) rest ltac:(discriminate)
                   ltac:(cbn [length] in *; lia)) as E.
    cbn [app map] in E. rewrite E.
    cbn [rev map]. rewrite <- app_assoc. reflexivity.
Qed.

Lemma JSON_parse_string_array ids :
  JSON_parse (JSON_stringify (JArr (map JStr ids))) = Some (JArr (map JStr ids)).
Proof.
  destruct ids as [|i ids]; [reflexivity|].
  unfold JSON_parse.
  set (text := JSON_stringify (JArr (map JStr (i :: ids)))).
  assert (T : text = 91%N :: join (U ",") (map quoteJSONString (i :: ids)) ++ U "]" ++ []).
  { subst text. cbn [JSON_stringify]. rewrite map_map. reflexivity. }
  assert (L : length (i :: ids) < length text).
  { rewrite T. cbn [length]. rewrite length_app.
    assert (Q2 : forall x, 2 <= length (quoteJSONString x)).
    { intros x. unfold quoteJSONString. cbn [length]. rewrite length_app.
      cbn [length]. lia. }
    assert (G : forall l : list jsstr,
               length l <= length (join (U ",") (map quoteJSONString l)) + 1).
    { induction l as [|x l IHl]; [cbn; lia|].
      cbn [map]. rewrite join_cons. destruct l as [|y l].
      - cbn [map length]. pose proof (Q2 x). lia.
      - change (map quoteJSONString (y :: l))
          with (quoteJSONString y :: map quoteJSONString l) in *.
        cbv iota. rewrite !length_app. pose proof (Q2 x).
        change (length (U ",")) with 1. cbn [length] in IHl |- *. lia. }
    pose proof (G (i :: ids)). change (length (U "]" ++ [])) with 1.
    cbn [length] in *. lia. }
  replace (2 * length text + 2) with (S (2 * length text + 1)) by lia.
  rewrite T at 2. cbn [parse_value skip_ws].
  change (json_ws 91) with false. cbv iota.
  change (N.eqb 91 LBRACE) with false. change (N.eqb 91 91) with true. cbv iota.
  assert (Q : exists q, join (U ",") (map quoteJSONString (i :: ids)) ++ U "]" ++ []
                        = DQ :: q).
  { cbn [map]. rewrite join_cons. destruct (map quoteJSONString ids);
      unfold quoteJSONString; cbn [app]; eexists; reflexivity. }
  destruct Q as [q Q].
  assert (P := parse_elems_strings (i :: ids) (2 * length text + 1) [] []
                 ltac:(discriminate) ltac:(lia)).
  rewrite Q in *. cbn [skip_ws]. change (json_ws DQ) with false. cbv iota.
  change (N.eqb DQ 93) with false. cbv iota.
  rewrite P. reflexivity.
Qed.

Lemma stringIds_strings ids : stringIds (map JStr ids) = ids.
Proof. induction ids as [|i ids IH]; [reflexivity|]. cbn [map stringIds]. f_equal. exact IH. Qed.

Lemma existsb_str_In i l : existsb (str_eqb i) l = true <-> In i l.
Proof.
  rewrite existsb_exists. split.
  - intros (x & Hx & E). apply str_eqb_eq in E. subst x. exact Hx.
  - intros H. exists i. split; [exact H|apply str_eqb_refl].
Qed.

Lemma set_add_string i ids :
  NoDup ids ->
  exists ids', set_add (JStr i) (map JStr ids) = map JStr ids'
               /\ NoDup ids' /\ In i ids'.
Proof.
  intros N. unfold set_add. rewrite set_has_string, stringIds_strings.
  destruct (existsb (str_eqb i) ids) eqn:E.
  - exists ids. split; [reflexivity|]. split; [exact N|]. apply existsb_str_In, E.
  - exists (ids ++ [i]). split; [rewrite map_app; reflexivity|]. split.
    + apply NoDup_app; [exact N|repeat constructor; intros []|].
      intros x Hx [<-|[]]. apply existsb_str_In in Hx. congruence.
    + apply in_or_app. right. left. reflexivity.
Qed.

Lemma set_of_array_strings ids : forall acc,
  NoDup (acc ++ ids) ->
  fold_left (fun s x => set_add x s) (map JStr ids) (map JStr acc)
  = map JStr (acc ++ ids).
Proof.
  induction ids as [|i ids IH]; intros acc N.
  - rewrite app_nil_r. reflexivity.
  - cbn [map fold_left]. unfold set_add at 2.
    rewrite set_has_string, stringIds_strings.
    replace (existsb (str_eqb i) acc) with false.
    + change (map JStr acc ++ [JStr i]) with (map JStr acc ++ map JStr [i]).
      rewrite <- map_app, IH; rewrite <- app_assoc; [reflexivity|exact N].
    + symmetry. destruct (existsb (str_eqb i) acc) eqn:E; [|reflexivity].
      apply existsb_str_In in E. apply NoDup_remove_2 in N.
      exfalso. apply N. apply in_or_app. left. exact E.
Qed.

Lemma assoc_head {V} k (v : V) G : assoc k ((k, v) :: G) = Some v.
Proof. cbn [assoc]. rewrite str_eqb_refl. reflexivity. Qed.

(** X10.  A set of hidden alert ids written to the storage is the set read
    back at the next start; hiding an alert stores a set that holds its id
    and is read back as it is; what one user hides changes nothing in what
    is read for another user. *)
Theorem hiddenIds_survive_reload :
  (forall k ids store,
      NoDup ids ->
      loadHiddenIds (Some k) (persistHiddenIds (Some k) (map JStr ids) store)
      = Some (map JStr ids))
  /\ (forall k i prev store,
         NoDup prev ->
         let r := hideAlertInBell (Some k) i (map JStr prev) store in
         loadHiddenIds (Some k) (snd r) = Some (fst r)
         /\ In i (stringIds (fst r)))
  /\ (forall u1 u2 set store,
         u_id u1 <> u_id u2 ->
         loadHiddenIds (hiddenStorageKey (Some u2))
                       (persistHiddenIds (hiddenStorageKey (Some u1)) set store)
         = loadHiddenIds (hiddenStorageKey (Some u2)) store).
Proof.
  assert (R : forall k ids store,
             NoDup ids ->
             loadHiddenIds (Some k) (persistHiddenIds (Some k) (map JStr ids) store)
             = Some (map JStr ids)).
  { intros k ids store N. unfold loadHiddenIds, persistHiddenIds, setItem, getItem.
    rewrite assoc_head, JSON_parse_string_array.
    replace (nonempty (JSON_stringify (JArr (map JStr ids)))) with true by reflexivity.
    f_equal. exact (set_of_array_strings ids [] N). }
  split; [exact R|split].
  - intros k i prev store N r. subst r. unfold hideAlertInBell. cbn [fst snd].
    destruct (set_add_string i prev N) as (ids' & -> & N' & I).
    split; [apply R; exact N'|]. rewrite stringIds_strings. exact I.
  - intros u1 u2 set store Hne.
    unfold hiddenStorageKey, persistHiddenIds, loadHiddenIds, setItem, getItem.
    cbn [assoc].
    replace (str_eqb (U "orbit:hiddenAlerts:" ++ u_id u1)
                     (U "orbit:hiddenAlerts:" ++ u_id u2)) with false; [reflexivity|].
    symmetry. apply str_eqb_neq. intros E. apply app_inv_head in E. exact (Hne E).
Qed.

Lemma hiddenIds_survive_reload_witness :
  loadHiddenIds (Some (U "orbit:hiddenAlerts:u1"))
                (persistHiddenIds (Some (U "orbit:hiddenAlerts:u1"))
                                  (map JStr [U "a1"; J "a'2"]) [])
  = Some (map JStr [U "a1"; J "a'2"]).
Proof.
  apply (proj1 hiddenIds_survive_reload).
  repeat constructor; cbn [In]; intuition discriminate.
Defined.

(** ** The inline search *)

Section SearchProperties.

Variable lower : jsstr -> jsstr.

Lemma pushUnseen_inv visited l : forall st,
  snd st = map b_id (fst st) -> NoDup (snd st) ->
  (forall b, In b (fst st) -> In b visited) ->
  let st' := fold_left pushUnseen l st in
  snd st' = map b_id (fst st') /\ NoDup (snd st')
  /\ (forall b, In b (fst st') -> In b (visited ++ l))
  /\ (exists more, fst st' = fst st ++ more)
  /\ (forall b, In b l -> In (b_id b) (snd st')).
Proof.
  revert visited.
  induction l as [|x l IH]; intros visited st E N V; cbn [fold_left].
  - split; [exact E|]. split; [exact N|]. split.
    + intros b Hb. rewrite app_nil_r. exact (V b Hb).
    + split; [exists []; symmetry; apply app_nil_r|intros b []].
  - assert (S1 : snd (pushUnseen st x) = map b_id (fst (pushUnseen st x))
                 /\ NoDup (snd (pushUnseen st x))
                 /\ (forall b, In b (fst (pushUnseen st x)) -> In b (visited ++ [x]))
                 /\ (exists more, fst (pushUnseen st x) = fst st ++ more)
                 /\ In (b_id x) (snd (pushUnseen st x))).
    { unfold pushUnseen. destruct (existsb (str_eqb (b_id x)) (snd st)) eqn:Ex.
      - split; [exact E|]. split; [exact N|]. split.
        + intros b Hb. apply in_or_app. left. exact (V b Hb).
        + split; [exists []; symmetry; apply app_nil_r|].
          apply existsb_str_In. exact Ex.
      - cbn [fst snd]. split; [rewrite map_app, E; reflexivity|]. split.
        + apply NoDup_app; [exact N|repeat constructor; intros []|].
          intros i Hi [<-|[]]. apply existsb_str_In in Hi. congruence.
        + split.
          * intros b Hb. apply in_app_or in Hb. apply in_or_app.
            destruct Hb as [Hb|Hb]; [left; exact (V b Hb)|right; exact Hb].
          * split; [exists [x]; reflexivity|].
            apply in_or_app. right. left. reflexivity. }
    destruct S1 as (E1 & N1 & V1 & [m1 P1] & I1).
    destruct (IH (visited ++ [x]) (pushUnseen st x) E1 N1 V1) as (E2 & N2 & V2 & [m2 P2] & I2).
    split; [exact E2|]. split; [exact N2|]. split.
    + intros b Hb. specialize (V2 b Hb). rewrite <- app_assoc in V2. exact V2.
    + split.
      * exists (m1 ++ m2). rewrite P2, P1, app_assoc. reflexivity.
      * intros b [<-|Hb]; [|exact (I2 b Hb)].
        rewrite E2, P2, map_app, <- E1. apply in_or_app. left. exact I1.
Qed.

Lemma length_firstn_le {A} n (l : list A) : length (firstn n l) <= n.
Proof. rewrite length_firstn. apply Nat.le_min_l. Qed.

Lemma NoDup_firstn {A} n : forall l : list A, NoDup l -> NoDup (firstn n l).
Proof.
  induction n as [|n IH]; intros l N; [constructor|].
  destruct l as [|x l]; [constructor|]. cbn [firstn]. inversion N; subst.
  constructor; [|apply IH; assumption].
  intros H. apply In_firstn_gen in H. contradiction.
Qed.

Lemma bookingFilter_owner u term b :
  str_eqb (u_role u) (U "admin") = false ->
  bookingFilter lower (Some u) term b = true ->
  isOwner lower u (lower (or_str (b_userEmail b)
                                 (or_str (b_userEmailAddress b) (b_user_email b)))) b
  = true.
Proof.
  intros R. unfold bookingFilter. rewrite R.
  destruct (negb _); [discriminate|]. cbn [orb]. exact (fun H => H).
Qed.

Lemma bookingFilter_signed_out term b : bookingFilter lower None term b = false.
Proof. unfold bookingFilter. destruct (negb _); reflexivity. Qed.

(** X11.  Who finds which booking: a visitor who is not signed in finds
    none; every booking found is one of the bookings fetched; and a user who
    is not an administrator finds only bookings of their own, that is,
    bookings whose e-mail address is theirs or whose user id is theirs, both
    compared in lower case. *)
Theorem bookingResults_access (user : option User)
        (userBookings allBookings : list Booking) (searchTerm : jsstr) :
  let results := bookingResults lower user userBookings allBookings searchTerm in
  (user = None -> results = [])
  /\ (forall b, In b results -> In b (userBookings ++ allBookings))
  /\ (forall u b,
         user = Some u -> str_eqb (u_role u) (U "admin") = false -> In b results ->
         lower (or_str (b_userEmail b) (b_user_email b)) = lower (u_email u)
         \/ lower (or_str (b_userEmail b)
                          (or_str (b_userEmailAddress b) (b_user_email b)))
            = lower (u_email u)
         \/ lower (b_userId b) = lower (u_id u)).
Proof.
  intros results. subst results. unfold bookingResults.
  set (term := termOf lower searchTerm).
  set (filtered := filter (bookingFilter lower user term) (userBookings ++ allBookings)).
  set (owner := ownerBookings lower user userBookings).
  destruct (pushUnseen_inv [] owner ([], []) eq_refl (NoDup_nil _)
                           (fun b (H : In b []) => H)) as (E1 & N1 & V1 & _ & _).
  destruct (pushUnseen_inv ([] ++ owner) filtered _ E1 N1 V1) as (_ & _ & V2 & _ & _).
  cbn [app] in V2.
  destruct (negb (nonempty term)).
  { split; [reflexivity|]. split; [intros b []|intros u b _ _ []]. }
  split; [|split].
  - intros U0. destruct (firstn 10 _) as [|b r] eqn:R; [reflexivity|]. exfalso.
    assert (Hb : In b (b :: r)) by (left; reflexivity).
    rewrite <- R in Hb. apply In_firstn_gen in Hb. apply V2 in Hb.
    subst owner filtered. rewrite U0 in Hb. cbn [ownerBookings app] in Hb.
    apply filter_In in Hb. destruct Hb as [_ Hb].
    rewrite bookingFilter_signed_out in Hb. discriminate.
  - intros b Hb. apply In_firstn_gen in Hb. apply V2 in Hb.
    apply in_app_or in Hb. destruct Hb as [Hb|Hb].
    + subst owner. unfold ownerBookings in Hb. destruct user as [u|]; [|destruct Hb].
      apply filter_In in Hb. apply in_or_app. left. tauto.
    + subst filtered. apply filter_In in Hb. tauto.
  - intros u b -> R Hb. apply In_firstn_gen in Hb. apply V2 in Hb.
    apply in_app_or in Hb. destruct Hb as [Hb|Hb].
    + subst owner. cbn [ownerBookings] in Hb. apply filter_In in Hb.
      destruct Hb as [_ Hb]. unfold isOwner in Hb. apply orb_true_iff in Hb.
      destruct Hb as [Hb|Hb]; apply str_eqb_eq in Hb; auto.
    + subst filtered. apply filter_In in Hb. destruct Hb as [_ Hb].
      apply (bookingFilter_owner _ _ _ R) in Hb. unfold isOwner in Hb.
      apply orb_true_iff in Hb.
      destruct Hb as [Hb|Hb]; apply str_eqb_eq in Hb; auto.
Qed.

(** X12.  The shape of the bookings found: at most ten, no two with the
    same id; the user's own bookings come first, whether or not they match
    the term: the results start with the first ten own bookings of distinct
    ids; and when no more than ten distinct ids are at hand, every own
    booking and every booking that passes the filter has its id among the
    results. *)
Theorem bookingResults_shape (user : option User)
        (userBookings allBookings : list Booking) (searchTerm : jsstr) :
  let term := termOf lower searchTerm in
  let results := bookingResults lower user userBookings allBookings searchTerm in
  let owner := ownerBookings lower user userBookings in
  let filtered := filter (bookingFilter lower user term) (userBookings ++ allBookings) in
  length results <= 10
  /\ NoDup (map b_id results)
  /\ (term = [] -> results = [])
  /\ (term <> [] ->
      exists more,
        results = firstn 10 (fst (fold_left pushUnseen owner ([], [])) ++ more))
  /\ (term <> [] ->
      forall b own', owner = b :: own' -> exists rest, results = b :: rest)
  /\ (term <> [] ->
      length (fst (fold_left pushUnseen (owner ++ filtered) ([], []))) <= 10 ->
      forall b, In b (owner ++ filtered) -> In (b_id b) (map b_id results)).
Proof.
  intros term results owner filtered. subst results. unfold bookingResults.
  fold term. fold filtered. fold owner.
  destruct (pushUnseen_inv [] owner ([], []) eq_refl (NoDup_nil _)
                           (fun b (H : In b []) => H)) as (E1 & N1 & V1 & _ & I1).
  destruct (pushUnseen_inv ([] ++ owner) filtered _ E1 N1 V1)
    as (E2 & N2 & V2 & [more P2] & I2).
  assert (T : nonempty term = true <-> term <> []).
  { destruct term; cbn [nonempty]; split; congruence. }
  destruct (nonempty term) eqn:Ne; cbn [negb].
  2:{ split; [cbn; lia|]. split; [constructor|]. split; [reflexivity|].
      assert (F : ~ term <> []) by (intros H; apply T in H; discriminate).
      repeat split; intros H; contradiction. }
  split; [apply length_firstn_le|]. split.
  { rewrite <- firstn_map. apply NoDup_firstn. rewrite <- E2. exact N2. }
  split; [intros H; exfalso; apply (proj1 T); [reflexivity|exact H]|].
  split; [intros _; exists more; rewrite P2; reflexivity|]. split.
  - intros _ b own' Ho. rewrite P2.
    assert (H : exists t, fst (fold_left pushUnseen owner ([], [])) = b :: t).
    { rewrite Ho. cbn [fold_left]. 
      destruct (pushUnseen_inv [b] own' (pushUnseen ([], []) b) eq_refl)
        as (_ & _ & _ & [m Pm] & _).
      - cbn. repeat constructor. intros [].
      - intros x Hx. exact Hx.
      - rewrite Pm. cbn. eexists. reflexivity. }
    destruct H as [t ->]. cbn [app firstn]. eexists. reflexivity.
  - intros _ L b Hb. rewrite fold_left_app in L.
    rewrite firstn_all2 by exact L. rewrite <- E2.
    apply in_app_or in Hb. destruct Hb as [Hb|Hb]; [|exact (I2 b Hb)].
    rewrite E2, P2, map_app, <- E1. apply in_or_app. left. exact (I1 b Hb).
Qed.


End SearchProperties.

Lemma bookingResults_access_witness :
  let u := mkUser (U "u1") (U "Ann@x.org") (U "faculty") in
  let own := mkBooking (U "b1") (U "ann@x.org") [] [] (U "Seminar") (U "u1") in
  let other := mkBooking (U "b2") (U "bob@x.org") [] [] (U "Seminar") (U "u2") in
  bookingResults toLowerCase (Some u) [own] [own; other] (U " semi ") = [own]
  /\ (toLowerCase (or_str (b_userEmail own) (b_user_email own)) = toLowerCase (u_email u)
      \/ toLowerCase (or_str (b_userEmail own)
                             (or_str (b_userEmailAddress own) (b_user_email own)))
         = toLowerCase (u_email u)
      \/ toLowerCase (b_userId own) = toLowerCase (u_id u)).
Proof.
  intros u own other. split; [vm_compute; reflexivity|].
  apply (proj2 (proj2 (bookingResults_access toLowerCase (Some u) [own] [own; other]
                                             (U " semi "))) u own eq_refl).
  - vm_compute. reflexivity.
  - vm_compute. left. reflexivity.
Defined.

Lemma bookingResults_shape_witness :
  let u := mkUser (U "u1") (U "Ann@x.org") (U "faculty") in
  let own := mkBooking (U "b1") (U "ann@x.org") [] [] (U "Seminar") (U "u1") in
  let other := mkBooking (U "b2") (U "bob@x.org") [] [] (U "Workshop") (U "u2") in
  exists rest,
    bookingResults toLowerCase (Some u) [own] [own; other] (U "workshop") = own :: rest.
Proof.
  intros u own other.
  apply (proj1 (proj2 (proj2 (proj2 (proj2
           (bookingResults_shape toLowerCase (Some u) [own] [own; other]
                                 (U "workshop"))))))) with (own' := []).
  - vm_compute. discriminate.
  - vm_compute. reflexivity.
Defined.


(** ** Marking an alert read, and taking the mark back *)

Lemma ids_delete_absent x s : ~ In x (ids_delete x s).
Proof.
  unfold ids_delete. intros H. apply filter_In in H. destruct H as [_ H].
  rewrite str_eqb_refl in H. discriminate.
Qed.

Lemma ids_delete_add x s : ~ In x s -> ids_delete x (ids_add x s) = s.
Proof.
  intros H. unfold ids_add.
  assert (D : forall l, ~ In x l -> ids_delete x l = l).
  { induction l as [|y l IH]; intros Hl; [reflexivity|]. cbn [ids_delete filter].
    destruct (str_eqb y x) eqn:E.
    - apply str_eqb_eq in E. subst y. exfalso. apply Hl. left. reflexivity.
    - cbn [negb]. f_equal. apply IH. intros K. apply Hl. right. exact K. }
  destruct (existsb (str_eqb x) s) eqn:E.
  - apply existsb_str_In in E. contradiction.
  - unfold ids_delete. rewrite filter_app. cbn [filter]. rewrite str_eqb_refl.
    cbn [negb]. rewrite app_nil_r. exact (D s H).
Qed.

Lemma ids_add_In x y s : In y (ids_add x s) <-> y = x \/ In y s.
Proof.
  unfold ids_add. destruct (existsb (str_eqb x) s) eqn:E.
  - apply existsb_str_In in E. split; [auto|]. intros [->|H]; assumption.
  - rewrite in_app_iff. cbn [In]. split; [intros [H|[H|[]]]; auto|intros [H|H]; auto].
Qed.

Lemma ids_delete_In x y s : In y (ids_delete x s) <-> y <> x /\ In y s.
Proof.
  unfold ids_delete. rewrite filter_In, negb_true_iff, str_eqb_neq. tauto.
Qed.

(** X14.  The optimistic mark touches only the feed of the acting role,
    and a failed request puts both feeds back as they were before the mark.
    The rollback restores the snapshot taken at that mark: when another
    alert was marked in between, its optimistic mark is undone as well,
    although that alert still counts as pending.  Once a request with a
    non-empty id has failed or settled, that id is no longer pending. *)
Theorem markRead_rollback (isAdmin : bool) (i : jsstr) (st : Caches) :
  let st1 := fst (onMutate isAdmin i st) in
  let ctx := snd (onMutate isAdmin i st) in
  (if isAdmin then userCache st1 = userCache st else adminCache st1 = adminCache st)
  /\ adminCache (onError isAdmin ctx st1) = adminCache st
  /\ userCache (onError isAdmin ctx st1) = userCache st
  /\ (~ In i (pendingMarkIds st) -> i <> [] ->
      pendingMarkIds (onError isAdmin ctx st1) = pendingMarkIds st)
  /\ (forall j,
         let st2 := fst (onMutate isAdmin j st1) in
         adminCache (onError isAdmin ctx st2) = adminCache st
         /\ userCache (onError isAdmin ctx st2) = userCache st
         /\ (j <> i -> In j (pendingMarkIds (onError isAdmin ctx st2))))
  /\ (i <> [] ->
      ~ In i (pendingMarkIds (onError isAdmin ctx st1))
      /\ ~ In i (pendingMarkIds (onSettled i st1))).
Proof.
  intros st1 ctx. subst st1 ctx. unfold onMutate, onError, onSettled.
  assert (Ne : i <> [] -> nonempty i = true) by (destruct i; [congruence|reflexivity]).
  destruct isAdmin; cbn [fst snd adminCache userCache pendingMarkIds prevAdmin
                         prevUser ctxAlertId option_map].
  - split; [reflexivity|]. split; [destruct (adminCache st); reflexivity|].
    split; [reflexivity|]. split.
    + intros H Hi. rewrite (Ne Hi). apply ids_delete_add. exact H.
    + split.
      * intros j. cbn [fst adminCache userCache pendingMarkIds].
        split; [destruct (adminCache st); reflexivity|]. split; [reflexivity|].
        intros Hj. destruct (nonempty i).
        -- apply ids_delete_In. split; [exact Hj|]. apply ids_add_In. left. reflexivity.
        -- apply ids_add_In. left. reflexivity.
      * intros Hi. rewrite (Ne Hi). split; apply ids_delete_absent.
  - split; [reflexivity|]. split; [reflexivity|].
    split; [destruct (userCache st); reflexivity|]. split.
    + intros H Hi. rewrite (Ne Hi). apply ids_delete_add. exact H.
    + split.
      * intros j. cbn [fst adminCache userCache pendingMarkIds].
        split; [reflexivity|]. split; [destruct (userCache st); reflexivity|].
        intros Hj. destruct (nonempty i).
        -- apply ids_delete_In. split; [exact Hj|]. apply ids_add_In. left. reflexivity.
        -- apply ids_add_In. left. reflexivity.
      * intros Hi. rewrite (Ne Hi). split; apply ids_delete_absent.
Qed.

Lemma markRead_rollback_witness :
  let a := mkAlert (U "a1") (U "Booking") (U "approved") [] None (Some (U "u1")) false
                   (Some 1000%Z) in
  let st := mkCaches None (Some [a]) [] in
  pendingMarkIds (onError false (snd (onMutate false (U "a1") st))
                          (fst (onMutate false (U "a1") st))) = [].
Proof.
  intros a st.
  apply (proj1 (proj2 (proj2 (proj2 (markRead_rollback false (U "a1") st))))).
  - intros [].
  - discriminate.
Defined.

(** ** The lead-in of an alert *)

Lemma forallb_status (f : Item -> bool) (s : Status) l :
  (forall it, f it = true <-> status it = s) ->
  forallb f l = true <-> (forall it, In it l -> status it = s).
Proof.
  intros H. rewrite forallb_forall. split; intros K it Hit; apply H, K, Hit.
Qed.

Lemma is_prepared_spec it : is_prepared it = true <-> status it = prepared.
Proof. unfold is_prepared. destruct (status it); split; congruence. Qed.

Lemma is_not_available_spec it :
  is_not_available it = true <-> status it = not_available.
Proof. unfold is_not_available. destruct (status it); split; congruence. Qed.

(** X15.  When the parser found items with their statuses, the lead-in of
    the alert is one of three fixed sentences and holds no text of the
    message: it says [prepared] exactly when every item is prepared, [not
    available] exactly when every item is unavailable, and speaks of an
    update otherwise. *)
Theorem structuredLeadIn_announces (isOwnerAlert : bool) (parsed : ParsedAlert)
        (items : list Item) :
  itemsWithStatus parsed = Some items -> items <> [] ->
  let actorLabel := if isOwnerAlert then U "You" else U "An admin" in
  exists s,
    structuredLeadIn isOwnerAlert parsed = Some s
    /\ (s = actorLabel ++ U " marked requested equipment as prepared"
        <-> forall it, In it items -> status it = prepared)
    /\ (s = actorLabel ++ U " marked requested equipment as not available"
        <-> forall it, In it items -> status it = not_available)
    /\ (s = actorLabel ++ U " updated the equipment request"
        <-> ~ (forall it, In it items -> status it = prepared)
            /\ ~ (forall it, In it items -> status it = not_available)).
Proof.
  intros E Ne actorLabel. unfold structuredLeadIn. rewrite E. fold actorLabel.
  destruct items as [|it0 items']; [congruence|].
  set (items := it0 :: items') in *.
  pose proof (forallb_status is_prepared prepared items is_prepared_spec) as P.
  pose proof (forallb_status is_not_available not_available items
                             is_not_available_spec) as Q.
  assert (X : ~ ((forall it, In it items -> status it = prepared)
                 /\ (forall it, In it items -> status it = not_available))).
  { intros [A B]. specialize (A it0 (or_introl eq_refl)).
    specialize (B it0 (or_introl eq_refl)). congruence. }
  assert (D1 : actorLabel ++ U " marked requested equipment as prepared"
               <> actorLabel ++ U " marked requested equipment as not available").
  { intros H. apply app_inv_head in H. discriminate H. }
  assert (D2 : actorLabel ++ U " marked requested equipment as prepared"
               <> actorLabel ++ U " updated the equipment request").
  { intros H. apply app_inv_head in H. discriminate H. }
  assert (D3 : actorLabel ++ U " marked requested equipment as not available"
               <> actorLabel ++ U " updated the equipment request").
  { intros H. apply app_inv_head in H. discriminate H. }
  destruct (forallb is_prepared items) eqn:FP.
  - eexists. split; [reflexivity|]. clear FP. pose proof (proj1 P eq_refl) as FP.
    split; [tauto|]. split.
    + split; [intros H; contradiction|intros H; exfalso; apply X; tauto].
    + split; [intros H; contradiction|tauto].
  - assert (NP : ~ (forall it, In it items -> status it = prepared)).
    { intros H. apply P in H. discriminate H. }
    destruct (forallb is_not_available items) eqn:FN.
    + eexists. split; [reflexivity|]. clear FN. pose proof (proj1 Q eq_refl) as FN.
      split; [|split].
      * split; [intros H; symmetry in H; contradiction|intros H; contradiction].
      * tauto.
      * split; [intros H; contradiction|tauto].
    + assert (NQ : ~ (forall it, In it items -> status it = not_available)).
      { intros H. apply Q in H. discriminate H. }
      eexists. split; [reflexivity|]. split; [|split].
      * split; [intros H; symmetry in H; contradiction|intros H; contradiction].
      * split; [intros H; symmetry in H; contradiction|intros H; contradiction].
      * tauto.
Qed.

Lemma structuredLeadIn_announces_witness :
  exists s,
    structuredLeadIn true
      (mkParsed None [] None None
                (Some [mkItem (U "Projector") prepared; mkItem (U "HDMI Cable") prepared]))
    = Some s
    /\ s = U "You marked requested equipment as prepared".
Proof.
  destruct (structuredLeadIn_announces true
              (mkParsed None [] None None
                 (Some [mkItem (U "Projector") prepared; mkItem (U "HDMI Cable") prepared]))
              [mkItem (U "Projector") prepared; mkItem (U "HDMI Cable") prepared]
              eq_refl ltac:(discriminate)) as (s & Hs & Hp & _).
  exists s. split; [exact Hs|]. apply Hp.
  intros it [<-|[<-|[]]]; reflexivity.
Defined.

(** ** Where the parser can raise *)

Lemma js_String_primitive v : primitive v -> js_String v <> Throw.
Proof. destruct v as [|[|]| | | |]; cbn; try discriminate; intros []. Qed.

Lemma mapM_throws {A B} (f : A -> exc B) l :
  mapM f l = Throw -> exists x, In x l /\ f x = Throw.
Proof.
  induction l as [|a l IH]; [discriminate|]. cbn [mapM].
  destruct (f a) eqn:E; cbn [bind].
  - destruct (mapM f l); cbn [bind]; [discriminate|].
    intros _. destruct (IH eq_refl) as (x & Hx & Fx).
    exists x. split; [right; exact Hx|exact Fx].
  - intros _. exists a. split; [left; reflexivity|exact E].
Qed.

Lemma String_or_empty_throws x :
  String_or_empty (Some x) = Throw -> ~ primitive x.
Proof.
  cbn [String_or_empty]. destruct (truthy x); [|discriminate].
  intros H P. exact (js_String_primitive x P H).
Qed.

Lemma listOfArray_throws needs :
  listOfArray needs = Throw ->
  exists x,
    (In x (elemsOf (get_prop needs (U "items")))
     \/ get_prop needs (U "others") = Some x)
    /\ ~ primitive x.
Proof.
  unfold listOfArray. destruct (isArray _); [|discriminate].
  destruct (mapM _ _) as [toks|] eqn:M; cbn [bind].
  - destruct (mapTokens toks []) as [mapped o].
    destruct (nonempty o); cbn [bind]; [discriminate|].
    destruct (get_prop needs (U "others")) as [v|]; cbn [bind]; [|discriminate].
    destruct (truthy v); cbn [bind]; [|discriminate].
    destruct (js_String v) eqn:S; cbn [bind]; [discriminate|].
    intros _. exists v. split; [right; reflexivity|].
    intros P. exact (js_String_primitive v P S).
  - intros _. apply mapM_throws in M. destruct M as (x & Hx & Fx).
    exists x. split; [left; exact Hx|]. exact (String_or_empty_throws x Fx).
Qed.

(** X16.  The parser raises only while it turns an element of the items
    array, or the others value, of the needs object into a string: when it
    raises, a needs object was found and one of these values is an array or
    an object. *)
Theorem parseEquipmentAlert_raises_only_on_objects (a : Alert) :
  parseEquipmentAlert a = Throw ->
  exists v x,
    fst (findNeeds (structuredNote a) (unescape (or_str (message a) (details a))))
    = Some v
    /\ (In x (elemsOf (get_prop (normalizeNeeds v) (U "items")))
        \/ get_prop (normalizeNeeds v) (U "others") = Some x)
    /\ ~ primitive x.
Proof.
  unfold parseEquipmentAlert.
  destruct (findNeeds _ _) as [needs raw]. cbn [fst].
  destruct needs as [v|]; [|discriminate].
  destruct (truthy v); [|discriminate].
  destruct (listOfArray (normalizeNeeds v)) as [eo|] eqn:L; cbn [bind]; [discriminate|].
  intros _. destruct (listOfArray_throws _ L) as (x & Hx & Px).
  exists v, x. split; [reflexivity|]. split; assumption.
Qed.

Lemma parseEquipmentAlert_raises_only_on_objects_witness :
  exists v x,
    fst (findNeeds None (unescape (J "'items' {'items':[{'toString':1}]}"))) = Some v
    /\ (In x (elemsOf (get_prop (normalizeNeeds v) (U "items")))
        \/ get_prop (normalizeNeeds v) (U "others") = Some x)
    /\ ~ primitive x.
Proof.
  apply (parseEquipmentAlert_raises_only_on_objects
           (mkAlert [] [] (J "'items' {'items':[{'toString':1}]}") [] None None
                    false None)).
  vm_compute. reflexivity.
Defined.

(** ** Sanitizing twice *)

Lemma search_none_replace ci r f rest : forall prev pos,
  search ci r prev rest pos = None ->
  replace_from ci r f prev rest pos 0 = rest.
Proof.
  induction rest as [|c rest IH]; intros prev pos H; cbn [search] in H;
    cbn [replace_from]; destruct (match_here ci r _); try discriminate.
  - reflexivity.
  - f_equal. apply IH. exact H.
Qed.

Lemma test_false_replaceAll ci r f s :
  test ci r s = false -> replaceAll ci r f s = s.
Proof.
  unfold test, exec, replaceAll. intros H. apply search_none_replace.
  destruct (search ci r None s 0); [discriminate|reflexivity].
Qed.

Lemma test_needs (p : N -> bool) ci r s :
  needs p r = true -> (forall c, In c s -> p c = false) -> test ci r s = false.
Proof.
  intros Hn. unfold test, exec. generalize (@None N) at 1. generalize 0.
  induction s as [|c s IH]; intros pos prev Hf; cbn [search];
    rewrite (match_here_needs p ci r) by assumption.
  - reflexivity.
  - apply IH. intros x Hx. apply Hf. right. exact Hx.
Qed.

Lemma trimStart_id s : startsClean is_ws s -> trimStart s = s.
Proof.
  destruct s as [|c s]; [reflexivity|]. intros H. cbn [trimStart].
  rewrite (H c s eq_refl). reflexivity.
Qed.

Lemma trim_id s : startsClean is_ws s -> endsClean is_ws s -> trim s = s.
Proof.
  intros Hs He. rewrite trim_dropTrailing, (trimStart_id s Hs).
  apply dropTrailing_id. exact He.
Qed.

Lemma replace_spaces_id f rest : forall prev pos,
  no_ws_pair rest = true ->
  replace_from false re_spaces f prev rest pos 0 = rest.
Proof.
  induction rest as [|c rest IH]; intros prev pos H; cbn [replace_from];
    rewrite match_here_spaces.
  - reflexivity.
  - assert (R : Nat.leb 2 (runLength is_ws (c :: rest)) = false).
    { apply Nat.leb_gt. cbn [runLength]. destruct (is_ws c) eqn:A; [|lia].
      destruct rest as [|d rest]; [cbn; lia|].
      cbn [runLength]. destruct (is_ws d) eqn:B; [|lia].
      change (negb (is_ws c && is_ws d) && no_ws_pair (d :: rest) = true) in H.
      rewrite A, B in H. discriminate H. }
    rewrite R. f_equal. apply IH.
    destruct rest as [|d rest]; [reflexivity|].
    change (negb (is_ws c && is_ws d) && no_ws_pair (d :: rest) = true) in H.
    apply andb_true_iff in H. apply H.
Qed.

Lemma filter_all {A} (f : A -> bool) l :
  (forall x, In x l -> f x = true) -> filter f l = l.
Proof.
  induction l as [|a l IH]; intros H; [reflexivity|]. cbn [filter].
  rewrite (H a (or_introl eq_refl)). f_equal. apply IH.
  intros x Hx. apply H. right. exact Hx.
Qed.

(** The facts about a sanitized text that a second pass relies on. *)
Lemma sanitizeDisplayText_settled (input : jsstr) :
  let out := sanitizeDisplayText input in
  (forall c, In c out -> is_bracket c = false)
  /\ startsClean is_ws out
  /\ endsClean is_separator out
  /\ no_ws_pair out = true
  /\ truncate300 out = out.
Proof.
  unfold sanitizeDisplayText.
  match goal with
  | |- context [replaceAll false re_brackets (const_repl []) ?x] => generalize x
  end.
  intros s6. unfold replaceAll, re_brackets. rewrite replace_class_filter.
  set (B := filter _ s6).
  assert (HB : Forall (fun c => is_bracket c = false) B).
  { apply Forall_forall. intros c Hc. apply filter_In in Hc. destruct Hc as [_ Hc].
    apply negb_true_iff in Hc. exact Hc. }
  clearbody B. clear s6.
  set (S := replace_from false re_spaces (const_repl (U " ")) None B 0 0).
  assert (HS : Forall (fun c => is_bracket c = false) S).
  { apply replace_from_units; [exact HB|]. repeat constructor. }
  assert (HS2 : singleSpaced S).
  { apply no_ws_pair_single.
    exact (proj1 (replace_spaces_single (length B) B None 0 (Nat.le_refl _))). }
  clearbody S. clear B HB.
  fold (replaceAll false re_trailing_sep (const_repl []) (trim S)).
  rewrite replace_trailing_sep.
  set (T2 := trim (dropTrailing is_separator (trim S))).
  assert (H2 : Forall (fun c => is_bracket c = false) T2).
  { apply trim_units. destruct (dropTrailing_prefix is_separator (trim S)) as [y E].
    pose proof (trim_units _ _ HS) as H. rewrite E in H.
    apply Forall_app in H. tauto. }
  assert (H3 : startsClean is_ws T2) by apply trim_starts.
  assert (H4 : endsClean is_separator T2) by apply trim_ends_separator, dropTrailing_ends.
  assert (H5 : singleSpaced T2).
  { apply singleSpaced_trim. destruct (dropTrailing_prefix is_separator (trim S)) as [y E].
    pose proof (singleSpaced_trim _ HS2) as H. rewrite E in H.
    exact (singleSpaced_prefix _ _ H). }
  clearbody T2. clear S HS HS2.
  cbv zeta. rewrite truncate300_idem.
  assert (Hdots : U "..." = [46; 46; 46]%N) by reflexivity.
  rewrite Forall_forall in H2.
  destruct (truncate300_cases T2) as [-> | ->].
  - split; [exact H2|]. split; [exact H3|]. split; [exact H4|].
    split; [apply no_ws_pair_single; exact H5|reflexivity].
  - rewrite Hdots. split; [|split; [|split; [|split]]].
    + intros c Hc. apply in_app_or in Hc. destruct Hc as [Hc|Hc].
      * apply In_firstn in Hc. exact (H2 c Hc).
      * cbn [In] in Hc. destruct Hc as [<-|[<-|[<-|[]]]]; reflexivity.
    + intros c t E. destruct T2 as [|x T2]; [injection E as <- _; reflexivity|].
      cbn [firstn app] in E. injection E as <- _. exact (H3 _ _ eq_refl).
    + intros pre c E.
      change (firstn 300 T2 ++ [46; 46; 46]%N)
        with (firstn 300 T2 ++ [46; 46]%N ++ [46%N]) in E.
      rewrite app_assoc in E. apply app_inj_tail in E. destruct E as [_ <-].
      reflexivity.
    + change (firstn 300 T2 ++ [46; 46; 46]%N)
        with (firstn 300 T2 ++ [46%N] ++ [46%N] ++ [46%N]).
      rewrite !app_assoc.
      repeat (apply no_ws_pair_snoc; [reflexivity|]).
      apply no_ws_pair_single. apply (singleSpaced_prefix _ (skipn 300 T2)).
      rewrite firstn_skipn. exact H5.
    + reflexivity.
Qed.

(** C6, as the code has it.  A second pass of the sanitizer can change a
    sanitized text only through four of its steps: the escaped line feed of
    line 384, the e-mail pattern of line 394, the dash list of line 400 and
    the adjacent duplicate of line 407.  Whatever the input, when none of
    these four patterns matches in the sanitized text, sanitizing it again
    returns it unchanged; every other step (the escaped quote, the brace
    blocks, the items tokens, the stripping of braces, brackets and quotes,
    the white-space collapse, the trimming, the trailing separators and the
    truncation) leaves a sanitized text as it is. *)
Theorem sanitizeDisplayText_idempotent_when_settled :
  (forall x,
      firesAgain (sanitizeDisplayText x) = false ->
      sanitizeDisplayText (sanitizeDisplayText x) = sanitizeDisplayText x)
  /\ (forall x, plain x -> firesAgain (sanitizeDisplayText x) = false).
Proof.
  split.
  - intros x F.
    destruct (sanitizeDisplayText_settled x) as (Hb & Hs & He & Hp & Ht).
    set (y := sanitizeDisplayText x) in *. clearbody y.
    unfold firesAgain in F. apply orb_false_iff in F. destruct F as [F F4].
    apply orb_false_iff in F. destruct F as [F F3].
    apply orb_false_iff in F. destruct F as [F1 F2].
    assert (Hw : endsClean is_ws y)
      by exact (endsClean_weaken _ _ _ is_separator_ws He).
    assert (N : forall ci r f, needs is_bracket r = true -> replaceAll ci r f y = y).
    { intros ci r f Hn. unfold replaceAll.
      apply (replace_from_needs is_bracket); assumption. }
    unfold sanitizeDisplayText at 1, unescape.
    rewrite (test_false_replaceAll _ _ _ _ F1).
    rewrite (N false re_esc_q) by reflexivity.
    replace (matchAll false re_block y) with (@nil rematch)
      by (symmetry; unfold matchAll; apply (matches_from_needs is_bracket);
          [reflexivity|assumption]).
    cbn [map fold_left].
    rewrite (test_false_replaceAll _ _ _ _ F2), (trim_id y Hs Hw).
    rewrite (N true re_items1) by reflexivity.
    rewrite (N true re_items2) by reflexivity.
    rewrite (N true re_items3) by reflexivity.
    rewrite (N true re_items4) by reflexivity.
    rewrite (test_false_replaceAll _ _ _ _ F3).
    rewrite (test_false_replaceAll _ _ _ _ F4).
    rewrite (N false re_brackets) by reflexivity.
    unfold replaceAll at 2.
    rewrite (replace_spaces_id _ _ _ _ Hp), (trim_id y Hs Hw).
    rewrite replace_trailing_sep, (dropTrailing_id _ _ He), (trim_id y Hs Hw).
    exact Ht.
  - intros x H. rewrite (sanitizeDisplayText_plain x H).
    pose proof (truncate300_plain x H) as Hp. unfold firesAgain.
    rewrite !(test_needs special) by (reflexivity || exact Hp). reflexivity.
Qed.

Lemma sanitizeDisplayText_idempotent_when_settled_witness :
  firesAgain (sanitizeDisplayText (J "Room 101:  {'a':1} 'ready', thanks - "))
  = false
  /\ sanitizeDisplayText (J "Room 101:  {'a':1} 'ready', thanks - ")
     = U "Room 101: ready, thanks"
  /\ sanitizeDisplayText
       (sanitizeDisplayText (J "Room 101:  {'a':1} 'ready', thanks - "))
     = sanitizeDisplayText (J "Room 101:  {'a':1} 'ready', thanks - ").
Proof.
  assert (F : firesAgain
                (sanitizeDisplayText (J "Room 101:  {'a':1} 'ready', thanks - "))
              = false) by (vm_compute; reflexivity).
  split; [exact F|]. split; [vm_compute; reflexivity|].
  exact (proj1 sanitizeDisplayText_idempotent_when_settled _ F).
Defined.
